(** * The ERD schema pipeline: lexer, parser, validator, graph builder,
      grid layout and schema diff, embedded from the TypeScript sources.

    Conventions of the embedding.
    - A JavaScript string is a sequence of 16-bit code units.  The lexer
      is embedded twice: [Units] is the lexer on any string, a list of
      code units given by their numbers; [Lexer] is the lexer on a
      [string], whose code units are below 256, and the parser and what
      follows it are embedded on these.  The two give the same tokens
      ([tokenize_widen]).  [input[pos]] is [String.get pos input], with
      [None] for [undefined].
    - Counters (positions, lines, columns) are [nat].  Pixel geometry is
      [Z]: positions and sizes are integer-valued doubles.  The sums of
      the grid layout round as sums of doubles do ([JS.add]); the sums of
      the bounding boxes are exact, as they are in the code while the
      magnitudes stay below [2^53].
    - Optional properties ([alias?: string]) are [option]s.
    - A [while] loop is a [Fixpoint] on a fuel argument that returns [None]
      (lexer) or [OutOfFuel] (parser) when the fuel is used up.  The lexer
      never uses it up ([tokenize_total]).  In the parser every loop whose
      body passes a token ends before the fuel does ([whileLoop_bounded]);
      the loop over an [indexes] block can turn without passing a token,
      and [OutOfFuel] then stands for a loop that does not end
      ([indexes_loop_does_not_end]).
    - A [throw] is the [Throw] outcome of the parser's result type. *)

From stdpp Require Import gmap strings list fin_maps.
From Stdlib Require Import ZArith Ascii String Lia.

Local Open Scope string_scope.

(** ** JavaScript primitives used by the sources *)

Module JS.

(** The double quote character and the one-character strings. *)
Definition dquote : ascii := "034"%char.
Definition newline : ascii := "010"%char.
Definition tab : ascii := "009"%char.
Definition cr : ascii := "013"%char.
Definition backslash : ascii := "092"%char.

Definition str (c : ascii) : string := String c EmptyString.

(** [value += x], where [x] is a character or [undefined]: string
    concatenation converts [undefined] to the text "undefined". *)
Definition plusChar (value : string) (x : option ascii) : string :=
  match x with
  | Some c => value ++ str c
  | None => value ++ "undefined"
  end.

Definition inRange (lo hi : nat) (c : ascii) : bool :=
  (lo <=? nat_of_ascii c)%nat && (nat_of_ascii c <=? hi)%nat.

(** [/[0-9]/.test(ch)], [/[a-zA-Z]/.test(ch)], [/[a-zA-Z0-9_]/.test(ch)]
    on a one-character string. *)
Definition isDigit (c : ascii) : bool := inRange 48 57 c.
Definition isAlpha (c : ascii) : bool := inRange 97 122 c || inRange 65 90 c.
Definition isAlphaNumeric (c : ascii) : bool :=
  isAlpha c || isDigit c || Ascii.eqb c "_"%char.

(** [String.prototype.toLowerCase] on code units below 256: the letters
    A-Z and the Latin-1 capitals U+00C0..U+00DE (except the
    multiplication sign U+00D7) move up by 32. *)
Definition toLowerChar (c : ascii) : ascii :=
  if inRange 65 90 c then ascii_of_nat (nat_of_ascii c + 32)
  else if inRange 192 222 c && negb (nat_of_ascii c =? 215)%nat
       then ascii_of_nat (nat_of_ascii c + 32)
       else c.

Fixpoint toLowerCase (s : string) : string :=
  match s with
  | EmptyString => EmptyString
  | String c s' => String (toLowerChar c) (toLowerCase s')
  end.

Definition digitVal (c : ascii) : Z := Z.of_nat (nat_of_ascii c - 48).

Fixpoint parseIntFrom (acc : Z) (s : string) : Z :=
  match s with
  | String c s' => if isDigit c then parseIntFrom (10 * acc + digitVal c) s' else acc
  | EmptyString => acc
  end.

(** [parseInt(s, 10)] on a string that starts with a digit (every NUMBER
    token value does: [readNumber] is entered on a digit): the value of
    the leading run of decimal digits, kept exact. *)
Definition parseInt (s : string) : Z := parseIntFrom 0 s.

Fixpoint takeDigits (s : string) : string :=
  match s with
  | String c s' => if isDigit c then String c (takeDigits s') else EmptyString
  | EmptyString => EmptyString
  end.

Fixpoint dropDigits (s : string) : string :=
  match s with
  | String c s' => if isDigit c then dropDigits s' else s
  | EmptyString => EmptyString
  end.

(** [parseFloat(s)] on a NUMBER token value: the number denoted by the
    longest prefix of the shape digits or digits.digits (a trailing dot
    is read and dropped).  The number is kept as that decimal literal. *)
Definition parseFloat (s : string) : string :=
  let int := takeDigits s in
  match dropDigits s with
  | String "."%char rest =>
      match takeDigits rest with
      | EmptyString => int
      | frac => int ++ "." ++ frac
      end
  | _ => int
  end.

(** Property names every object literal inherits from [Object.prototype]:
    [obj[key]] finds them although the literal does not list them. *)
Definition objectPrototypeMembers : list string :=
  [ "constructor"; "__defineGetter__"; "__defineSetter__"; "hasOwnProperty";
    "__lookupGetter__"; "__lookupSetter__"; "isPrototypeOf";
    "propertyIsEnumerable"; "toString"; "valueOf"; "__proto__";
    "toLocaleString" ].

Definition inherited (key : string) : bool :=
  bool_decide (key ∈ objectPrototypeMembers).

(** [String(v)] of an inherited member (the text V8 prints). *)
Definition showInherited (key : string) : string :=
  if String.eqb key "__proto__" then "[object Object]"
  else "function " ++ (if String.eqb key "constructor" then "Object" else key)
       ++ "() { [native code] }".

(** Numbers are IEEE 754 doubles.  The layout works on integers, and an
    integer is a double when 53 bits hold its significant digits: every
    integer below [2^53] in magnitude is one, and from there on the
    doubles are the multiples of [ulp z], the power of two 52 places
    below the leading bit of [z]. *)
Definition twoTo53 : Z := 9007199254740992.

Definition ulp (z : Z) : Z := 2 ^ (Z.log2 (Z.abs z) - 52).

(** The double nearest to the integer [z]; half-way between two doubles,
    the one with the even significand. *)
Definition roundDouble (z : Z) : Z :=
  if (Z.abs z <? twoTo53)%Z then z
  else
    let u := ulp z in
    let q := (z / u)%Z in
    let r := (z mod u)%Z in
    if (2 * r <? u)%Z then (q * u)%Z
    else if (u <? 2 * r)%Z then ((q + 1) * u)%Z
    else if Z.even q then (q * u)%Z else ((q + 1) * u)%Z.

(** [x + y] on two integer-valued doubles: the exact sum, rounded.  A sum
    of magnitude [2^1024] and more, which JavaScript gives as an infinity,
    is outside the model; no property below reaches it. *)
Definition add (x y : Z) : Z := roundDouble (x + y).

Definition isDouble (z : Z) : Prop := roundDouble z = z.

End JS.

(** ** Tokens (lexer.ts) *)

Inductive TokenType : Type :=
  | TABLE | ENUM | REF | TABLEGROUP | AS | NOTE | INDEXES
  | LBRACE | RBRACE | LBRACKET | RBRACKET | LPAREN | RPAREN
  | COMMA | COLON | DOT
  | REL_ONE_TO_ONE | REL_ONE_TO_MANY | REL_MANY_TO_ONE | REL_MANY_TO_MANY
  | IDENTIFIER | STRING | NUMBER
  | NEWLINE | EOF | UNKNOWN
  (** [KEYWORDS[value]] for a [value] that names a member inherited from
      [Object.prototype]: the lookup is not nullish, so the token's type is
      that member and none of the strings above. *)
  | INHERITED (member : string).

#[global] Instance TokenType_eq_dec : EqDecision TokenType.
Proof. solve_decision. Defined.

Definition tokenTypeName (t : TokenType) : string :=
  match t with
  | TABLE => "TABLE" | ENUM => "ENUM" | REF => "REF"
  | TABLEGROUP => "TABLEGROUP" | AS => "AS" | NOTE => "NOTE"
  | INDEXES => "INDEXES"
  | LBRACE => "LBRACE" | RBRACE => "RBRACE"
  | LBRACKET => "LBRACKET" | RBRACKET => "RBRACKET"
  | LPAREN => "LPAREN" | RPAREN => "RPAREN"
  | COMMA => "COMMA" | COLON => "COLON" | DOT => "DOT"
  | REL_ONE_TO_ONE => "REL_ONE_TO_ONE" | REL_ONE_TO_MANY => "REL_ONE_TO_MANY"
  | REL_MANY_TO_ONE => "REL_MANY_TO_ONE" | REL_MANY_TO_MANY => "REL_MANY_TO_MANY"
  | IDENTIFIER => "IDENTIFIER" | STRING => "STRING" | NUMBER => "NUMBER"
  | NEWLINE => "NEWLINE" | EOF => "EOF" | UNKNOWN => "UNKNOWN"
  | INHERITED m => JS.showInherited m
  end.

Module Token.
Record t : Type := mk { type : TokenType; value : string; line : nat; column : nat }.

#[global] Instance eq_dec : EqDecision t.
Proof. solve_decision. Defined.
End Token.

Definition tk (ty : TokenType) (v : string) (l c : nat) : Token.t :=
  {| Token.type := ty; Token.value := v; Token.line := l; Token.column := c |}.

(** ** Lexer (lexer.ts) *)

Module Lexer.

Definition KEYWORDS : gmap string TokenType :=
  list_to_map
    [ ("table", TABLE); ("Table", TABLE); ("TABLE", TABLE);
      ("enum", ENUM); ("Enum", ENUM); ("ENUM", ENUM);
      ("ref", REF); ("Ref", REF); ("REF", REF);
      ("tablegroup", TABLEGROUP); ("TableGroup", TABLEGROUP);
      ("as", AS);
      ("note", NOTE); ("Note", NOTE);
      ("indexes", INDEXES); ("Indexes", INDEXES) ].

(** [KEYWORDS[value] ?? 'IDENTIFIER'] *)
Definition keywordOrIdentifier (value : string) : TokenType :=
  match KEYWORDS !! value with
  | Some ty => ty
  | None => if JS.inherited value then INHERITED value else IDENTIFIER
  end.

(** The lexer's mutable fields. *)
Record state : Type := mk {
  pos : nat;
  line : nat;
  column : nat;
  tokens : list Token.t
}.

Definition init : state := {| pos := 0; line := 1; column := 1; tokens := [] |}.

Section WithInput.
Variable input : string.

Definition len : nat := String.length input.

(** Enough fuel for any loop of the lexer: every iteration of every
    loop moves [pos] forward and no loop runs at [pos >= len]. *)
Definition fuel0 : nat := S len.

Definition current (s : state) : option ascii := String.get (pos s) input.

(** [this.input[this.pos + 1] ?? ''], with [None] for the empty string
    (the result is only compared with one-character strings). *)
Definition peek (s : state) : option ascii := String.get (S (pos s)) input.

Definition advance (s : state) : state :=
  {| pos := S (pos s); line := line s; column := S (column s); tokens := tokens s |}.

Definition makeToken (ty : TokenType) (value : string) (s : state) : Token.t :=
  {| Token.type := ty; Token.value := value;
     Token.line := line s; Token.column := column s |}.

Definition push (tok : Token.t) (s : state) : state :=
  {| pos := pos s; line := line s; column := column s; tokens := tokens s ++ [tok] |}.

Definition charIs (c : ascii) (x : option ascii) : bool :=
  match x with Some d => Ascii.eqb d c | None => false end.

Definition inBounds (s : state) : bool := (pos s <? len)%nat.

(** [while (pos < length && current() !== '\n') advance()] *)
Fixpoint skipLineComment (fuel : nat) (s : state) : option state :=
  match fuel with
  | O => None
  | S fuel =>
      if inBounds s && negb (charIs JS.newline (current s))
      then skipLineComment fuel (advance s)
      else Some s
  end.

Definition newlineInComment (s : state) : state :=
  {| pos := pos s; line := S (line s); column := 0; tokens := tokens s |}.

(** The inner loop of a block comment, entered after the two
    characters that open it. *)
Fixpoint skipBlockComment (fuel : nat) (s : state) : option state :=
  match fuel with
  | O => None
  | S fuel =>
      if inBounds s then
        if charIs "*"%char (current s) && charIs "/"%char (peek s)
        then Some (advance (advance s))
        else
          let s1 := if charIs JS.newline (current s) then newlineInComment s else s in
          skipBlockComment fuel (advance s1)
      else Some s
  end.

Fixpoint skipWhitespaceAndComments (fuel : nat) (s : state) : option state :=
  match fuel with
  | O => None
  | S fuel =>
      if inBounds s then
        let ch := current s in
        if charIs " "%char ch || charIs JS.tab ch || charIs JS.cr ch then
          skipWhitespaceAndComments fuel (advance s)
        else if charIs "/"%char ch && charIs "/"%char (peek s) then
          s1 ← skipLineComment fuel0 s;
          skipWhitespaceAndComments fuel s1
        else if charIs "/"%char ch && charIs "*"%char (peek s) then
          s1 ← skipBlockComment fuel0 (advance (advance s));
          skipWhitespaceAndComments fuel s1
        else Some s
      else Some s
  end.

(** The loop of [readString]; [value] is the local variable. *)
Fixpoint readStringLoop (fuel : nat) (quote : ascii) (value : string) (s : state)
  : option (string * state) :=
  match fuel with
  | O => None
  | S fuel =>
      if inBounds s && negb (charIs quote (current s)) then
        if charIs JS.backslash (current s) then
          let s1 := advance s in
          readStringLoop fuel quote (JS.plusChar value (current s1)) (advance s1)
        else
          readStringLoop fuel quote (JS.plusChar value (current s)) (advance s)
      else Some (value, s)
  end.

Definition readString (quote : ascii) (s : state) : option (Token.t * state) :=
  let start := column s in
  '(value, s1) ← readStringLoop fuel0 quote EmptyString (advance s);
  let s2 := advance s1 in
  Some ({| Token.type := STRING; Token.value := value;
           Token.line := line s2; Token.column := start |}, s2).

Definition numberChar (x : option ascii) : bool :=
  match x with Some c => JS.isDigit c || Ascii.eqb c "."%char | None => false end.

Fixpoint readNumberLoop (fuel : nat) (value : string) (s : state)
  : option (string * state) :=
  match fuel with
  | O => None
  | S fuel =>
      if inBounds s && numberChar (current s)
      then readNumberLoop fuel (JS.plusChar value (current s)) (advance s)
      else Some (value, s)
  end.

Definition readNumber (s : state) : option (Token.t * state) :=
  let start := column s in
  '(value, s1) ← readNumberLoop fuel0 EmptyString s;
  Some ({| Token.type := NUMBER; Token.value := value;
           Token.line := line s1; Token.column := start |}, s1).

Definition identChar (x : option ascii) : bool :=
  match x with Some c => JS.isAlphaNumeric c | None => false end.

Fixpoint readIdentifierLoop (fuel : nat) (value : string) (s : state)
  : option (string * state) :=
  match fuel with
  | O => None
  | S fuel =>
      if inBounds s && identChar (current s)
      then readIdentifierLoop fuel (JS.plusChar value (current s)) (advance s)
      else Some (value, s)
  end.

Definition readIdentifier (s : state) : option (Token.t * state) :=
  let start := column s in
  '(value, s1) ← readIdentifierLoop fuel0 EmptyString s;
  Some ({| Token.type := keywordOrIdentifier value; Token.value := value;
           Token.line := line s1; Token.column := start |}, s1).

(** [this.tokens.push(this.makeToken(ty, v)); this.advance()] *)
Definition emit (ty : TokenType) (v : string) (s : state) : state :=
  advance (push (makeToken ty v s) s).

(** The [switch] on punctuation and operators. *)
Definition punctuation (ch : ascii) (s : state) : state :=
  match ch with
  | "{"%char => emit LBRACE (JS.str ch) s
  | "}"%char => emit RBRACE (JS.str ch) s
  | "["%char => emit LBRACKET (JS.str ch) s
  | "]"%char => emit RBRACKET (JS.str ch) s
  | "("%char => emit LPAREN (JS.str ch) s
  | ")"%char => emit RPAREN (JS.str ch) s
  | ","%char => emit COMMA (JS.str ch) s
  | ":"%char => emit COLON (JS.str ch) s
  | "."%char => emit DOT (JS.str ch) s
  | "-"%char => emit REL_ONE_TO_ONE "-" s
  | "<"%char =>
      if charIs ">"%char (peek s)
      then advance (emit REL_MANY_TO_MANY "<>" s)
      else emit REL_ONE_TO_MANY "<" s
  | ">"%char => emit REL_MANY_TO_ONE ">" s
  | _ => emit UNKNOWN (JS.str ch) s
  end.

Definition isQuote (ch : ascii) : bool :=
  Ascii.eqb ch "'"%char || Ascii.eqb ch JS.dquote || Ascii.eqb ch "`"%char.

(** One turn of the loop of [tokenize], from [const ch = this.current()]
    on; [ch] is the character at [pos]. *)
Definition scanToken (ch : ascii) (s : state) : option state :=
  if Ascii.eqb ch JS.newline then
    let s1 := advance (push (makeToken NEWLINE (JS.str JS.newline) s) s) in
    Some {| pos := pos s1; line := S (line s1); column := 1; tokens := tokens s1 |}
  else if isQuote ch then
    '(tok, s1) ← readString ch s; Some (push tok s1)
  else if JS.isDigit ch then
    '(tok, s1) ← readNumber s; Some (push tok s1)
  else if JS.isAlpha ch || Ascii.eqb ch "_"%char then
    '(tok, s1) ← readIdentifier s; Some (push tok s1)
  else Some (punctuation ch s).

Fixpoint tokenizeLoop (fuel : nat) (s : state) : option state :=
  match fuel with
  | O => None
  | S fuel =>
      if inBounds s then
        s1 ← skipWhitespaceAndComments fuel0 s;
        match current s1 with
        | Some ch => s2 ← scanToken ch s1; tokenizeLoop fuel s2
        | None => Some s1   (* [if (this.pos >= this.input.length) break] *)
        end
      else Some s
  end.

Definition finish (s : state) : list Token.t :=
  tokens (push (makeToken EOF EmptyString s) s).

Definition tokenize : option (list Token.t) :=
  s ← tokenizeLoop fuel0 init; Some (finish s).

End WithInput.

End Lexer.

(** ** The lexer on any JavaScript string *)

(** A JavaScript string is a sequence of 16-bit code units; [Lexer] above
    is the lexer on the strings whose code units are below 256, which the
    parser is modelled on.  [Units] is the same class on every string: a
    code unit is its number, a string the list of its code units. *)

Module Units.

Definition code (c : ascii) : nat := nat_of_ascii c.

Fixpoint ofString (s : string) : list nat :=
  match s with
  | EmptyString => []
  | String c s' => code c :: ofString s'
  end.

(** [u === c] for a one-character string [c] *)
Definition isCh (c : ascii) (u : nat) : bool := (u =? code c)%nat.

Definition charIs (c : ascii) (x : option nat) : bool :=
  match x with Some u => isCh c u | None => false end.

Definition inRange (lo hi u : nat) : bool := (lo <=? u)%nat && (u <=? hi)%nat.

Definition isDigit (u : nat) : bool := inRange 48 57 u.
Definition isAlpha (u : nat) : bool := inRange 97 122 u || inRange 65 90 u.
Definition isAlphaNumeric (u : nat) : bool := isAlpha u || isDigit u || isCh "_" u.

(** [value += x], where [x] is a code unit or [undefined] *)
Definition plusChar (value : list nat) (x : option nat) : list nat :=
  match x with
  | Some u => value ++ [u]
  | None => value ++ ofString "undefined"
  end.

(** The string [value] as a [string], when all its code units are below
    256. *)
Fixpoint narrow (value : list nat) : option string :=
  match value with
  | [] => Some EmptyString
  | u :: rest =>
      if (u <? 256)%nat
      then option_map (String (ascii_of_nat u)) (narrow rest)
      else None
  end.

(** [KEYWORDS[value] ?? 'IDENTIFIER']: the keys of [KEYWORDS] and the names
    of the inherited members have code units below 256 only. *)
Definition keywordOrIdentifier (value : list nat) : TokenType :=
  match narrow value with
  | Some s => Lexer.keywordOrIdentifier s
  | None => IDENTIFIER
  end.

Module Token.
Record t : Type := mk { type : TokenType; value : list nat; line : nat; column : nat }.

#[global] Instance eq_dec : EqDecision t.
Proof. solve_decision. Defined.
End Token.

Record state : Type := mk {
  pos : nat;
  line : nat;
  column : nat;
  tokens : list Token.t
}.

Definition init : state := {| pos := 0; line := 1; column := 1; tokens := [] |}.

Section WithInput.
Variable input : list nat.

Definition len : nat := List.length input.

Definition fuel0 : nat := S len.

Definition current (s : state) : option nat := input !! pos s.

Definition peek (s : state) : option nat := input !! S (pos s).

Definition advance (s : state) : state :=
  {| pos := S (pos s); line := line s; column := S (column s); tokens := tokens s |}.

Definition makeToken (ty : TokenType) (value : list nat) (s : state) : Token.t :=
  {| Token.type := ty; Token.value := value;
     Token.line := line s; Token.column := column s |}.

Definition push (tok : Token.t) (s : state) : state :=
  {| pos := pos s; line := line s; column := column s; tokens := tokens s ++ [tok] |}.

Definition inBounds (s : state) : bool := (pos s <? len)%nat.

Fixpoint skipLineComment (fuel : nat) (s : state) : option state :=
  match fuel with
  | O => None
  | S fuel =>
      if inBounds s && negb (charIs JS.newline (current s))
      then skipLineComment fuel (advance s)
      else Some s
  end.

Definition newlineInComment (s : state) : state :=
  {| pos := pos s; line := S (line s); column := 0; tokens := tokens s |}.

Fixpoint skipBlockComment (fuel : nat) (s : state) : option state :=
  match fuel with
  | O => None
  | S fuel =>
      if inBounds s then
        if charIs "*" (current s) && charIs "/" (peek s)
        then Some (advance (advance s))
        else
          let s1 := if charIs JS.newline (current s) then newlineInComment s else s in
          skipBlockComment fuel (advance s1)
      else Some s
  end.

Fixpoint skipWhitespaceAndComments (fuel : nat) (s : state) : option state :=
  match fuel with
  | O => None
  | S fuel =>
      if inBounds s then
        let ch := current s in
        if charIs " " ch || charIs JS.tab ch || charIs JS.cr ch then
          skipWhitespaceAndComments fuel (advance s)
        else if charIs "/" ch && charIs "/" (peek s) then
          s1 ← skipLineComment fuel0 s;
          skipWhitespaceAndComments fuel s1
        else if charIs "/" ch && charIs "*" (peek s) then
          s1 ← skipBlockComment fuel0 (advance (advance s));
          skipWhitespaceAndComments fuel s1
        else Some s
      else Some s
  end.

Definition unitIs (quote : nat) (x : option nat) : bool :=
  match x with Some u => (u =? quote)%nat | None => false end.

Fixpoint readStringLoop (fuel : nat) (quote : nat) (value : list nat) (s : state)
  : option (list nat * state) :=
  match fuel with
  | O => None
  | S fuel =>
      if inBounds s && negb (unitIs quote (current s)) then
        if charIs JS.backslash (current s) then
          let s1 := advance s in
          readStringLoop fuel quote (plusChar value (current s1)) (advance s1)
        else
          readStringLoop fuel quote (plusChar value (current s)) (advance s)
      else Some (value, s)
  end.

Definition readString (quote : nat) (s : state) : option (Token.t * state) :=
  let start := column s in
  '(value, s1) ← readStringLoop fuel0 quote [] (advance s);
  let s2 := advance s1 in
  Some ({| Token.type := STRING; Token.value := value;
           Token.line := line s2; Token.column := start |}, s2).

Definition numberChar (x : option nat) : bool :=
  match x with Some u => isDigit u || isCh "." u | None => false end.

Fixpoint readNumberLoop (fuel : nat) (value : list nat) (s : state)
  : option (list nat * state) :=
  match fuel with
  | O => None
  | S fuel =>
      if inBounds s && numberChar (current s)
      then readNumberLoop fuel (plusChar value (current s)) (advance s)
      else Some (value, s)
  end.

Definition readNumber (s : state) : option (Token.t * state) :=
  let start := column s in
  '(value, s1) ← readNumberLoop fuel0 [] s;
  Some ({| Token.type := NUMBER; Token.value := value;
           Token.line := line s1; Token.column := start |}, s1).

Definition identChar (x : option nat) : bool :=
  match x with Some u => isAlphaNumeric u | None => false end.

Fixpoint readIdentifierLoop (fuel : nat) (value : list nat) (s : state)
  : option (list nat * state) :=
  match fuel with
  | O => None
  | S fuel =>
      if inBounds s && identChar (current s)
      then readIdentifierLoop fuel (plusChar value (current s)) (advance s)
      else Some (value, s)
  end.

Definition readIdentifier (s : state) : option (Token.t * state) :=
  let start := column s in
  '(value, s1) ← readIdentifierLoop fuel0 [] s;
  Some ({| Token.type := keywordOrIdentifier value; Token.value := value;
           Token.line := line s1; Token.column := start |}, s1).

Definition emit (ty : TokenType) (v : list nat) (s : state) : state :=
  advance (push (makeToken ty v s) s).

(** The [switch] on punctuation and operators. *)
Definition punctuation (ch : nat) (s : state) : state :=
  if isCh "{" ch then emit LBRACE [ch] s
  else if isCh "}" ch then emit RBRACE [ch] s
  else if isCh "[" ch then emit LBRACKET [ch] s
  else if isCh "]" ch then emit RBRACKET [ch] s
  else if isCh "(" ch then emit LPAREN [ch] s
  else if isCh ")" ch then emit RPAREN [ch] s
  else if isCh "," ch then emit COMMA [ch] s
  else if isCh ":" ch then emit COLON [ch] s
  else if isCh "." ch then emit DOT [ch] s
  else if isCh "-" ch then emit REL_ONE_TO_ONE (ofString "-") s
  else if isCh "<" ch then
    if charIs ">" (peek s)
    then advance (emit REL_MANY_TO_MANY (ofString "<>") s)
    else emit REL_ONE_TO_MANY (ofString "<") s
  else if isCh ">" ch then emit REL_MANY_TO_ONE (ofString ">") s
  else emit UNKNOWN [ch] s.

Definition isQuote (ch : nat) : bool :=
  isCh "'" ch || isCh JS.dquote ch || isCh "`" ch.

Definition scanToken (ch : nat) (s : state) : option state :=
  if isCh JS.newline ch then
    let s1 := advance (push (makeToken NEWLINE (ofString (JS.str JS.newline)) s) s) in
    Some {| pos := pos s1; line := S (line s1); column := 1; tokens := tokens s1 |}
  else if isQuote ch then
    '(tok, s1) ← readString ch s; Some (push tok s1)
  else if isDigit ch then
    '(tok, s1) ← readNumber s; Some (push tok s1)
  else if isAlpha ch || isCh "_" ch then
    '(tok, s1) ← readIdentifier s; Some (push tok s1)
  else Some (punctuation ch s).

Fixpoint tokenizeLoop (fuel : nat) (s : state) : option state :=
  match fuel with
  | O => None
  | S fuel =>
      if inBounds s then
        s1 ← skipWhitespaceAndComments fuel0 s;
        match current s1 with
        | Some ch => s2 ← scanToken ch s1; tokenizeLoop fuel s2
        | None => Some s1
        end
      else Some s
  end.

Definition finish (s : state) : list Token.t :=
  tokens (push (makeToken EOF [] s) s).

Definition tokenize : option (list Token.t) :=
  s ← tokenizeLoop fuel0 init; Some (finish s).

End WithInput.

End Units.

(** ** Intermediate representation (ir/types.ts) *)

Inductive ColumnType : Type :=
  | ct_int | ct_bigint | ct_smallint | ct_float | ct_double | ct_decimal
  | ct_varchar | ct_char | ct_text | ct_boolean | ct_date | ct_datetime
  | ct_timestamp | ct_time | ct_uuid | ct_json | ct_blob | ct_enum | ct_unknown
  (** What the parser's type table yields for a type spelled like a member
      inherited from [Object.prototype] (see [Parser.mapColumnType]); no
      value of the TypeScript type [ColumnType]. *)
  | ct_inherited (member : string).

#[global] Instance ColumnType_eq_dec : EqDecision ColumnType.
Proof. solve_decision. Defined.

Definition columnTypeName (t : ColumnType) : string :=
  match t with
  | ct_int => "int" | ct_bigint => "bigint" | ct_smallint => "smallint"
  | ct_float => "float" | ct_double => "double" | ct_decimal => "decimal"
  | ct_varchar => "varchar" | ct_char => "char" | ct_text => "text"
  | ct_boolean => "boolean" | ct_date => "date" | ct_datetime => "datetime"
  | ct_timestamp => "timestamp" | ct_time => "time" | ct_uuid => "uuid"
  | ct_json => "json" | ct_blob => "blob" | ct_enum => "enum"
  | ct_unknown => "unknown"
  | ct_inherited m => JS.showInherited m
  end.

(** [string | number | boolean | null]; a number is kept as the decimal
    literal it was read from. *)
Inductive DefaultValue : Type :=
  | DvString (s : string)
  | DvNumber (literal : string)
  | DvBool (b : bool)
  | DvNull.

#[global] Instance DefaultValue_eq_dec : EqDecision DefaultValue.
Proof. solve_decision. Defined.

Module ColumnSettings.
Record t : Type := mk {
  primaryKey : option bool;
  unique : option bool;
  notNull : option bool;
  autoIncrement : option bool;
  default : option DefaultValue;
  note : option string;
  length : option Z;
  precision : option Z;
  scale : option Z;
  enumValues : option (list string)
}.

#[global] Instance eq_dec : EqDecision t.
Proof. solve_decision. Defined.

Definition empty : t := mk None None None None None None None None None None.
End ColumnSettings.

Module Column.
Record t : Type := mk {
  name : string;
  type : ColumnType;
  rawType : option string;
  settings : ColumnSettings.t
}.

#[global] Instance eq_dec : EqDecision t.
Proof. solve_decision. Defined.
End Column.

Inductive IndexType : Type := btree | hash | gin | gist.

#[global] Instance IndexType_eq_dec : EqDecision IndexType.
Proof. solve_decision. Defined.

Module Index.
Record t : Type := mk {
  name : option string;
  columns : list string;
  unique : option bool;
  type : option IndexType
}.

#[global] Instance eq_dec : EqDecision t.
Proof. solve_decision. Defined.
End Index.

Module Table.
Record t : Type := mk {
  name : string;
  schema : option string;
  alias : option string;
  columns : list Column.t;
  indexes : list Index.t;
  note : option string
}.

#[global] Instance eq_dec : EqDecision t.
Proof. solve_decision. Defined.
End Table.

Inductive RelationType : Type :=
  | one_to_one | one_to_many | many_to_one | many_to_many.

#[global] Instance RelationType_eq_dec : EqDecision RelationType.
Proof. solve_decision. Defined.

Module Endpoint.
Record t : Type := mk { table : string; column : string }.

#[global] Instance eq_dec : EqDecision t.
Proof. solve_decision. Defined.
End Endpoint.

Module Relation.
Record t : Type := mk {
  name : option string;
  from : Endpoint.t;
  to : Endpoint.t;
  type : RelationType;
  note : option string
}.

#[global] Instance eq_dec : EqDecision t.
Proof. solve_decision. Defined.
End Relation.

Module EnumValue.
Record t : Type := mk { name : string; note : option string }.
End EnumValue.

Module DbEnum.
Record t : Type := mk {
  name : string;
  values : list EnumValue.t;
  note : option string
}.
End DbEnum.

Module IRTableGroup.
Record t : Type := mk { name : string; tables : list string }.
End IRTableGroup.

Module DatabaseSchema.
Record t : Type := mk {
  name : option string;
  tables : list Table.t;
  relations : list Relation.t;
  enums : list DbEnum.t;
  tableGroups : list IRTableGroup.t;
  note : option string
}.
End DatabaseSchema.

(** ** Parser (parser.ts) *)

Inductive Exn : Type :=
  | ParserError (message : string) (line column : nat) (value : option string)
  (** reading a property of [undefined] *)
  | TypeError.

Inductive Res (A : Type) : Type :=
  | Ok (a : A)
  | Throw (e : Exn)
  | OutOfFuel.

Arguments Ok {A} a.
Arguments Throw {A} e.
Arguments OutOfFuel {A}.

Module Parser.

(** A method of the parser: it reads [this.tokens], moves [this.pos] and
    returns, throws, or uses up the fuel of a loop. *)
Definition P (A : Type) : Type := nat → Res (A * nat).

Definition ret {A} (a : A) : P A := λ pos, Ok (a, pos).

Definition bind {A B} (m : P A) (k : A → P B) : P B :=
  λ pos,
    match m pos with
    | Ok (a, pos') => k a pos'
    | Throw e => Throw e
    | OutOfFuel => OutOfFuel
    end.

Definition throw {A} (e : Exn) : P A := λ _, Throw e.
Definition outOfFuel {A} : P A := λ _, OutOfFuel.

Notation "'let*' x := m 'in' k" := (bind m (λ x, k))
  (at level 10, x name, m at level 100, k at level 200, only parsing).
Notation "'let*' ' pat := m 'in' k" := (bind m (λ 'pat, k))
  (at level 10, pat pattern, m at level 100, k at level 200, only parsing).
Notation "'do*' m 'in' k" := (bind m (λ _, k))
  (at level 10, m at level 100, k at level 200, only parsing).

(** [if (c) m] *)
Definition when (c : bool) (m : P unit) : P unit := if c then m else ret tt.

Definition mapping : gmap string ColumnType :=
  list_to_map
    [ ("int", ct_int); ("integer", ct_int); ("bigint", ct_bigint);
      ("smallint", ct_smallint); ("float", ct_float); ("double", ct_double);
      ("decimal", ct_decimal); ("numeric", ct_decimal);
      ("varchar", ct_varchar); ("char", ct_char); ("text", ct_text);
      ("bool", ct_boolean); ("boolean", ct_boolean); ("date", ct_date);
      ("datetime", ct_datetime); ("timestamp", ct_timestamp);
      ("time", ct_time); ("uuid", ct_uuid); ("json", ct_json);
      ("jsonb", ct_json); ("blob", ct_blob); ("binary", ct_blob);
      ("enum", ct_enum) ].

(** [mapping[lower] ?? 'unknown'] *)
Definition mapColumnType (raw : string) : ColumnType :=
  let lower := JS.toLowerCase raw in
  match mapping !! lower with
  | Some ty => ty
  | None => if JS.inherited lower then ct_inherited lower else ct_unknown
  end.

Section WithTokens.
Variable tokens : list Token.t.

Definition fuel0 : nat := S (List.length tokens).

Definition current : P (option Token.t) := λ pos, Ok (tokens !! pos, pos).

Definition peekNext : P (option Token.t) := λ pos, Ok (tokens !! S pos, pos).

Definition hasType (ty : TokenType) (tok : option Token.t) : bool :=
  bool_decide (Token.type <$> tok = Some ty).

(** [this.current()?.type === type] *)
Definition check (ty : TokenType) : P bool :=
  let* tok := current in ret (hasType ty tok).

Definition isAtEnd : P bool :=
  λ pos, Ok (hasType EOF (tokens !! pos) || (List.length tokens <=? pos)%nat, pos).

Definition advance : P (option Token.t) := λ pos, Ok (tokens !! pos, S pos).

Definition showType (tok : option Token.t) : string :=
  match tok with
  | Some t => tokenTypeName (Token.type t)
  | None => "undefined"
  end.

Definition showValue (tok : option Token.t) : string :=
  match tok with
  | Some t => Token.value t
  | None => "undefined"
  end.

Definition expected (ty : TokenType) (tok : option Token.t) : Exn :=
  ParserError
    ("Expected " ++ tokenTypeName ty ++ " but got " ++ showType tok
       ++ " (" ++ JS.str JS.dquote ++ showValue tok ++ JS.str JS.dquote ++ ")")
    (from_option Token.line 0 tok)
    (from_option Token.column 0 tok)
    (Token.value <$> tok).

Definition expect (ty : TokenType) : P Token.t :=
  λ pos,
    match tokens !! pos with
    | Some tok =>
        if decide (Token.type tok = ty) then Ok (tok, S pos)
        else Throw (expected ty (Some tok))
    | None => Throw (expected ty None)
    end.

(** [this.current().value.toLowerCase()] *)
Definition currentLower : P string :=
  let* tok := current in
  match tok with
  | Some t => ret (JS.toLowerCase (Token.value t))
  | None => throw TypeError
  end.

(** [while (cond) { body }], where the body updates the local state [s].
    Every loop of the parser below the top level has this shape. *)
Fixpoint whileLoop {St : Type} (fuel : nat) (cond : P bool) (body : St → P St) (s : St)
  : P St :=
  match fuel with
  | O => outOfFuel
  | S fuel =>
      let* go := cond in
      if go then let* s := body s in whileLoop fuel cond body s
      else ret s
  end.

Definition skipNewlines : P unit :=
  whileLoop fuel0 (check NEWLINE) (λ _, do* advance in ret tt) tt.

(** [if (this.check('COLON')) this.advance()] and the like *)
Definition skipOptional (ty : TokenType) : P unit :=
  let* c := check ty in when c (do* advance in ret tt).

Definition parseDefaultValue : P DefaultValue :=
  let* tok := current in
  do* advance in
  match tok with
  | None => throw TypeError
  | Some tok =>
      let lower := JS.toLowerCase (Token.value tok) in
      if decide (Token.type tok = STRING) then ret (DvString (Token.value tok))
      else if decide (Token.type tok = NUMBER)
           then ret (DvNumber (JS.parseFloat (Token.value tok)))
      else if String.eqb lower "null" then ret DvNull
      else if String.eqb lower "true" then ret (DvBool true)
      else if String.eqb lower "false" then ret (DvBool false)
      else ret (DvString (Token.value tok))
  end.

Definition setPrimaryKey (s : ColumnSettings.t) : ColumnSettings.t :=
  let 'ColumnSettings.mk _ u nn ai d n l p sc ev := s in
  ColumnSettings.mk (Some true) u nn ai d n l p sc ev.
Definition setUnique (s : ColumnSettings.t) : ColumnSettings.t :=
  let 'ColumnSettings.mk pk _ nn ai d n l p sc ev := s in
  ColumnSettings.mk pk (Some true) nn ai d n l p sc ev.
Definition setNotNull (s : ColumnSettings.t) : ColumnSettings.t :=
  let 'ColumnSettings.mk pk u _ ai d n l p sc ev := s in
  ColumnSettings.mk pk u (Some true) ai d n l p sc ev.
Definition setAutoIncrement (s : ColumnSettings.t) : ColumnSettings.t :=
  let 'ColumnSettings.mk pk u nn _ d n l p sc ev := s in
  ColumnSettings.mk pk u nn (Some true) d n l p sc ev.
Definition setDefault (v : DefaultValue) (s : ColumnSettings.t) : ColumnSettings.t :=
  let 'ColumnSettings.mk pk u nn ai _ n l p sc ev := s in
  ColumnSettings.mk pk u nn ai (Some v) n l p sc ev.
Definition setNote (v : string) (s : ColumnSettings.t) : ColumnSettings.t :=
  let 'ColumnSettings.mk pk u nn ai d _ l p sc ev := s in
  ColumnSettings.mk pk u nn ai d (Some v) l p sc ev.

(** One setting of a column's bracket, after [settingName] was read and
    passed. *)
Definition parseSetting (settingName : string) (settings : ColumnSettings.t)
  : P ColumnSettings.t :=
  if String.eqb settingName "pk" || String.eqb settingName "primary"
     || String.eqb settingName "primary_key"
  then ret (setPrimaryKey settings)
  else if String.eqb settingName "unique" then ret (setUnique settings)
  else
    let* isNotNull := (if String.eqb settingName "not"
                  then let* next := currentLower in ret (String.eqb next "null")
                  else ret false) in
    if isNotNull then do* advance in ret (setNotNull settings)
    else if String.eqb settingName "notnull" || String.eqb settingName "not_null"
    then ret (setNotNull settings)
    else if String.eqb settingName "increment"
            || String.eqb settingName "auto_increment"
    then ret (setAutoIncrement settings)
    else if String.eqb settingName "default" then
      do* skipOptional COLON in
      let* v := parseDefaultValue in
      ret (setDefault v settings)
    else if String.eqb settingName "note" then
      do* skipOptional COLON in
      let* tok := expect STRING in
      ret (setNote (Token.value tok) settings)
    else ret settings.

(** [while (!this.check(closing) && !this.isAtEnd())] *)
Definition continues (closing : TokenType) : P bool :=
  let* c := check closing in let* e := isAtEnd in ret (negb c && negb e).

(** One turn of the loop over the settings of a column. *)
Definition settingStep (settings : ColumnSettings.t) : P ColumnSettings.t :=
  let* settingName := currentLower in
  do* advance in
  let* settings := parseSetting settingName settings in
  do* skipOptional COMMA in
  ret settings.

Definition parseSettings (settings : ColumnSettings.t) : P ColumnSettings.t :=
  whileLoop fuel0 (continues RBRACKET) settingStep settings.

Definition parseColumn : P Column.t :=
  let* name := expect IDENTIFIER in
  let* rawTok := expect IDENTIFIER in
  let rawType := Token.value rawTok in
  let type := mapColumnType rawType in
  let* hasParen := check LPAREN in
  let* '(length, precision, scale) :=
    (if hasParen then
       do* advance in
       let* firstTok := expect NUMBER in
       let first := JS.parseInt (Token.value firstTok) in
       let* hasComma := check COMMA in
       let* r := (if hasComma then
               do* advance in
               let* scaleTok := expect NUMBER in
               ret (None, Some first, Some (JS.parseInt (Token.value scaleTok)))
             else ret (Some first, None, None)) in
       do* expect RPAREN in
       ret r
     else ret (None, None, None)) in
  let settings :=
    ColumnSettings.mk None None None None None None length precision scale None in
  let* hasBracket := check LBRACKET in
  let* settings :=
    (if hasBracket then
       do* advance in
       let* settings := parseSettings settings in
       do* expect RBRACKET in
       ret settings
     else ret settings) in
  ret (Column.mk (Token.value name) type (Some rawType) settings).

Definition parseNote : P string :=
  do* expect NOTE in
  do* skipOptional COLON in
  let* tok := expect STRING in
  ret (Token.value tok).

(** The column list [(col1, col2)] of an index. *)
Definition indexColumnStep (columns : list string) : P (list string) :=
  let* tok := expect IDENTIFIER in
  do* skipOptional COMMA in
  ret (columns ++ [Token.value tok])%list.

Definition parseIndexColumns : P (list string) :=
  whileLoop fuel0 (continues RPAREN) indexColumnStep [].

Definition setIndexUnique (idx : Index.t) : Index.t :=
  Index.mk (Index.name idx) (Index.columns idx) (Some true) (Index.type idx).
Definition setIndexName (v : string) (idx : Index.t) : Index.t :=
  Index.mk (Some v) (Index.columns idx) (Index.unique idx) (Index.type idx).

Definition indexSettingStep (idx : Index.t) : P Index.t :=
  let* s := currentLower in
  do* advance in
  let idx := if String.eqb s "unique" then setIndexUnique idx else idx in
  let* idx := (if String.eqb s "name" then
                 do* skipOptional COLON in
                 let* tok := expect STRING in
                 ret (setIndexName (Token.value tok) idx)
               else ret idx) in
  do* skipOptional COMMA in
  ret idx.

Definition parseIndexSettings (idx : Index.t) : P Index.t :=
  whileLoop fuel0 (continues RBRACKET) indexSettingStep idx.

Definition parseIndex : P Index.t :=
  let* hasParen := check LPAREN in
  let* columns :=
    (if hasParen then
       do* advance in
       let* columns := parseIndexColumns in
       do* expect RPAREN in
       ret columns
     else
       let* isIdent := check IDENTIFIER in
       if isIdent then let* tok := expect IDENTIFIER in ret [Token.value tok]
       else ret []) in
  let idx := Index.mk None columns None None in
  let* hasBracket := check LBRACKET in
  if hasBracket then
    do* advance in
    let* idx := parseIndexSettings idx in
    do* expect RBRACKET in
    ret idx
  else ret idx.

Definition indexStep (indexes : list Index.t) : P (list Index.t) :=
  let* idx := parseIndex in
  do* skipNewlines in
  ret (indexes ++ [idx])%list.

Definition withIndexes (indexes : list Index.t) (t : Table.t) : Table.t :=
  Table.mk (Table.name t) (Table.schema t) (Table.alias t) (Table.columns t)
    indexes (Table.note t).
Definition withNote (note : string) (t : Table.t) : Table.t :=
  Table.mk (Table.name t) (Table.schema t) (Table.alias t) (Table.columns t)
    (Table.indexes t) (Some note).
Definition withColumn (c : Column.t) (t : Table.t) : Table.t :=
  Table.mk (Table.name t) (Table.schema t) (Table.alias t)
    (Table.columns t ++ [c]) (Table.indexes t) (Table.note t).

(** [parseIndexes(table)] pushes onto [table.indexes]; the table with
    the longer list is returned. *)
Definition parseIndexes (table : Table.t) : P Table.t :=
  do* expect INDEXES in
  do* expect LBRACE in
  do* skipNewlines in
  let* indexes := whileLoop fuel0 (continues RBRACE) indexStep (Table.indexes table) in
  do* expect RBRACE in
  ret (withIndexes indexes table).

(** One turn of the loop over the body of a table. *)
Definition tableBodyStep (table : Table.t) : P Table.t :=
  let* isIndexes := check INDEXES in
  let* isNote := check NOTE in
  let* isIdent := check IDENTIFIER in
  let* table :=
    (if isIndexes then parseIndexes table
     else if isNote then let* note := parseNote in ret (withNote note table)
     else if isIdent then let* c := parseColumn in ret (withColumn c table)
     else do* advance in ret table) in
  do* skipNewlines in
  ret table.

Definition parseTable : P Table.t :=
  do* expect TABLE in
  let* name := expect IDENTIFIER in
  let* hasAs := check AS in
  let* alias := (if hasAs then
              do* advance in
              let* tok := expect IDENTIFIER in
              ret (Some (Token.value tok))
            else ret None) in
  let table := Table.mk (Token.value name) None alias [] [] None in
  do* expect LBRACE in
  do* skipNewlines in
  let* table := whileLoop fuel0 (continues RBRACE) tableBodyStep table in
  do* expect RBRACE in
  ret table.

(** One turn of the loop over the values of an enum. *)
Definition enumValueStep (values : list EnumValue.t) : P (list EnumValue.t) :=
  let* valName := expect IDENTIFIER in
  let* hasBracket := check LBRACKET in
  let* note :=
    (if hasBracket then
       do* advance in
       let* s := currentLower in
       let* note := (if String.eqb s "note" then
                       do* advance in
                       do* skipOptional COLON in
                       let* tok := expect STRING in
                       ret (Some (Token.value tok))
                     else ret None) in
       do* expect RBRACKET in
       ret note
     else ret None) in
  do* skipNewlines in
  ret (values ++ [EnumValue.mk (Token.value valName) note])%list.

Definition parseEnum : P DbEnum.t :=
  do* expect ENUM in
  let* name := expect IDENTIFIER in
  do* expect LBRACE in
  do* skipNewlines in
  let* values := whileLoop fuel0 (continues RBRACE) enumValueStep [] in
  do* expect RBRACE in
  ret (DbEnum.mk (Token.value name) values None).

Definition parseTableColumn : P Endpoint.t :=
  let* table := expect IDENTIFIER in
  do* expect DOT in
  let* column := expect IDENTIFIER in
  ret (Endpoint.mk (Token.value table) (Token.value column)).

Definition relationTypeOf (ty : TokenType) : RelationType :=
  match ty with
  | REL_ONE_TO_ONE => one_to_one
  | REL_ONE_TO_MANY => one_to_many
  | REL_MANY_TO_ONE => many_to_one
  | REL_MANY_TO_MANY => many_to_many
  | _ => one_to_many
  end.

Definition parseRelationType : P RelationType :=
  let* tok := current in
  do* advance in
  match tok with
  | Some tok => ret (relationTypeOf (Token.type tok))
  | None => throw TypeError
  end.

Definition parseRef : P Relation.t :=
  do* expect REF in
  let* isIdent := check IDENTIFIER in
  let* next := peekNext in
  let* refName := (if isIdent && hasType COLON next
              then let* tok := expect IDENTIFIER in ret (Some (Token.value tok))
              else ret None) in
  do* skipOptional COLON in
  let* from := parseTableColumn in
  let* relType := parseRelationType in
  let* to := parseTableColumn in
  ret (Relation.mk refName from to relType None).

Definition groupTableStep (tables : list string) : P (list string) :=
  let* tok := expect IDENTIFIER in
  do* skipNewlines in
  ret (tables ++ [Token.value tok])%list.

Definition parseTableGroup : P IRTableGroup.t :=
  do* expect TABLEGROUP in
  let* name := expect IDENTIFIER in
  do* expect LBRACE in
  do* skipNewlines in
  let* tables := whileLoop fuel0 (continues RBRACE) groupTableStep [] in
  do* expect RBRACE in
  ret (IRTableGroup.mk (Token.value name) tables).

Definition unexpected (tok : option Token.t) : Exn :=
  match tok with
  | Some tok =>
      ParserError
        ("Unexpected token " ++ tokenTypeName (Token.type tok)
           ++ " (" ++ JS.str JS.dquote ++ Token.value tok ++ JS.str JS.dquote ++ ")")
        (Token.line tok) (Token.column tok) (Some (Token.value tok))
  | None => TypeError
  end.

Definition pushTable (t : Table.t) (s : DatabaseSchema.t) : DatabaseSchema.t :=
  DatabaseSchema.mk (DatabaseSchema.name s) (DatabaseSchema.tables s ++ [t])
    (DatabaseSchema.relations s) (DatabaseSchema.enums s)
    (DatabaseSchema.tableGroups s) (DatabaseSchema.note s).
Definition pushEnum (e : DbEnum.t) (s : DatabaseSchema.t) : DatabaseSchema.t :=
  DatabaseSchema.mk (DatabaseSchema.name s) (DatabaseSchema.tables s)
    (DatabaseSchema.relations s) (DatabaseSchema.enums s ++ [e])
    (DatabaseSchema.tableGroups s) (DatabaseSchema.note s).
Definition pushRelation (r : Relation.t) (s : DatabaseSchema.t) : DatabaseSchema.t :=
  DatabaseSchema.mk (DatabaseSchema.name s) (DatabaseSchema.tables s)
    (DatabaseSchema.relations s ++ [r]) (DatabaseSchema.enums s)
    (DatabaseSchema.tableGroups s) (DatabaseSchema.note s).
Definition pushTableGroup (g : IRTableGroup.t) (s : DatabaseSchema.t)
  : DatabaseSchema.t :=
  DatabaseSchema.mk (DatabaseSchema.name s) (DatabaseSchema.tables s)
    (DatabaseSchema.relations s) (DatabaseSchema.enums s)
    (DatabaseSchema.tableGroups s ++ [g]) (DatabaseSchema.note s).

(** The loop of [parse]. *)
Fixpoint parseLoop (fuel : nat) (schema : DatabaseSchema.t) : P DatabaseSchema.t :=
  match fuel with
  | O => outOfFuel
  | S fuel =>
      let* atEnd := isAtEnd in
      if atEnd then ret schema else
      do* skipNewlines in
      let* atEnd := isAtEnd in
      if atEnd then ret schema else
      let* isTable := check TABLE in
      let* isEnum := check ENUM in
      let* isRef := check REF in
      let* isGroup := check TABLEGROUP in
      if isTable then let* t := parseTable in parseLoop fuel (pushTable t schema)
      else if isEnum then let* e := parseEnum in parseLoop fuel (pushEnum e schema)
      else if isRef then let* r := parseRef in parseLoop fuel (pushRelation r schema)
      else if isGroup then let* g := parseTableGroup in parseLoop fuel (pushTableGroup g schema)
      else let* tok := current in throw (unexpected tok)
  end.

End WithTokens.

Definition emptySchema : DatabaseSchema.t :=
  DatabaseSchema.mk None [] [] [] [] None.

Definition parse (input : string) : Res DatabaseSchema.t :=
  match Lexer.tokenize input with
  | None => OutOfFuel
  | Some tokens =>
      match parseLoop tokens (fuel0 tokens) emptySchema 0 with
      | Ok (schema, _) => Ok schema
      | Throw e => Throw e
      | OutOfFuel => OutOfFuel
      end
  end.

End Parser.

Definition parseDSL (input : string) : Res DatabaseSchema.t := Parser.parse input.

(** ** The grammar of the language *)

(** The grammar of the specification, on tokens:
    [schema := (table | enum | ref | tablegroup)*] and the productions it
    names.  The specification gives the settings of a column and the note
    of a table in prose; it gives no production for an [indexes] block,
    and none is taken here.  A [NEWLINE] token may stand before and after
    every statement, and before and after every line of a block between
    braces. *)
Module Grammar.
Local Open Scope list_scope.

(** A terminal of type [ty]. *)
Definition tok (ty : TokenType) (t : Token.t) : Prop := Token.type t = ty.

(** The identifier spelled [w]. *)
Definition word (w : string) (t : Token.t) : Prop :=
  Token.type t = IDENTIFIER ∧ Token.value t = w.

(** [relOp := "-" | "<" | ">" | "<>"] *)
Definition relOp (t : Token.t) : Prop :=
  Token.type t ∈ [REL_ONE_TO_ONE; REL_ONE_TO_MANY; REL_MANY_TO_ONE; REL_MANY_TO_MANY].

(** The value of a default: a string, a number, or a word ([null], [true],
    [false] or a bare word). *)
Definition literal (t : Token.t) : Prop :=
  Token.type t ∈ [STRING; NUMBER; IDENTIFIER].

(** The settings that are one word. *)
Definition flags : list string :=
  [ "pk"; "primary"; "primary_key"; "unique"; "notnull"; "not_null";
    "increment"; "auto_increment" ].

Inductive setting : list Token.t → Prop :=
  | setting_flag w t : w ∈ flags → word w t → setting [t]
  | setting_not_null t1 t2 : word "not" t1 → word "null" t2 → setting [t1; t2]
  | setting_default t v : word "default" t → literal v → setting [t; v]
  | setting_default_colon t c v :
      word "default" t → tok COLON c → literal v → setting [t; c; v]
  | setting_note t c s :
      tok NOTE t → Token.value t = "note" → tok COLON c → tok STRING s →
      setting [t; c; s].

(** [setting ("," setting)*] *)
Inductive settings : list Token.t → Prop :=
  | settings_one s : setting s → settings s
  | settings_more s c ss : setting s → tok COMMA c → settings ss → settings (s ++ c :: ss).

(** [("(" NUMBER ("," NUMBER)? ")")?] *)
Inductive sizes : list Token.t → Prop :=
  | sizes_none : sizes []
  | sizes_length l n r : tok LPAREN l → tok NUMBER n → tok RPAREN r → sizes [l; n; r]
  | sizes_precision l p c s r :
      tok LPAREN l → tok NUMBER p → tok COMMA c → tok NUMBER s → tok RPAREN r →
      sizes [l; p; c; s; r].

(** [("[" setting ("," setting)* "]")?] *)
Inductive bracket : list Token.t → Prop :=
  | bracket_none : bracket []
  | bracket_some l ss r : tok LBRACKET l → settings ss → tok RBRACKET r →
                          bracket (l :: ss ++ [r]).

(** [column := IDENT IDENT ("(" NUMBER ("," NUMBER)? ")")?
               ("[" setting ("," setting)* "]")?] *)
Inductive column : list Token.t → Prop :=
  | column_intro name ty sz br :
      tok IDENTIFIER name → tok IDENTIFIER ty → sizes sz → bracket br →
      column (name :: ty :: sz ++ br).

(** The note of a table: [Note: "..."] *)
Inductive note : list Token.t → Prop :=
  | note_intro n c s : tok NOTE n → tok COLON c → tok STRING s → note [n; c; s].

Inductive tableLine : list Token.t → Prop :=
  | tableLine_column ts : column ts → tableLine ts
  | tableLine_note ts : note ts → tableLine ts.

(** What stands between the braces of a block: lines and [NEWLINE]
    tokens, in any order. *)
Inductive block (line : list Token.t → Prop) : list Token.t → Prop :=
  | block_nil : block line []
  | block_newline t ts : tok NEWLINE t → block line ts → block line (t :: ts)
  | block_line l ts : line l → block line ts → block line (l ++ ts).

(** [table := "Table" IDENT ("as" IDENT)? "{" (column | note)* "}"] *)
Inductive table : list Token.t → Prop :=
  | table_intro kw name lb body rb :
      tok TABLE kw → tok IDENTIFIER name → tok LBRACE lb →
      block tableLine body → tok RBRACE rb →
      table (kw :: name :: lb :: body ++ [rb])
  | table_as kw name a alias lb body rb :
      tok TABLE kw → tok IDENTIFIER name → tok AS a → tok IDENTIFIER alias →
      tok LBRACE lb → block tableLine body → tok RBRACE rb →
      table (kw :: name :: a :: alias :: lb :: body ++ [rb]).

(** [IDENT ("[" "note" ":" STRING "]")?] *)
Inductive enumValue : list Token.t → Prop :=
  | enumValue_plain v : tok IDENTIFIER v → enumValue [v]
  | enumValue_note v l n c s r :
      tok IDENTIFIER v → tok LBRACKET l → tok NOTE n → Token.value n = "note" →
      tok COLON c → tok STRING s → tok RBRACKET r →
      enumValue [v; l; n; c; s; r].

(** [enum := "Enum" IDENT "{" (IDENT ("[" "note" ":" STRING "]")?)* "}"] *)
Inductive enum : list Token.t → Prop :=
  | enum_intro kw name lb body rb :
      tok ENUM kw → tok IDENTIFIER name → tok LBRACE lb →
      block enumValue body → tok RBRACE rb →
      enum (kw :: name :: lb :: body ++ [rb]).

Inductive member : list Token.t → Prop :=
  | member_intro t : tok IDENTIFIER t → member [t].

(** [tablegroup := "TableGroup" IDENT "{" IDENT* "}"] *)
Inductive tablegroup : list Token.t → Prop :=
  | tablegroup_intro kw name lb body rb :
      tok TABLEGROUP kw → tok IDENTIFIER name → tok LBRACE lb →
      block member body → tok RBRACE rb →
      tablegroup (kw :: name :: lb :: body ++ [rb]).

(** [ref := "Ref" (IDENT)? ":" IDENT "." IDENT relOp IDENT "." IDENT] *)
Inductive ref : list Token.t → Prop :=
  | ref_intro kw c t1 d1 c1 op t2 d2 c2 :
      tok REF kw → tok COLON c →
      tok IDENTIFIER t1 → tok DOT d1 → tok IDENTIFIER c1 → relOp op →
      tok IDENTIFIER t2 → tok DOT d2 → tok IDENTIFIER c2 →
      ref [kw; c; t1; d1; c1; op; t2; d2; c2]
  | ref_named kw name c t1 d1 c1 op t2 d2 c2 :
      tok REF kw → tok IDENTIFIER name → tok COLON c →
      tok IDENTIFIER t1 → tok DOT d1 → tok IDENTIFIER c1 → relOp op →
      tok IDENTIFIER t2 → tok DOT d2 → tok IDENTIFIER c2 →
      ref [kw; name; c; t1; d1; c1; op; t2; d2; c2].

Inductive kind : Type := Table | Enum | Ref | TableGroup.

#[global] Instance kind_eq_dec : EqDecision kind.
Proof. solve_decision. Defined.

Inductive statement : kind → list Token.t → Prop :=
  | statement_table ts : table ts → statement Table ts
  | statement_enum ts : enum ts → statement Enum ts
  | statement_ref ts : ref ts → statement Ref ts
  | statement_tablegroup ts : tablegroup ts → statement TableGroup ts.

(** [schema := (table | enum | ref | tablegroup)*]: the tokens of a
    program, and the kinds of its statements in order. *)
Inductive schema : list Token.t → list kind → Prop :=
  | schema_nil : schema [] []
  | schema_newline t ts ks : tok NEWLINE t → schema ts ks → schema (t :: ts) ks
  | schema_statement k s ts ks :
      statement k s → schema ts ks → schema (s ++ ts) (k :: ks).


End Grammar.

(** ** Validator (ir/validator.ts) *)

(** The text [s] between double quotes, as in [`"${s}"`]. *)
Definition quoted (s : string) : string :=
  JS.str JS.dquote ++ s ++ JS.str JS.dquote.

Inductive Severity : Type := error | warning.

#[global] Instance Severity_eq_dec : EqDecision Severity.
Proof. solve_decision. Defined.

Module Location.
Record t : Type := mk {
  table : option string;
  column : option string;
  relation : option string
}.

#[global] Instance eq_dec : EqDecision t.
Proof. solve_decision. Defined.
End Location.

Module ValidationError.
Record t : Type := mk {
  type : Severity;
  message : string;
  location : option Location.t
}.

#[global] Instance eq_dec : EqDecision t.
Proof. solve_decision. Defined.
End ValidationError.

Module ValidationResult.
Record t : Type := mk { valid : bool; errors : list ValidationError.t }.
End ValidationResult.

Module Validator.

(** [errors.push(e)] *)
Definition push (errs : list ValidationError.t) (e : ValidationError.t)
  : list ValidationError.t := (errs ++ [e])%list.

(** JavaScript truthiness of an optional flag and of an optional string. *)
Definition truthy (b : option bool) : bool := default false b.
Definition nonEmpty (s : option string) : option string :=
  match s with
  | Some EmptyString => None
  | other => other
  end.

(** The state of the loop over a table's columns. *)
Record colState : Type := mkCol {
  colNames : gset string;
  hasPrimaryKey : bool;
  colErrors : list ValidationError.t
}.

Definition checkColumn (enumNames : gset string) (table : Table.t)
    (st : colState) (col : Column.t) : colState :=
  let errs1 :=
    if bool_decide (Column.name col ∈ colNames st) then
      push (colErrors st)
          (ValidationError.mk error
            ("Duplicate column " ++ quoted (Column.name col) ++ " in table "
               ++ quoted (Table.name table))
            (Some (Location.mk (Some (Table.name table)) (Some (Column.name col)) None)))
    else colErrors st in
  let pk := if truthy (ColumnSettings.primaryKey (Column.settings col))
            then true else hasPrimaryKey st in
  let errs2 :=
    if bool_decide (Column.type col = ct_enum)
       && bool_decide (ColumnSettings.enumValues (Column.settings col) = None)
    then
      match nonEmpty (Column.rawType col) with
      | Some enumRef =>
          if bool_decide (enumRef ∈ enumNames) then errs1
          else push (errs1)
          (ValidationError.mk warning
                ("Column " ++ quoted (Column.name col) ++ " references unknown enum "
                   ++ quoted enumRef)
                (Some (Location.mk (Some (Table.name table))
                         (Some (Column.name col)) None)))
      | None => errs1
      end
    else errs1 in
  mkCol ({[ Column.name col ]} ∪ colNames st) pk errs2.

(** The state of [validateSchema]: the three collections it fills. *)
Record state : Type := mkState {
  tableNames : gset string;
  tableColumnMap : gmap string (gset string);
  errors : list ValidationError.t
}.

Definition checkTable (enumNames : gset string) (st : state) (table : Table.t)
    : state :=
  let errs1 :=
    if bool_decide (Table.name table ∈ tableNames st) then
      push (errors st)
          (ValidationError.mk error
            ("Duplicate table name: " ++ quoted (Table.name table))
            (Some (Location.mk (Some (Table.name table)) None None)))
    else errors st in
  let cs := fold_left (checkColumn enumNames table) (Table.columns table)
              (mkCol ∅ false errs1) in
  let errs2 :=
    if hasPrimaryKey cs then colErrors cs
    else push (colErrors cs)
          (ValidationError.mk warning
          ("Table " ++ quoted (Table.name table) ++ " has no primary key")
          (Some (Location.mk (Some (Table.name table)) None None))) in
  mkState ({[ Table.name table ]} ∪ tableNames st)
    (<[ Table.name table := colNames cs ]> (tableColumnMap st))
    errs2.

Definition dotted (e : Endpoint.t) : string :=
  Endpoint.table e ++ "." ++ Endpoint.column e.

(** The check of one end of a relation; [rel.name ?? `${table}.${column}`]
    names the relation in the location. *)
Definition checkEndpoint (names : gset string) (cols : gmap string (gset string))
    (rel : Relation.t) (e : Endpoint.t) (errs : list ValidationError.t)
    : list ValidationError.t :=
  let loc := Some (Location.mk None None
                     (Some (default (dotted e) (Relation.name rel)))) in
  if bool_decide (Endpoint.table e ∈ names) then
    match cols !! Endpoint.table e with
    | Some cs =>
        if bool_decide (Endpoint.column e ∈ cs) then errs
        else push (errs)
          (ValidationError.mk error
              ("Relation references non-existent column " ++ quoted (dotted e)) loc)
    | None => errs
    end
  else push (errs)
          (ValidationError.mk error
        ("Relation references non-existent table " ++ quoted (Endpoint.table e)) loc).

Definition checkRelation (names : gset string) (cols : gmap string (gset string))
    (errs : list ValidationError.t) (rel : Relation.t) : list ValidationError.t :=
  checkEndpoint names cols rel (Relation.to rel)
    (checkEndpoint names cols rel (Relation.from rel) errs).

Definition checkGroup (names : gset string) (errs : list ValidationError.t)
    (group : IRTableGroup.t) : list ValidationError.t :=
  fold_left
    (λ errs tName,
       if bool_decide (tName ∈ names) then errs
       else push errs
         (ValidationError.mk warning
            ("TableGroup " ++ quoted (IRTableGroup.name group)
               ++ " references unknown table " ++ quoted tName)
            None))
    (IRTableGroup.tables group) errs.

Definition isError (e : ValidationError.t) : bool :=
  bool_decide (ValidationError.type e = error).

Definition validateSchema (schema : DatabaseSchema.t) : ValidationResult.t :=
  let enumNames : gset string :=
    list_to_set (map DbEnum.name (DatabaseSchema.enums schema)) in
  let st := fold_left (checkTable enumNames) (DatabaseSchema.tables schema)
              (mkState ∅ ∅ []) in
  let errs := fold_left (checkRelation (tableNames st) (tableColumnMap st))
                (DatabaseSchema.relations schema) (errors st) in
  let errs := fold_left (checkGroup (tableNames st))
                (DatabaseSchema.tableGroups schema) errs in
  ValidationResult.mk (Nat.eqb (List.length (filter (λ e, isError e = true) errs)) 0) errs.

End Validator.

Definition validateSchema := Validator.validateSchema.

(** ** Graph model (graph/types.ts) *)

(** The records below keep the fields that the builder, the bounds and the
    layout read or write, and the plain text and flag fields they carry
    along.  Left out are [anchor] and [curvature] of edges, [zIndex],
    [attachedToNode], [selected] and [pinned] of sticky notes, and the
    [metadata] of a graph: no function of the core reads or writes them. *)

(** The numbers of a bounding box.  The loops that compute one start their
    accumulators at [Infinity] and [-Infinity], so a bound ranges over the
    integers extended with the two infinities and [NaN]; node positions
    and sizes are integers. *)
Inductive num : Type := NaN | NegInf | Fin (z : Z) | PosInf.

#[global] Instance num_eq_dec : EqDecision num.
Proof. solve_decision. Defined.

Module Num.
(** [Math.min] and [Math.max] *)
Definition min (a b : num) : num :=
  match a, b with
  | NaN, _ | _, NaN => NaN
  | NegInf, _ | _, NegInf => NegInf
  | PosInf, c | c, PosInf => c
  | Fin x, Fin y => Fin (Z.min x y)
  end.

Definition max (a b : num) : num :=
  match a, b with
  | NaN, _ | _, NaN => NaN
  | PosInf, _ | _, PosInf => PosInf
  | NegInf, c | c, NegInf => c
  | Fin x, Fin y => Fin (Z.max x y)
  end.

Definition add (a b : num) : num :=
  match a, b with
  | NaN, _ | _, NaN => NaN
  | PosInf, NegInf | NegInf, PosInf => NaN
  | PosInf, _ | _, PosInf => PosInf
  | NegInf, _ | _, NegInf => NegInf
  | Fin x, Fin y => Fin (x + y)
  end.

Definition neg (a : num) : num :=
  match a with
  | NaN => NaN
  | NegInf => PosInf
  | PosInf => NegInf
  | Fin x => Fin (- x)
  end.

Definition sub (a b : num) : num := add a (neg b).
End Num.

Module Point.
Record t : Type := mk { x : Z; y : Z }.

#[global] Instance eq_dec : EqDecision t.
Proof. solve_decision. Defined.
End Point.

Module Size.
Record t : Type := mk { width : Z; height : Z }.

#[global] Instance eq_dec : EqDecision t.
Proof. solve_decision. Defined.
End Size.

Module Bounds.
Record t : Type := mk { x : num; y : num; width : num; height : num }.

#[global] Instance eq_dec : EqDecision t.
Proof. solve_decision. Defined.
End Bounds.

Module ColumnNode.
Record t : Type := mk {
  id : string;
  name : string;
  type : string;
  isPrimaryKey : bool;
  isForeignKey : bool;
  isUnique : bool;
  isNullable : bool;
  offsetY : Z
}.

#[global] Instance eq_dec : EqDecision t.
Proof. solve_decision. Defined.
End ColumnNode.

Module TableNode.
Record t : Type := mk {
  id : string;
  name : string;
  schema : option string;
  position : Point.t;
  size : Size.t;
  columns : list ColumnNode.t;
  group : option string;
  color : option string;
  note : option string;
  selected : option bool;
  collapsed : option bool
}.

#[global] Instance eq_dec : EqDecision t.
Proof. solve_decision. Defined.
End TableNode.

Module EdgeEndpoint.
Record t : Type := mk { nodeId : string; columnId : string; anchor : option Point.t }.

#[global] Instance eq_dec : EqDecision t.
Proof. solve_decision. Defined.
End EdgeEndpoint.

Module Edge.
Record t : Type := mk {
  id : string;
  from : EdgeEndpoint.t;
  to : EdgeEndpoint.t;
  type : RelationType;
  label : option string;
  points : option (list Point.t);
  selected : option bool
}.

#[global] Instance eq_dec : EqDecision t.
Proof. solve_decision. Defined.
End Edge.

Module TableGroup.
Record t : Type := mk {
  id : string;
  name : string;
  color : option string;
  collapsed : option bool;
  selected : option bool;
  nodeIds : list string;
  bounds : option Bounds.t
}.

#[global] Instance eq_dec : EqDecision t.
Proof. solve_decision. Defined.
End TableGroup.

Module StickyNote.
Record t : Type := mk {
  id : string;
  text : string;
  position : Point.t;
  size : Size.t;
  color : option string
}.

#[global] Instance eq_dec : EqDecision t.
Proof. solve_decision. Defined.
End StickyNote.

Module Graph.
Record t : Type := mk {
  nodes : list TableNode.t;
  edges : list Edge.t;
  groups : list TableGroup.t;
  notes : list StickyNote.t;
  bounds : option Bounds.t
}.

#[global] Instance eq_dec : EqDecision t.
Proof. solve_decision. Defined.
End Graph.

Module NODE_DEFAULTS.
Definition headerHeight : Z := 32.
Definition columnHeight : Z := 24.
Definition minWidth : Z := 180.
Definition padding : Z := 8.
Definition charWidth : Z := 8.
End NODE_DEFAULTS.

(** ** Graph builder (graph/builder.ts) *)

Module Builder.

Local Open Scope Z_scope.

Definition strlen (s : string) : Z := Z.of_nat (String.length s).

(** [`${table}.${column}`] *)
Definition colKeyOf (table column : string) : string := table ++ "." ++ column.

(** The set [fkColumns]: one key per relation, for its [from] end. *)
Definition fkColumnsOf (relations : list Relation.t) : gset string :=
  fold_left
    (λ (fk : gset string) rel,
       {[ colKeyOf (Endpoint.table (Relation.from rel))
                   (Endpoint.column (Relation.from rel)) ]} ∪ fk)
    relations ∅.

Definition buildColumnNode (tableName : string) (col : Column.t)
    (fkColumns : gset string) (offsetY : Z) : ColumnNode.t :=
  let colKey := colKeyOf tableName (Column.name col) in
  {| ColumnNode.id := colKey;
     ColumnNode.name := Column.name col;
     ColumnNode.type := default (columnTypeName (Column.type col)) (Column.rawType col);
     ColumnNode.isPrimaryKey := default false (ColumnSettings.primaryKey (Column.settings col));
     ColumnNode.isForeignKey := bool_decide (colKey ∈ fkColumns);
     ColumnNode.isUnique := default false (ColumnSettings.unique (Column.settings col));
     ColumnNode.isNullable := negb (default false (ColumnSettings.notNull (Column.settings col)));
     ColumnNode.offsetY := offsetY |}.

(** The loop of [buildTableNode] over the table's columns. *)
Fixpoint buildColumnNodes (tableName : string) (fkColumns : gset string)
    (offsetY : Z) (cols : list Column.t) : list ColumnNode.t :=
  match cols with
  | [] => []
  | col :: rest =>
      buildColumnNode tableName col fkColumns offsetY
        :: buildColumnNodes tableName fkColumns
             (offsetY + NODE_DEFAULTS.columnHeight) rest
  end.

Definition computeNodeSize (table : Table.t) (columns : list ColumnNode.t) : Size.t :=
  let maxTextLen :=
    fold_left
      (λ maxTextLen col,
         let textLen := strlen (ColumnNode.name col) + strlen (ColumnNode.type col) + 3 in
         if (textLen >? maxTextLen)%Z then textLen else maxTextLen)
      columns (strlen (Table.name table)) in
  let width :=
    Z.max NODE_DEFAULTS.minWidth
      (maxTextLen * NODE_DEFAULTS.charWidth + NODE_DEFAULTS.padding * 2) in
  let height :=
    (NODE_DEFAULTS.headerHeight
     + Z.of_nat (List.length columns) * NODE_DEFAULTS.columnHeight
     + NODE_DEFAULTS.padding)%Z in
  Size.mk width height.

Definition buildTableNode (table : Table.t) (fkColumns : gset string) : TableNode.t :=
  let columns :=
    buildColumnNodes (Table.name table) fkColumns NODE_DEFAULTS.headerHeight
      (Table.columns table) in
  {| TableNode.id := Table.name table;
     TableNode.name := Table.name table;
     TableNode.schema := Table.schema table;
     TableNode.position := Point.mk 0 0;
     TableNode.size := computeNodeSize table columns;
     TableNode.columns := columns;
     TableNode.group := None;
     TableNode.color := None;
     TableNode.note := Table.note table;
     TableNode.selected := Some false;
     TableNode.collapsed := Some false |}.

Definition buildEdge (rel : Relation.t) : Edge.t :=
  let from := Relation.from rel in
  let to := Relation.to rel in
  let id :=
    default
      (Endpoint.table from ++ "." ++ Endpoint.column from ++ "->"
         ++ Endpoint.table to ++ "." ++ Endpoint.column to)
      (Relation.name rel) in
  {| Edge.id := id;
     Edge.from := EdgeEndpoint.mk (Endpoint.table from)
                    (colKeyOf (Endpoint.table from) (Endpoint.column from)) None;
     Edge.to := EdgeEndpoint.mk (Endpoint.table to)
                  (colKeyOf (Endpoint.table to) (Endpoint.column to)) None;
     Edge.type := Relation.type rel;
     Edge.label := None;
     Edge.points := None;
     Edge.selected := Some false |}.

Definition withGroup (g : string) (n : TableNode.t) : TableNode.t :=
  TableNode.mk (TableNode.id n) (TableNode.name n) (TableNode.schema n)
    (TableNode.position n) (TableNode.size n) (TableNode.columns n)
    (Some g) (TableNode.color n) (TableNode.note n) (TableNode.selected n)
    (TableNode.collapsed n).

(** [const node = nodes.find((n) => n.name === tableName);
     if (node) node.group = group]: the first node of that name is
    updated in place. *)
Fixpoint assignGroup (group tableName : string) (nodes : list TableNode.t)
    : list TableNode.t :=
  match nodes with
  | [] => []
  | n :: rest =>
      if String.eqb (TableNode.name n) tableName
      then withGroup group n :: rest
      else n :: assignGroup group tableName rest
  end.

Definition buildGroup (st : list TableNode.t * list TableGroup.t)
    (tg : IRTableGroup.t) : list TableNode.t * list TableGroup.t :=
  let '(nodes, groups) := st in
  let group :=
    {| TableGroup.id := IRTableGroup.name tg;
       TableGroup.name := IRTableGroup.name tg;
       TableGroup.color := None;
       TableGroup.collapsed := Some false;
       TableGroup.selected := Some false;
       TableGroup.nodeIds := IRTableGroup.tables tg;
       TableGroup.bounds := None |} in
  (fold_left (λ nodes tableName, assignGroup (IRTableGroup.name tg) tableName nodes)
     (IRTableGroup.tables tg) nodes,
   (groups ++ [group])%list).

Definition buildGraph (schema : DatabaseSchema.t) : Graph.t :=
  let fkColumns := fkColumnsOf (DatabaseSchema.relations schema) in
  let nodes := map (λ table, buildTableNode table fkColumns)
                 (DatabaseSchema.tables schema) in
  let edges := map buildEdge (DatabaseSchema.relations schema) in
  let '(nodes, groups) :=
    fold_left buildGroup (DatabaseSchema.tableGroups schema) (nodes, []) in
  {| Graph.nodes := nodes; Graph.edges := edges; Graph.groups := groups;
     Graph.notes := []; Graph.bounds := None |}.

(** The four accumulators of a bounding-box loop. *)
Record box : Type := mkBox { minX : num; minY : num; maxX : num; maxY : num }.

Definition emptyBox : box := mkBox PosInf PosInf NegInf NegInf.

Definition includeNode (b : box) (node : TableNode.t) : box :=
  let px := Point.x (TableNode.position node) in
  let py := Point.y (TableNode.position node) in
  mkBox (Num.min (minX b) (Fin px))
        (Num.min (minY b) (Fin py))
        (Num.max (maxX b) (Fin (px + Size.width (TableNode.size node))))
        (Num.max (maxY b) (Fin (py + Size.height (TableNode.size node)))).

Definition withBounds (b : option Bounds.t) (g : TableGroup.t) : TableGroup.t :=
  TableGroup.mk (TableGroup.id g) (TableGroup.name g) (TableGroup.color g)
    (TableGroup.collapsed g) (TableGroup.selected g) (TableGroup.nodeIds g) b.

Definition groupBounds (nodes : list TableNode.t) (groupPadding : Z)
    (group : TableGroup.t) : TableGroup.t :=
  let groupNodes :=
    filter (λ n, TableNode.id n ∈ TableGroup.nodeIds group) nodes in
  if Nat.eqb (List.length groupNodes) 0 then withBounds None group
  else
    let b := fold_left includeNode groupNodes emptyBox in
    let headerHeight := 28%Z in
    let pad := Fin groupPadding in
    withBounds
      (Some
         {| Bounds.x := Num.sub (minX b) pad;
            Bounds.y := Num.sub (Num.sub (minY b) pad) (Fin headerHeight);
            Bounds.width :=
              Num.add (Num.sub (maxX b) (minX b)) (Fin (groupPadding * 2));
            Bounds.height :=
              Num.add (Num.add (Num.sub (maxY b) (minY b)) (Fin (groupPadding * 2)))
                (Fin headerHeight) |})
      group.

Definition computeGroupBounds (graph : Graph.t) (groupPadding : Z)
    : list TableGroup.t :=
  map (groupBounds (Graph.nodes graph) groupPadding) (Graph.groups graph).

Definition includeGroup (b : box) (group : TableGroup.t) : box :=
  match TableGroup.bounds group with
  | Some gb =>
      mkBox (Num.min (minX b) (Bounds.x gb))
            (Num.min (minY b) (Bounds.y gb))
            (Num.max (maxX b) (Num.add (Bounds.x gb) (Bounds.width gb)))
            (Num.max (maxY b) (Num.add (Bounds.y gb) (Bounds.height gb)))
  | None => b
  end.

Definition computeGraphBounds (graph : Graph.t) (padding : Z) : Graph.t :=
  let updatedGroups := computeGroupBounds graph 20 in
  if Nat.eqb (List.length (Graph.nodes graph)) 0 then
    {| Graph.nodes := Graph.nodes graph; Graph.edges := Graph.edges graph;
       Graph.groups := updatedGroups; Graph.notes := Graph.notes graph;
       Graph.bounds := Some (Bounds.mk (Fin 0) (Fin 0) (Fin 0) (Fin 0)) |}
  else
    let b := fold_left includeNode (Graph.nodes graph) emptyBox in
    let b := fold_left includeGroup updatedGroups b in
    let pad := Fin padding in
    {| Graph.nodes := Graph.nodes graph; Graph.edges := Graph.edges graph;
       Graph.groups := updatedGroups; Graph.notes := Graph.notes graph;
       Graph.bounds :=
         Some {| Bounds.x := Num.sub (minX b) pad;
                 Bounds.y := Num.sub (minY b) pad;
                 Bounds.width :=
                   Num.add (Num.sub (maxX b) (minX b)) (Fin (padding * 2));
                 Bounds.height :=
                   Num.add (Num.sub (maxY b) (minY b)) (Fin (padding * 2)) |} |}.

End Builder.

Definition buildGraph := Builder.buildGraph.
Definition computeGraphBounds := Builder.computeGraphBounds.

(** [graph.nodes.find((n) => n.id === nodeId)] *)
Definition findNode (graph : Graph.t) (nodeId : string) : option TableNode.t :=
  List.find (λ n, String.eqb (TableNode.id n) nodeId) (Graph.nodes graph).

(** [graph.edges.find((e) => e.id === edgeId)] *)
Definition findEdge (graph : Graph.t) (edgeId : string) : option Edge.t :=
  List.find (λ e, String.eqb (Edge.id e) edgeId) (Graph.edges graph).

(** ** Grid layout (graph/layout.ts) *)

Inductive LayoutDirection : Type := TB | BT | LR | RL.

Module LayoutOptions.
Record t : Type := mk {
  direction : option LayoutDirection;
  nodeSpacingX : option Z;
  nodeSpacingY : option Z;
  padding : option Z;
  algorithm : option string
}.
End LayoutOptions.

(** [Required<LayoutOptions>] *)
Module Options.
Record t : Type := mk {
  direction : LayoutDirection;
  nodeSpacingX : Z;
  nodeSpacingY : Z;
  padding : Z;
  algorithm : string
}.
End Options.

Module Layout.

Local Open Scope Z_scope.

Definition DEFAULT_OPTIONS : Options.t :=
  {| Options.direction := TB;
     Options.nodeSpacingX := 60;
     Options.nodeSpacingY := 40;
     Options.padding := 40;
     Options.algorithm := "dagre" |}.

(** [{ ...DEFAULT_OPTIONS, ...options }]: a property that [options] gives
    replaces the default. *)
Definition mergeOptions (options : option LayoutOptions.t) : Options.t :=
  match options with
  | None => DEFAULT_OPTIONS
  | Some o =>
      {| Options.direction :=
           default (Options.direction DEFAULT_OPTIONS) (LayoutOptions.direction o);
         Options.nodeSpacingX :=
           default (Options.nodeSpacingX DEFAULT_OPTIONS) (LayoutOptions.nodeSpacingX o);
         Options.nodeSpacingY :=
           default (Options.nodeSpacingY DEFAULT_OPTIONS) (LayoutOptions.nodeSpacingY o);
         Options.padding :=
           default (Options.padding DEFAULT_OPTIONS) (LayoutOptions.padding o);
         Options.algorithm :=
           default (Options.algorithm DEFAULT_OPTIONS) (LayoutOptions.algorithm o) |}
  end.

(** [Math.ceil(Math.sqrt(n))] for an array length [n]. *)
Definition ceilSqrt (n : nat) : nat :=
  if Nat.eqb (Nat.sqrt n * Nat.sqrt n) n then Nat.sqrt n else S (Nat.sqrt n).

(** The variables the callback of [map] closes over. *)
Record cursor : Type := mkCursor { x : Z; y : Z; rowHeight : Z; col : nat }.

Definition withPosition (p : Point.t) (n : TableNode.t) : TableNode.t :=
  TableNode.mk (TableNode.id n) (TableNode.name n) (TableNode.schema n)
    p (TableNode.size n) (TableNode.columns n)
    (TableNode.group n) (TableNode.color n) (TableNode.note n) (TableNode.selected n)
    (TableNode.collapsed n).

(** One call of the callback: the placed node and the variables after. *)
Definition place (columns : nat) (opts : Options.t) (c : cursor) (node : TableNode.t)
    : TableNode.t * cursor :=
  let newNode := withPosition (Point.mk (x c) (y c)) node in
  let rowHeight := Z.max (rowHeight c) (Size.height (TableNode.size node)) in
  let col := S (col c) in
  if (columns <=? col)%nat then
    (newNode,
     mkCursor (Options.padding opts)
              (JS.add (y c) (JS.add rowHeight (Options.nodeSpacingY opts))) 0 0)
  else
    (newNode,
     mkCursor (JS.add (x c)
                 (JS.add (Size.width (TableNode.size node)) (Options.nodeSpacingX opts)))
              (y c) rowHeight col).

Fixpoint placeAll (columns : nat) (opts : Options.t) (c : cursor)
    (nodes : list TableNode.t) : list TableNode.t :=
  match nodes with
  | [] => []
  | node :: rest =>
      let '(newNode, c') := place columns opts c node in
      newNode :: placeAll columns opts c' rest
  end.

Definition gridLayout (graph : Graph.t) (options : option LayoutOptions.t) : Graph.t :=
  let opts := mergeOptions options in
  let columns := ceilSqrt (List.length (Graph.nodes graph)) in
  let updatedNodes :=
    placeAll columns opts
      (mkCursor (Options.padding opts) (Options.padding opts) 0 0)
      (Graph.nodes graph) in
  let result :=
    {| Graph.nodes := updatedNodes; Graph.edges := Graph.edges graph;
       Graph.groups := Graph.groups graph; Graph.notes := Graph.notes graph;
       Graph.bounds := Graph.bounds graph |} in
  Builder.computeGraphBounds result (Options.padding opts).

(** The overlap test of the layout tests, on two nodes of a result; its
    sums are sums of doubles as well. *)
Definition overlaps (a b : TableNode.t) : bool :=
  let ax := Point.x (TableNode.position a) in
  let ay := Point.y (TableNode.position a) in
  let bx := Point.x (TableNode.position b) in
  let b_y := Point.y (TableNode.position b) in
  let overlapsX :=
    (ax <? JS.add bx (Size.width (TableNode.size b)))%Z
    && (JS.add ax (Size.width (TableNode.size a)) >? bx)%Z in
  let overlapsY :=
    (ay <? JS.add b_y (Size.height (TableNode.size b)))%Z
    && (JS.add ay (Size.height (TableNode.size a)) >? b_y)%Z in
  overlapsX && overlapsY.

End Layout.

(** ** Schema diff (utils/schemaDiff.ts) *)

(** A JavaScript [Map] with string keys: the entries in insertion order;
    setting a key that is present replaces its value in place. *)
Module JSMap.
Section WithValue.
Context {V : Type}.

Fixpoint set (k : string) (v : V) (m : list (string * V)) : list (string * V) :=
  match m with
  | [] => [(k, v)]
  | (k', v') :: m' =>
      if String.eqb k k' then (k, v) :: m' else (k', v') :: set k v m'
  end.

(** [new Map(entries)] *)
Definition ofEntries (entries : list (string * V)) : list (string * V) :=
  fold_left (λ m kv, set (fst kv) (snd kv) m) entries [].

Fixpoint get (k : string) (m : list (string * V)) : option V :=
  match m with
  | [] => None
  | (k', v) :: m' => if String.eqb k k' then Some v else get k m'
  end.

Definition keys (m : list (string * V)) : list string := map fst m.
End WithValue.
End JSMap.

(** A JavaScript [Set] of strings: the members in insertion order. *)
Module JSSet.
Definition add (k : string) (s : list string) : list string :=
  if bool_decide (k ∈ s) then s else (s ++ [k])%list.

(** [new Set(items)] *)
Definition ofItems (items : list string) : list string :=
  fold_left (λ s k, add k s) items [].
End JSSet.

Inductive Action : Type := added | removed | modified | unchanged.

#[global] Instance Action_eq_dec : EqDecision Action.
Proof. solve_decision. Defined.

Module ColumnDiff.
Record t : Type := mk {
  name : string;
  action : Action;
  oldType : option string;
  newType : option string;
  changes : option (list string)
}.
End ColumnDiff.

Module TableDiff.
Record t : Type := mk {
  name : string;
  action : Action;
  columnDiffs : list ColumnDiff.t;
  changes : option (list string)
}.
End TableDiff.

Module RelationDiff.
Record t : Type := mk { id : string; action : Action; description : string }.
End RelationDiff.

Module SchemaDiff.
Record t : Type := mk {
  tables : list TableDiff.t;
  relations : list RelationDiff.t;
  hasChanges : bool
}.
End SchemaDiff.

Module Diff.

(** [c.rawType ?? c.type] *)
Definition displayType (c : Column.t) : string :=
  default (columnTypeName (Column.type c)) (Column.rawType c).

Definition truthy (b : option bool) : bool := default false b.

Definition pk (c : Column.t) : option bool :=
  ColumnSettings.primaryKey (Column.settings c).
Definition nn (c : Column.t) : option bool :=
  ColumnSettings.notNull (Column.settings c).

Definition typeChanged (oldType newType : string) : string :=
  "Type changed from " ++ oldType ++ " to " ++ newType.

(** The list [changes] of a column that is in both tables. *)
Definition columnChanges (oldCol newCol : Column.t) : list string :=
  let oldType := displayType oldCol in
  let newType := displayType newCol in
  ((if bool_decide (oldType ≠ newType)
    then [typeChanged oldType newType] else [])
   ++ (if bool_decide (pk oldCol ≠ pk newCol)
       then [if truthy (pk newCol) then "Set as Primary Key" else "Removed Primary Key"]
       else [])
   ++ (if bool_decide (nn oldCol ≠ nn newCol)
       then [if truthy (nn newCol) then "Set as Not Null" else "Set as Nullable"]
       else []))%list.

(** One turn of the loop over [allColNames]; the state is [columnDiffs]
    and [tableModified]. *)
Definition diffColumn (oldCols newCols : list (string * Column.t))
    (st : list ColumnDiff.t * bool) (colName : string) : list ColumnDiff.t * bool :=
  let '(columnDiffs, tableModified) := st in
  match JSMap.get colName oldCols, JSMap.get colName newCols with
  | None, Some newCol =>
      ((columnDiffs ++
          [ColumnDiff.mk colName added None (Some (displayType newCol)) None])%list,
       true)
  | Some oldCol, None =>
      ((columnDiffs ++
          [ColumnDiff.mk colName removed (Some (displayType oldCol)) None None])%list,
       true)
  | Some oldCol, Some newCol =>
      let changes := columnChanges oldCol newCol in
      if (0 <? List.length changes)%nat then
        ((columnDiffs ++
            [ColumnDiff.mk colName modified (Some (displayType oldCol))
               (Some (displayType newCol)) (Some changes)])%list,
         true)
      else
        ((columnDiffs ++ [ColumnDiff.mk colName unchanged None None None])%list,
         tableModified)
  | None, None => st
  end.

Definition columnMap (t : Table.t) : list (string * Column.t) :=
  JSMap.ofEntries (map (λ c, (Column.name c, c)) (Table.columns t)).

Definition allColNames (oldTable newTable : Table.t) : list string :=
  JSSet.ofItems (JSMap.keys (columnMap oldTable) ++ JSMap.keys (columnMap newTable)).

(** The entry for a table that is in both schemas. *)
Definition diffBoth (tableName : string) (oldTable newTable : Table.t) : TableDiff.t :=
  let '(columnDiffs, tableModified) :=
    fold_left (diffColumn (columnMap oldTable) (columnMap newTable))
      (allColNames oldTable newTable) ([], false) in
  TableDiff.mk tableName (if tableModified then modified else unchanged)
    columnDiffs None.

(** One turn of the loop over [allTableNames]. *)
Definition diffTable (oldTables newTables : list (string * Table.t))
    (tableDiffs : list TableDiff.t) (tableName : string) : list TableDiff.t :=
  match JSMap.get tableName oldTables, JSMap.get tableName newTables with
  | None, Some newTable =>
      (tableDiffs ++
         [TableDiff.mk tableName added
            (map (λ c, ColumnDiff.mk (Column.name c) added None
                         (Some (displayType c)) None)
               (Table.columns newTable))
            None])%list
  | Some oldTable, None =>
      (tableDiffs ++
         [TableDiff.mk tableName removed
            (map (λ c, ColumnDiff.mk (Column.name c) removed
                         (Some (displayType c)) None None)
               (Table.columns oldTable))
            None])%list
  | Some oldTable, Some newTable =>
      (tableDiffs ++ [diffBoth tableName oldTable newTable])%list
  | None, None => tableDiffs
  end.

Definition tableMap (schema : DatabaseSchema.t) : list (string * Table.t) :=
  JSMap.ofEntries (map (λ t, (Table.name t, t)) (DatabaseSchema.tables schema)).

Definition relId (r : Relation.t) : string :=
  Endpoint.table (Relation.from r) ++ "." ++ Endpoint.column (Relation.from r)
    ++ "->" ++ Endpoint.table (Relation.to r) ++ "." ++ Endpoint.column (Relation.to r).

Definition relationMap (schema : DatabaseSchema.t) : list (string * Relation.t) :=
  JSMap.ofEntries (map (λ r, (relId r, r)) (DatabaseSchema.relations schema)).

Definition diffRelation (oldRels newRels : list (string * Relation.t))
    (relationDiffs : list RelationDiff.t) (id : string) : list RelationDiff.t :=
  let action :=
    match JSMap.get id oldRels, JSMap.get id newRels with
    | None, Some _ => added
    | Some _, None => removed
    | _, _ => unchanged
    end in
  (relationDiffs ++ [RelationDiff.mk id action id])%list.

Definition diffSchemas (oldSchema newSchema : DatabaseSchema.t) : SchemaDiff.t :=
  let oldTables := tableMap oldSchema in
  let newTables := tableMap newSchema in
  let allTableNames := JSSet.ofItems (JSMap.keys oldTables ++ JSMap.keys newTables) in
  let tableDiffs := fold_left (diffTable oldTables newTables) allTableNames [] in
  let oldRels := relationMap oldSchema in
  let newRels := relationMap newSchema in
  let allRelIds := JSSet.ofItems (JSMap.keys oldRels ++ JSMap.keys newRels) in
  let relationDiffs := fold_left (diffRelation oldRels newRels) allRelIds [] in
  let hasChanges :=
    existsb (λ t, bool_decide (TableDiff.action t ≠ unchanged)) tableDiffs
    || existsb (λ r, bool_decide (RelationDiff.action r ≠ unchanged)) relationDiffs in
  SchemaDiff.mk tableDiffs relationDiffs hasChanges.

End Diff.

Definition diffSchemas := Diff.diffSchemas.

(** ** Undo and redo (the hook [useHistory]) *)

(** The hook keeps a [HistoryState] in a React state and changes it with
    [setHistory(prev => ...)]; the functions below are those updaters.
    [stringify] stands for [JSON.stringify], which gives a string or
    [undefined]. *)
Module History.
Section WithState.
Context {T : Type}.
Variable stringify : T → option string.

Record t : Type := mk { past : list T; present : T; future : list T }.

Definition MAX_HISTORY_SIZE : nat := 100.

(** [l.slice(-n)] and [l.slice(0, -n)] for [n > 0]. *)
Definition sliceLast (n : nat) (l : list T) : list T := drop (List.length l - n) l.
Definition sliceInit (n : nat) (l : list T) : list T := take (List.length l - n) l.

Definition init (initialState : T) : t := mk [] initialState [].

Definition set (newState : T) (prev : t) : t :=
  if decide (stringify (present prev) = stringify newState) then prev
  else
    mk (sliceLast MAX_HISTORY_SIZE (past prev ++ [present prev])) newState [].

Definition undo (prev : t) : t :=
  match last (past prev) with
  | None => prev   (* [prev.past.length === 0] *)
  | Some newPresent =>
      mk (sliceInit 1 (past prev)) newPresent (present prev :: future prev)
  end.

Definition redo (prev : t) : t :=
  match future prev with
  | [] => prev
  | newPresent :: newFuture => mk (past prev ++ [present prev]) newPresent newFuture
  end.

Definition clear (prev : t) : t := mk [] (present prev) [].

(** [go(index)] for an integer [index].  Where [steps] is not 0 the moved
    slice is not empty, so its first and last elements exist. *)
Definition go (index : Z) (prev : t) : t :=
  if (index =? 0)%Z then prev
  else if (index <? 0)%Z then
    let steps := Nat.min (Z.to_nat (Z.abs index)) (List.length (past prev)) in
    if Nat.eqb steps 0 then prev
    else
      let newPast := sliceInit steps (past prev) in
      let movedToPast := sliceLast steps (past prev) in
      match movedToPast with
      | newPresent :: rest =>
          mk newPast newPresent (rest ++ present prev :: future prev)
      | [] => prev
      end
  else
    let steps := Nat.min (Z.to_nat index) (List.length (future prev)) in
    if Nat.eqb steps 0 then prev
    else
      let newFuture := drop steps (future prev) in
      let movedToFuture := take steps (future prev) in
      match last movedToFuture with
      | Some newPresent =>
          mk (past prev ++ present prev :: sliceInit 1 movedToFuture) newPresent newFuture
      | None => prev
      end.

Definition canUndo (h : t) : bool := (0 <? List.length (past h))%nat.
Definition canRedo (h : t) : bool := (0 <? List.length (future h))%nat.

(** The calls a component can make, and the state after a sequence of
    them. *)
Inductive Action : Type :=
  | Set_ (newState : T) | Undo | Redo | Clear | Go (index : Z).

Definition step (h : t) (a : Action) : t :=
  match a with
  | Set_ x => set x h
  | Undo => undo h
  | Redo => redo h
  | Clear => clear h
  | Go i => go i h
  end.

Definition run (actions : list Action) (initialState : T) : t :=
  fold_left step actions (init initialState).

(** Everything the history holds, oldest first. *)
Definition timeline (h : t) : list T := past h ++ present h :: future h.

End WithState.
End History.

(** ** Inputs of the examples *)

Module Examples.

Definition nl : string := JS.str JS.newline.

(** A column settings bracket that is never closed. *)
Definition unclosedBracket : string :=
  "Table users {" ++ nl ++ "  id int [pk" ++ nl ++ "}".

(** A Ref whose operator position holds an identifier. *)
Definition wordOperator : string := "Ref: a.b x c.d".

Definition wordOperatorTokens : list Token.t :=
  [ tk REF "Ref" 1 1; tk COLON ":" 1 4; tk IDENTIFIER "a" 1 6; tk DOT "." 1 7;
    tk IDENTIFIER "b" 1 8; tk IDENTIFIER "x" 1 10; tk IDENTIFIER "c" 1 12;
    tk DOT "." 1 13; tk IDENTIFIER "d" 1 14; tk EOF EmptyString 1 15 ].

Definition node (name : string) (w h : Z) : TableNode.t :=
  {| TableNode.id := name; TableNode.name := name; TableNode.schema := None;
     TableNode.position := Point.mk 0 0; TableNode.size := Size.mk w h;
     TableNode.columns := []; TableNode.group := None; TableNode.color := None;
     TableNode.note := None; TableNode.selected := None;
     TableNode.collapsed := None |}.

Definition column (name rawType : string) (type : ColumnType) (pk : option bool)
    : Column.t :=
  Column.mk name type (Some rawType)
    (ColumnSettings.mk pk None None None None None None None None None).

Definition table (name : string) (columns : list Column.t) : Table.t :=
  Table.mk name None None columns [] None.

Definition relation (ft fc tt tc : string) (ty : RelationType) : Relation.t :=
  Relation.mk None (Endpoint.mk ft fc) (Endpoint.mk tt tc) ty None.


(** [Ref: posts.author_id > users.id] over two tables. *)
Definition blogText : string :=
  "Table posts {" ++ nl ++ "  id int [pk]" ++ nl ++ "  author_id int" ++ nl ++ "}" ++ nl
  ++ "Table users {" ++ nl ++ "  id int [pk]" ++ nl ++ "}" ++ nl
  ++ "Ref: posts.author_id > users.id".

Definition blog : DatabaseSchema.t :=
  DatabaseSchema.mk None
    [ table "posts" [column "id" "int" ct_int (Some true);
                     column "author_id" "int" ct_int None];
      table "users" [column "id" "int" ct_int (Some true)] ]
    [ relation "posts" "author_id" "users" "id" many_to_one ]
    [] [] None.

(** A table [a] with a column [b.c], and a relation from column [c] of a
    table [a.b]: the two keys are the same text. *)
Definition dotted : DatabaseSchema.t :=
  DatabaseSchema.mk None
    [ table "a" [column "b.c" "int" ct_int None] ]
    [ relation "a.b" "c" "x" "y" many_to_one ]
    [] [] None.

(** One relation between two tables that do not exist. *)
Definition dangling : DatabaseSchema.t :=
  DatabaseSchema.mk None
    [ table "posts" [column "id" "int" ct_int (Some true)] ]
    [ relation "authors" "id" "readers" "id" many_to_one ]
    [] [] None.

Definition usersOld : DatabaseSchema.t :=
  DatabaseSchema.mk None
    [ table "users" [column "id" "int" ct_int (Some true);
                     column "name" "varchar" ct_varchar None] ]
    [] [] [] None.

Definition usersNew : DatabaseSchema.t :=
  DatabaseSchema.mk None
    [ table "users" [column "id" "bigint" ct_bigint (Some true);
                     column "name" "varchar" ct_varchar None;
                     column "email" "varchar" ct_varchar None] ]
    [] [] [] None.

Definition threeNodes : Graph.t :=
  {| Graph.nodes := [node "a" 180 80; node "b" 200 104; node "c" 180 56];
     Graph.edges := []; Graph.groups := []; Graph.notes := [];
     Graph.bounds := None |}.

(** A first node [2^60] wide, followed by four nodes of width 1. *)
Definition wide : Graph.t :=
  {| Graph.nodes :=
       [ node "a" 1152921504606846976 1; node "b" 1 1;
         node "c" 1 1; node "d" 1 1; node "e" 1 1 ];
     Graph.edges := []; Graph.groups := []; Graph.notes := [];
     Graph.bounds := None |}.

End Examples.

(** ** Notions the properties are stated with *)

Module Spec.

(** The characters that some case of the loop of [tokenize] names: the
    newline, the quotes, digits, letters and the underscore, and the
    punctuation and operator characters of the [switch]. *)
Definition recognized (ch : ascii) : bool :=
  Ascii.eqb ch JS.newline || Lexer.isQuote ch || JS.isDigit ch
  || JS.isAlpha ch || Ascii.eqb ch "_"%char
  || bool_decide (ch ∈ [ "{"; "}"; "["; "]"; "("; ")"; ","; ":"; ".";
                        "-"; "<"; ">" ]%char).

(** The character [ch], followed by [next], is passed over by
    [skipWhitespaceAndComments]: blank, or the opening of a comment. *)
Definition skipped (ch : ascii) (next : option ascii) : bool :=
  Ascii.eqb ch " "%char || Ascii.eqb ch JS.tab || Ascii.eqb ch JS.cr
  || (Ascii.eqb ch "/"%char
      && (Lexer.charIs "/"%char next || Lexer.charIs "*"%char next)).

Fixpoint allDigits (s : string) : bool :=
  match s with
  | EmptyString => true
  | String c s' => JS.isDigit c && allDigits s'
  end.

Definition digits (s : string) : bool :=
  negb (String.eqb s EmptyString) && allDigits s.

(** The whole of [s] matches [[0-9]+(\.[0-9]+)?]. *)
Definition matchesNumber (s : string) : bool :=
  digits (JS.takeDigits s)
  && match JS.dropDigits s with
     | EmptyString => true
     | String "."%char rest => digits rest
     | _ => false
     end.

(** [needle] occurs in [s] ([s.includes(needle)]). *)
Definition mentions (needle s : string) : Prop :=
  ∃ before after, s = before ++ needle ++ after.

(** [c] does not occur in [s]. *)
Fixpoint lacks (c : ascii) (s : string) : bool :=
  match s with
  | EmptyString => true
  | String d s' => negb (Ascii.eqb d c) && lacks c s'
  end.

Definition errorLine (r : Res DatabaseSchema.t) : option nat :=
  match r with
  | Throw (ParserError _ line _ _) => Some line
  | _ => None
  end.

(** The claim on foreign keys as the specification words it: a column is
    marked exactly when its (table name, column name) pair is the [from]
    end of a relation. *)
Definition fkMarkedIffFromEndpoint (schema : DatabaseSchema.t) : Prop :=
  ∀ node col,
    node ∈ Graph.nodes (buildGraph schema) →
    col ∈ TableNode.columns node →
    (ColumnNode.isForeignKey col = true
     ↔ ∃ rel, rel ∈ DatabaseSchema.relations schema
              ∧ Endpoint.table (Relation.from rel) = TableNode.name node
              ∧ Endpoint.column (Relation.from rel) = ColumnNode.name col).

(** The same with keys: the text [table.column] of the column is the
    text built from the [from] end of a relation. *)
Definition fkMarkedIffFromKey (schema : DatabaseSchema.t) : Prop :=
  ∀ node col,
    node ∈ Graph.nodes (buildGraph schema) →
    col ∈ TableNode.columns node →
    (ColumnNode.isForeignKey col = true
     ↔ ∃ rel, rel ∈ DatabaseSchema.relations schema
              ∧ Builder.colKeyOf (Endpoint.table (Relation.from rel))
                                 (Endpoint.column (Relation.from rel))
                = Builder.colKeyOf (TableNode.name node) (ColumnNode.name col)).

(** No table name, and no [from] table of a relation, contains a dot. *)
Definition dotFree (schema : DatabaseSchema.t) : Prop :=
  Forall (λ t, lacks "."%char (Table.name t) = true) (DatabaseSchema.tables schema)
  ∧ Forall (λ r, lacks "."%char (Endpoint.table (Relation.from r)) = true)
      (DatabaseSchema.relations schema).

(** The foreign-key flag of every column of a graph, by column id. *)
Definition fkFlags (g : Graph.t) : list (string * bool) :=
  flat_map
    (λ n, map (λ c, (ColumnNode.id c, ColumnNode.isForeignKey c)) (TableNode.columns n))
    (Graph.nodes g).

Definition positiveSize (n : TableNode.t) : Prop :=
  (0 < Size.width (TableNode.size n))%Z ∧ (0 < Size.height (TableNode.size n))%Z.

Local Open Scope Z_scope.

(** The rectangles of [a] and [b], as sets of points of the plane, have a
    point in common. *)
Definition intersect (a b : TableNode.t) : Prop :=
  Point.x (TableNode.position a)
  ≤ Point.x (TableNode.position b) + Size.width (TableNode.size b)
  ∧ Point.x (TableNode.position b)
    ≤ Point.x (TableNode.position a) + Size.width (TableNode.size a)
  ∧ Point.y (TableNode.position a)
    ≤ Point.y (TableNode.position b) + Size.height (TableNode.size b)
  ∧ Point.y (TableNode.position b)
    ≤ Point.y (TableNode.position a) + Size.height (TableNode.size a).

(** The two rectangles have more than their border in common. *)
Definition overlap (a b : TableNode.t) : Prop :=
  Point.x (TableNode.position a)
  < Point.x (TableNode.position b) + Size.width (TableNode.size b)
  ∧ Point.x (TableNode.position b)
    < Point.x (TableNode.position a) + Size.width (TableNode.size a)
  ∧ Point.y (TableNode.position a)
    < Point.y (TableNode.position b) + Size.height (TableNode.size b)
  ∧ Point.y (TableNode.position b)
    < Point.y (TableNode.position a) + Size.height (TableNode.size a).


(** The room a row of all the nodes takes, each followed by [gap]. *)
Definition span (size : Size.t → Z) (gap : Z) (nodes : list TableNode.t) : Z :=
  foldr (λ n s, size (TableNode.size n) + gap + s) 0 nodes.

(** The claim on the grid layout as the specification words it: with the
    default options, no two nodes of the result overlap. *)
Definition gridLayoutSeparates (graph : Graph.t) : Prop :=
  ∀ i j a b,
    i ≠ j →
    Graph.nodes (Layout.gridLayout graph None) !! i = Some a →
    Graph.nodes (Layout.gridLayout graph None) !! j = Some b →
    ¬ overlap a b.

End Spec.

(** ** The grid layout in exact arithmetic *)

Module Exact.
Import Layout.
Local Open Scope Z_scope.

(** [Layout.place] and [Layout.placeAll] with sums that do not round. *)
Definition place (columns : nat) (opts : Options.t) (c : cursor) (node : TableNode.t)
    : TableNode.t * cursor :=
  let newNode := withPosition (Point.mk (x c) (y c)) node in
  let rowHeight := Z.max (rowHeight c) (Size.height (TableNode.size node)) in
  let col := S (col c) in
  if (columns <=? col)%nat then
    (newNode,
     mkCursor (Options.padding opts)
              (y c + (rowHeight + Options.nodeSpacingY opts)) 0 0)
  else
    (newNode,
     mkCursor (x c + (Size.width (TableNode.size node) + Options.nodeSpacingX opts))
              (y c) rowHeight col).

Fixpoint placeAll (columns : nat) (opts : Options.t) (c : cursor)
    (nodes : list TableNode.t) : list TableNode.t :=
  match nodes with
  | [] => []
  | node :: rest =>
      let '(newNode, c') := place columns opts c node in
      newNode :: placeAll columns opts c' rest
  end.

End Exact.

(** ** The characters the lexer has no token for *)

Module Stray.
Import Units.

(** Space, tab and carriage return. *)
Definition blank (u : nat) : bool := isCh " " u || isCh JS.tab u || isCh JS.cr u.

(** The characters that begin or continue a token other than [UNKNOWN]:
    the newline, digits, letters and the underscore, and the punctuation
    and operator characters. *)
Definition recognized (u : nat) : bool :=
  isCh JS.newline u || isDigit u || isAlpha u || isCh "_" u
  || isCh "{" u || isCh "}" u || isCh "[" u || isCh "]" u || isCh "(" u || isCh ")" u
  || isCh "," u || isCh ":" u || isCh "." u || isCh "-" u || isCh "<" u || isCh ">" u.

(** Where a scan from left to right is: in the program, in a comment to
    the end of the line, in a comment between [/*] and [*/], or in a string
    literal opened by [quote]. *)
Inductive mode : Type := Code | LineComment | BlockComment | Literal (quote : nat).

(** The characters of a text that are neither blank, nor in a comment,
    nor in a string literal (where a backslash takes the next character
    with it) nor one of its quotes, and that are not recognized. *)
Fixpoint scan (m : mode) (text : list nat) : list nat :=
  match text with
  | [] => []
  | u :: rest =>
      match m with
      | Code =>
          if blank u then scan Code rest
          else if isQuote u then scan (Literal u) rest
          else if recognized u then scan Code rest
          else
            match rest with
            | v :: rest' =>
                if isCh "/" u && isCh "/" v then scan LineComment rest'
                else if isCh "/" u && isCh "*" v then scan BlockComment rest'
                else u :: scan Code rest
            | [] => [u]
            end
      | LineComment =>
          if isCh JS.newline u then scan Code rest else scan LineComment rest
      | BlockComment =>
          match rest with
          | v :: rest' =>
              if isCh "*" u && isCh "/" v then scan Code rest'
              else scan BlockComment rest
          | [] => []
          end
      | Literal quote =>
          if (u =? quote)%nat then scan Code rest
          else if isCh JS.backslash u then
            match rest with
            | _ :: rest' => scan (Literal quote) rest'
            | [] => []
            end
          else scan (Literal quote) rest
      end
  end.

Definition strays (text : list nat) : list nat := scan Code text.

(** The values of the [UNKNOWN] tokens of a token list, in order. *)
Definition unknowns (tokens : list Token.t) : list (list nat) :=
  map Token.value (filter (λ tok, Token.type tok = UNKNOWN) tokens).

(** The string of one character. *)
Definition single (u : nat) : list nat := [u].

End Stray.


(** ** The shape of tokens *)

Module TokenShape.

Fixpoint allChars (f : ascii → bool) (s : string) : bool :=
  match s with
  | EmptyString => true
  | String c s' => f c && allChars f s'
  end.

(** [[a-zA-Z_][a-zA-Z0-9_]*] *)
Definition identifierText (s : string) : bool :=
  match s with
  | EmptyString => false
  | String c s' => (JS.isAlpha c || Ascii.eqb c "_"%char) && allChars JS.isAlphaNumeric s'
  end.

Definition digitOrDot (c : ascii) : bool := JS.isDigit c || Ascii.eqb c "."%char.

(** A digit followed by digits and dots: what [readNumber] reads. *)
Definition numberText (s : string) : bool :=
  match s with
  | EmptyString => false
  | String c s' => JS.isDigit c && allChars digitOrDot s'
  end.

(** The characters that reach the [switch] of [tokenize]: no newline, no
    quote, no digit, no letter, no underscore. *)
Definition other (ch : ascii) : bool :=
  negb (Ascii.eqb ch JS.newline) && negb (Lexer.isQuote ch) && negb (JS.isDigit ch)
  && negb (JS.isAlpha ch || Ascii.eqb ch "_"%char).

(** What the value of a token of a given type looks like. *)
Definition shape (ty : TokenType) (value : string) : bool :=
  match ty with
  | NEWLINE => String.eqb value (JS.str JS.newline)
  | STRING => true
  | NUMBER => numberText value
  | LBRACE => String.eqb value "{"
  | RBRACE => String.eqb value "}"
  | LBRACKET => String.eqb value "["
  | RBRACKET => String.eqb value "]"
  | LPAREN => String.eqb value "("
  | RPAREN => String.eqb value ")"
  | COMMA => String.eqb value ","
  | COLON => String.eqb value ":"
  | DOT => String.eqb value "."
  | REL_ONE_TO_ONE => String.eqb value "-"
  | REL_ONE_TO_MANY => String.eqb value "<"
  | REL_MANY_TO_ONE => String.eqb value ">"
  | REL_MANY_TO_MANY => String.eqb value "<>"
  | UNKNOWN =>
      match value with
      | String ch EmptyString => negb (Spec.recognized ch)
      | _ => false
      end
  | EOF => false
  | _ => identifierText value && bool_decide (Lexer.keywordOrIdentifier value = ty)
  end.

(** A token before the final EOF: its value has the shape of its type and
    its position is 1-based. *)
Definition wellFormed (tok : Token.t) : Prop :=
  shape (Token.type tok) (Token.value tok) = true
  ∧ (1 ≤ Token.line tok)%nat ∧ (1 ≤ Token.column tok)%nat.

End TokenShape.

(** ** The names of a schema *)

Module Names.

(** The text of an IDENTIFIER token: it matches
    [[a-zA-Z_][a-zA-Z0-9_]*] and is neither a keyword nor the name of an
    inherited member. *)
Definition identifier (s : string) : Prop :=
  TokenShape.identifierText s = true ∧ Lexer.keywordOrIdentifier s = IDENTIFIER.

Section WithPredicate.
Variable N : string → Prop.

Definition table (t : Table.t) : Prop :=
  N (Table.name t) ∧ from_option N True (Table.alias t)
  ∧ Forall (λ c, N (Column.name c)) (Table.columns t).

Definition endpoint (e : Endpoint.t) : Prop :=
  N (Endpoint.table e) ∧ N (Endpoint.column e).

Definition relation (r : Relation.t) : Prop :=
  from_option N True (Relation.name r)
  ∧ endpoint (Relation.from r) ∧ endpoint (Relation.to r).

Definition enum (e : DbEnum.t) : Prop :=
  N (DbEnum.name e) ∧ Forall (λ v, N (EnumValue.name v)) (DbEnum.values e).

Definition group (g : IRTableGroup.t) : Prop :=
  N (IRTableGroup.name g) ∧ Forall N (IRTableGroup.tables g).

(** Every name of the schema satisfies [N]. *)
Definition schema (s : DatabaseSchema.t) : Prop :=
  Forall table (DatabaseSchema.tables s)
  ∧ Forall relation (DatabaseSchema.relations s)
  ∧ Forall enum (DatabaseSchema.enums s)
  ∧ Forall group (DatabaseSchema.tableGroups s).

End WithPredicate.

End Names.

(** ** Schemas without errors *)

Module Consistent.

(** The end [e] of a relation names a column of a table of the schema. *)
Definition declared (schema : DatabaseSchema.t) (e : Endpoint.t) : Prop :=
  ∃ t, t ∈ DatabaseSchema.tables schema
       ∧ Table.name t = Endpoint.table e
       ∧ Endpoint.column e ∈ map Column.name (Table.columns t).

(** No two tables share a name, no two columns of a table share a name,
    and both ends of every relation are declared. *)
Definition schema (s : DatabaseSchema.t) : Prop :=
  NoDup (map Table.name (DatabaseSchema.tables s))
  ∧ Forall (λ t, NoDup (map Column.name (Table.columns t))) (DatabaseSchema.tables s)
  ∧ Forall (λ r, declared s (Relation.from r) ∧ declared s (Relation.to r))
      (DatabaseSchema.relations s).

End Consistent.

(** * Properties *)

Local Open Scope nat_scope.

(** ** The lexer terminates *)

Section LexerTermination.
Variable input : string.

Import Lexer.

Lemma get_None (n : nat) (s : string) : String.get n s = None ↔ String.length s ≤ n.
Proof.
  revert n; induction s as [|c s IH]; intros [|n]; simpl; try (split; [lia | done]).
  - split; [done | lia].
  - rewrite IH. lia.
Qed.

Lemma inBounds_true (s : state) : inBounds input s = true ↔ pos s < len input.
Proof. unfold inBounds. apply Nat.ltb_lt. Qed.

Lemma current_Some_inBounds (s : state) (ch : ascii) :
  current input s = Some ch → pos s < len input.
Proof.
  unfold current, len. intros H.
  destruct (decide (pos s < String.length input)) as [|Hge]; [done|].
  assert (String.get (pos s) input = None) as E by (apply get_None; lia).
  congruence.
Qed.

Lemma current_None_done (s : state) :
  current input s = None → len input ≤ pos s.
Proof. unfold current, len. apply get_None. Qed.

Lemma skipLineComment_total (fuel : nat) (s : state) :
  len input - pos s < fuel →
  ∃ s', skipLineComment input fuel s = Some s' ∧ pos s ≤ pos s'.
Proof.
  revert s; induction fuel as [|fuel IH]; intros s Hf; [lia|]. simpl.
  destruct (inBounds input s && _) eqn:E; [|by eauto].
  apply andb_true_iff in E as [E _]. apply inBounds_true in E.
  destruct (IH (advance s)) as (s' & -> & Hle); [simpl; lia|].
  exists s'. split; [done|]. simpl in Hle. lia.
Qed.

Lemma skipBlockComment_total (fuel : nat) (s : state) :
  len input - pos s < fuel →
  ∃ s', skipBlockComment input fuel s = Some s' ∧ pos s ≤ pos s'.
Proof.
  revert s; induction fuel as [|fuel IH]; intros s Hf; [lia|]. simpl.
  destruct (inBounds input s) eqn:E; [|by eauto].
  apply inBounds_true in E.
  destruct (charIs "*" (current input s) && _).
  { eexists; split; [done|]. simpl. lia. }
  destruct (IH (advance
    (if charIs JS.newline (current input s) then newlineInComment s else s)))
    as (s' & -> & Hle).
  { destruct (charIs JS.newline _); simpl; lia. }
  exists s'. split; [done|].
  destruct (charIs JS.newline _); simpl in Hle; lia.
Qed.

(** A line comment is entered on a slash, which the loop passes. *)
Lemma skipLineComment_enter (s : state) :
  charIs "/" (current input s) = true →
  ∃ s', skipLineComment input (fuel0 input) s = Some s' ∧ pos s < pos s'.
Proof.
  intros Hc. unfold fuel0. simpl.
  destruct (current input s) as [c|] eqn:Hcur; [|done].
  pose proof (current_Some_inBounds _ _ Hcur) as Hin.
  replace (inBounds input s) with true by (symmetry; by apply inBounds_true).
  simpl in *. destruct (Ascii.eqb_spec c "/"); [subst; simpl | done].
  destruct (skipLineComment_total (len input) (advance s)) as (s1 & -> & Hle);
    [simpl; lia|].
  exists s1. split; [done|]. simpl in Hle. lia.
Qed.

Lemma skipWhitespaceAndComments_total (fuel : nat) (s : state) :
  len input - pos s < fuel →
  ∃ s', skipWhitespaceAndComments input fuel s = Some s' ∧ pos s ≤ pos s'.
Proof.
  revert s; induction fuel as [|fuel IH]; intros s Hf; [lia|].
  cbn [skipWhitespaceAndComments].
  destruct (inBounds input s) eqn:E; [|by eauto].
  apply inBounds_true in E.
  destruct (_ || _ || _).
  { destruct (IH (advance s)) as (s' & -> & Hle); [simpl; lia|].
    exists s'. split; [done|]. simpl in Hle. lia. }
  destruct (charIs "/" (current input s) && charIs "/" (peek input s)) eqn:E1.
  { apply andb_true_iff in E1 as [E1 _].
    destruct (skipLineComment_enter s E1) as (s1 & -> & Hlt). cbn [mbind option_bind].
    destruct (IH s1) as (s' & -> & Hle); [lia|].
    exists s'. split; [done | lia]. }
  destruct (charIs "/" (current input s) && charIs "*" (peek input s)).
  { destruct (skipBlockComment_total (fuel0 input) (advance (advance s)))
      as (s1 & -> & Hle1); [unfold fuel0; simpl; lia|].
    cbn [mbind option_bind]. simpl in Hle1.
    destruct (IH s1) as (s' & -> & Hle); [lia|].
    exists s'. split; [done | lia]. }
  by eauto.
Qed.

Lemma readStringLoop_total (fuel : nat) (quote : ascii) (value : string) (s : state) :
  len input - pos s < fuel →
  ∃ v s', readStringLoop input fuel quote value s = Some (v, s') ∧ pos s ≤ pos s'.
Proof.
  revert value s; induction fuel as [|fuel IH]; intros value s Hf; [lia|]. simpl.
  destruct (inBounds input s && _) eqn:E; [|by eauto].
  apply andb_true_iff in E as [E _]. apply inBounds_true in E.
  destruct (charIs JS.backslash _).
  - destruct (IH (JS.plusChar value (current input (advance s))) (advance (advance s)))
      as (v & s' & -> & Hle); [simpl; lia|].
    exists v, s'. split; [done|]. simpl in Hle. lia.
  - destruct (IH (JS.plusChar value (current input s)) (advance s))
      as (v & s' & -> & Hle); [simpl; lia|].
    exists v, s'. split; [done|]. simpl in Hle. lia.
Qed.

Lemma readNumberLoop_total (fuel : nat) (value : string) (s : state) :
  len input - pos s < fuel →
  ∃ v s', readNumberLoop input fuel value s = Some (v, s') ∧ pos s ≤ pos s'.
Proof.
  revert value s; induction fuel as [|fuel IH]; intros value s Hf; [lia|]. simpl.
  destruct (inBounds input s && _) eqn:E; [|by eauto].
  apply andb_true_iff in E as [E _]. apply inBounds_true in E.
  destruct (IH (JS.plusChar value (current input s)) (advance s))
    as (v & s' & -> & Hle); [simpl; lia|].
  exists v, s'. split; [done|]. simpl in Hle. lia.
Qed.

Lemma readIdentifierLoop_total (fuel : nat) (value : string) (s : state) :
  len input - pos s < fuel →
  ∃ v s', readIdentifierLoop input fuel value s = Some (v, s') ∧ pos s ≤ pos s'.
Proof.
  revert value s; induction fuel as [|fuel IH]; intros value s Hf; [lia|]. simpl.
  destruct (inBounds input s && _) eqn:E; [|by eauto].
  apply andb_true_iff in E as [E _]. apply inBounds_true in E.
  destruct (IH (JS.plusChar value (current input s)) (advance s))
    as (v & s' & -> & Hle); [simpl; lia|].
  exists v, s'. split; [done|]. simpl in Hle. lia.
Qed.

Lemma punctuation_progress (ch : ascii) (s : state) :
  pos s < pos (punctuation input ch s).
Proof.
  unfold punctuation.
  destruct ch as [[] [] [] [] [] [] [] []]; simpl; try lia;
    destruct (charIs ">" (peek input s)); simpl; lia.
Qed.

(** Every turn of the main loop consumes at least one character. *)
Lemma scanToken_total (ch : ascii) (s : state) :
  current input s = Some ch →
  ∃ s', scanToken input ch s = Some s' ∧ pos s < pos s'.
Proof.
  intros Hch. pose proof (current_Some_inBounds _ _ Hch) as Hin.
  unfold scanToken.
  destruct (Ascii.eqb ch JS.newline).
  { eexists; split; [done|]. simpl. lia. }
  destruct (isQuote ch).
  { unfold readString.
    destruct (readStringLoop_total (fuel0 input) ch EmptyString (advance s))
      as (v & s1 & -> & Hle); [unfold fuel0; simpl; lia|].
    simpl in *. eexists; split; [done|]. simpl. lia. }
  destruct (JS.isDigit ch) eqn:Hd.
  { unfold readNumber, fuel0. simpl.
    replace (inBounds input s) with true by (symmetry; by apply inBounds_true).
    rewrite Hch. simpl. rewrite Hd. simpl.
    destruct (readNumberLoop_total (len input) (JS.plusChar EmptyString (Some ch)) (advance s))
      as (v & s1 & H1 & Hle); [simpl; lia|].
    simpl in H1. rewrite H1. simpl in *.
    eexists; split; [done|]. simpl. lia. }
  destruct (JS.isAlpha ch || Ascii.eqb ch "_") eqn:Ha.
  { unfold readIdentifier, fuel0. simpl.
    replace (inBounds input s) with true by (symmetry; by apply inBounds_true).
    rewrite Hch. simpl.
    assert (JS.isAlphaNumeric ch = true) as ->.
    { unfold JS.isAlphaNumeric. apply orb_true_iff in Ha as [->| ->]; [done|].
      by rewrite orb_true_r. }
    destruct (readIdentifierLoop_total (len input) (JS.plusChar EmptyString (Some ch)) (advance s))
      as (v & s1 & H1 & Hle); [simpl; lia|].
    simpl in H1. rewrite H1. simpl in *.
    eexists; split; [done|]. simpl. lia. }
  eexists; split; [done|]. apply punctuation_progress.
Qed.

Lemma tokenizeLoop_total (fuel : nat) (s : state) :
  len input - pos s < fuel →
  ∃ s', tokenizeLoop input fuel s = Some s'.
Proof.
  revert s; induction fuel as [|fuel IH]; intros s Hf; [lia|].
  cbn [tokenizeLoop].
  destruct (inBounds input s) eqn:E; [|by eauto].
  apply inBounds_true in E.
  destruct (skipWhitespaceAndComments_total (fuel0 input) s) as (s1 & -> & Hle);
    [unfold fuel0; lia|].
  cbn [mbind option_bind].
  destruct (current input s1) as [ch|] eqn:Hch; [|by eauto].
  destruct (scanToken_total ch s1 Hch) as (s2 & -> & Hlt). cbn [mbind option_bind].
  apply IH. lia.
Qed.

Lemma tokenize_total : ∃ s, tokenizeLoop input (fuel0 input) init = Some s
                            ∧ tokenize input = Some (finish s).
Proof.
  destruct (tokenizeLoop_total (fuel0 input) init) as [s Hs];
    [unfold fuel0; simpl; lia|].
  exists s. split; [done|]. unfold tokenize. by rewrite Hs.
Qed.

End LexerTermination.

(** ** Lexer: fault tolerance *)

Section LexerUnknown.
Variable input : string.
Import Lexer.

Lemma punctuation_unknown (ch : ascii) (s : state) :
  Spec.recognized ch = false →
  punctuation input ch s = emit UNKNOWN (JS.str ch) s.
Proof.
  destruct ch as [[] [] [] [] [] [] [] []]; intros H; try reflexivity;
    vm_compute in H; discriminate.
Qed.

Lemma scanToken_unknown (ch : ascii) (s : state) :
  Spec.recognized ch = false →
  scanToken input ch s = Some (emit UNKNOWN (JS.str ch) s).
Proof.
  intros H. unfold scanToken. rewrite punctuation_unknown by done.
  unfold Spec.recognized in H.
  repeat (apply orb_false_iff in H as [H ?]).
  repeat match goal with E : _ = false |- _ => rewrite E; clear E end.
  done.
Qed.

Lemma skip_nothing (ch : ascii) (s : state) :
  current input s = Some ch →
  Spec.skipped ch (peek input s) = false →
  skipWhitespaceAndComments input (fuel0 input) s = Some s.
Proof.
  intros Hch H. unfold fuel0. cbn [skipWhitespaceAndComments].
  replace (inBounds input s) with true
    by (symmetry; apply inBounds_true; by eapply current_Some_inBounds).
  rewrite Hch. unfold Spec.skipped in H. cbn [charIs].
  repeat (apply orb_false_iff in H as [H ?]).
  repeat match goal with E : Ascii.eqb _ _ = false |- _ => rewrite E; clear E end.
  cbn [orb].
  destruct (Ascii.eqb ch "/"); [|done].
  cbn [andb] in *.
  match goal with E : _ || _ = false |- _ => apply orb_false_iff in E as [-> ->] end.
  done.
Qed.

(** A turn of the main loop at an unrecognised character pushes one
    UNKNOWN token that holds the character and moves one character on. *)
Lemma tokenizeLoop_unknown (fuel : nat) (ch : ascii) (s : state) :
  current input s = Some ch →
  Spec.skipped ch (peek input s) = false →
  Spec.recognized ch = false →
  tokenizeLoop input (S fuel) s
  = tokenizeLoop input fuel (emit UNKNOWN (JS.str ch) s).
Proof.
  intros Hch Hskip Hrec. cbn [tokenizeLoop].
  replace (inBounds input s) with true
    by (symmetry; apply inBounds_true; by eapply current_Some_inBounds).
  rewrite (skip_nothing ch) by done. cbn [mbind option_bind].
  rewrite Hch, scanToken_unknown by done. done.
Qed.

End LexerUnknown.

(** *** The lexer on any string *)

Lemma KEYWORDS_range (v : string) (ty : TokenType) :
  Lexer.KEYWORDS !! v = Some ty →
  ty ∈ [TABLE; ENUM; REF; TABLEGROUP; AS; NOTE; INDEXES].
Proof.
  intros H. apply elem_of_list_to_map_2 in H.
  repeat (apply elem_of_cons in H as [[= _ <-]|H]; [set_solver|]).
  by apply elem_of_nil in H.
Qed.

Section UnitsLexer.
Local Open Scope list_scope.
Import Units Stray.

Variable input : list nat.

(** The lexer at [s] has [rest] before it. *)
Definition at_ (s : state) (rest : list nat) : Prop := drop (pos s) input = rest.

Lemma at_cons (s : state) (u : nat) (rest : list nat) :
  at_ s (u :: rest) →
  inBounds input s = true ∧ current input s = Some u
  ∧ peek input s = head rest ∧ at_ (advance s) rest.
Proof.
  unfold at_, inBounds, current, peek, advance, len. cbn [pos]. intros H.
  assert (input !! pos s = Some u) as Hcur.
  { pose proof (lookup_drop input (pos s) 0) as E.
    rewrite H, Nat.add_0_r in E. done. }
  assert (drop (S (pos s)) input = rest) as Hrest.
  { replace (S (pos s)) with (pos s + 1)%nat by lia. by rewrite <- drop_drop, H. }
  split_and!; [ | done | | done].
  - apply Nat.ltb_lt. by eapply lookup_lt_Some.
  - pose proof (lookup_drop input (S (pos s)) 0) as E.
    rewrite Hrest, Nat.add_0_r in E. rewrite <- E. by destruct rest.
Qed.

Lemma at_nil (s : state) :
  at_ s [] → inBounds input s = false ∧ current input s = None.
Proof.
  unfold at_, inBounds, current, len. intros H.
  assert (List.length (drop (pos s) input) = 0%nat) as Hl by (by rewrite H).
  rewrite length_drop in Hl. split.
  - apply Nat.ltb_ge. lia.
  - apply lookup_ge_None. lia.
Qed.

Lemma at_advance_nil (s : state) : at_ s [] → at_ (advance s) [].
Proof.
  unfold at_, advance. cbn [pos]. intros H.
  replace (S (pos s)) with (pos s + 1)%nat by lia. by rewrite <- drop_drop, H.
Qed.

Lemma at_length (s : state) (rest : list nat) :
  at_ s rest → (List.length rest < fuel0 input)%nat.
Proof.
  unfold at_, fuel0, len. intros <-. rewrite length_drop. lia.
Qed.


Lemma at_advance (s : state) (rest : list nat) : at_ s rest → at_ (advance s) (tail rest).
Proof.
  destruct rest as [|u rest]; intros H.
  - by apply at_advance_nil.
  - by apply at_cons in H as (_ & _ & _ & H).
Qed.

Lemma at_newlineInComment (s : state) (rest : list nat) :
  at_ s rest → at_ (newlineInComment s) rest.
Proof. done. Qed.

(** *** Which characters are what *)

Ltac chars :=
  unfold blank, isQuote, recognized, numberChar, identChar, isAlphaNumeric, isAlpha,
    isDigit, inRange, charIs, unitIs, isCh, code in *;
  cbn [head] in *;
  repeat match goal with
         | H : context [nat_of_ascii ?c] |- _ =>
             let n := eval vm_compute in (nat_of_ascii c) in
             change (nat_of_ascii c) with n in H
         | |- context [nat_of_ascii ?c] =>
             let n := eval vm_compute in (nat_of_ascii c) in
             change (nat_of_ascii c) with n
         end;
  repeat match goal with
         | H : context [Nat.eqb _ _] |- _ => revert H
         | H : context [Nat.leb _ _] |- _ => revert H
         end;
  repeat (match goal with
          | |- context [Nat.eqb ?a ?b] => destruct (Nat.eqb_spec a b)
          | |- context [Nat.leb ?a ?b] => destruct (Nat.leb_spec a b)
          end; try lia; cbn [andb orb negb]);
  try done; try lia.

Lemma scan_blank (u : nat) (rest : list nat) :
  blank u = true → scan Code (u :: rest) = scan Code rest.
Proof. intros H. cbn [scan]. by rewrite H. Qed.

Lemma scan_quote (u : nat) (rest : list nat) :
  isQuote u = true → scan Code (u :: rest) = scan (Literal u) rest.
Proof.
  intros H. cbn [scan]. assert (blank u = false) as -> by chars. by rewrite H.
Qed.

Lemma scan_recognized (u : nat) (rest : list nat) :
  recognized u = true → scan Code (u :: rest) = scan Code rest.
Proof.
  intros H. cbn [scan].
  assert (blank u = false) as -> by chars.
  assert (isQuote u = false) as -> by chars.
  by rewrite H.
Qed.

Lemma scan_line (u v : nat) (rest : list nat) :
  isCh "/" u = true → isCh "/" v = true →
  scan Code (u :: v :: rest) = scan LineComment rest.
Proof.
  intros Hu Hv. cbn [scan].
  assert (blank u = false) as -> by chars.
  assert (isQuote u = false) as -> by chars.
  assert (recognized u = false) as -> by chars.
  by rewrite Hu, Hv.
Qed.

Lemma scan_block (u v : nat) (rest : list nat) :
  isCh "/" u = true → isCh "*" v = true →
  scan Code (u :: v :: rest) = scan BlockComment rest.
Proof.
  intros Hu Hv. cbn [scan].
  assert (blank u = false) as -> by chars.
  assert (isQuote u = false) as -> by chars.
  assert (recognized u = false) as -> by chars.
  assert (isCh "/" v = false) as -> by chars.
  by rewrite Hu, Hv.
Qed.

Lemma scan_stray (u : nat) (rest : list nat) :
  blank u = false → isQuote u = false → recognized u = false →
  isCh "/" u && charIs "/" (head rest) = false →
  isCh "/" u && charIs "*" (head rest) = false →
  scan Code (u :: rest) = u :: scan Code rest.
Proof.
  intros Hb Hq Hr H1 H2. cbn [scan]. rewrite Hb, Hq, Hr.
  destruct rest as [|v rest]; [done|]. cbn [head charIs] in H1, H2. by rewrite H1, H2.
Qed.

(** *** The loops, on what is before the lexer *)

Lemma skipLineComment_scan (fuel : nat) (s : state) (l : list nat) :
  at_ s l → (List.length l < fuel)%nat →
  ∃ s1 l1,
    skipLineComment input fuel s = Some s1 ∧ tokens s1 = tokens s ∧ at_ s1 l1
    ∧ (List.length l1 ≤ List.length l)%nat
    ∧ (∀ u rest, l = u :: rest → isCh JS.newline u = false →
                 (List.length l1 < List.length l)%nat)
    ∧ scan LineComment l = scan Code l1.
Proof.
  revert s l. induction fuel as [|fuel IH]; intros s l Hat Hlen; [lia|].
  cbn [skipLineComment]. destruct l as [|u rest].
  - destruct (at_nil s Hat) as [-> _]. by exists s, [].
  - destruct (at_cons s u rest Hat) as (-> & -> & _ & Hnext). cbn [andb charIs].
    destruct (isCh JS.newline u) eqn:Hu; cbn [negb].
    + exists s, (u :: rest). split_and!; try done.
      * intros u' rest' [= <- <-]. by rewrite Hu.
      * cbn [scan]. rewrite Hu. symmetry. apply scan_recognized. by chars.
    + destruct (IH (advance s) rest Hnext) as (s1 & l1 & H1 & H2 & H3 & H4 & _ & H5).
      { cbn [List.length] in Hlen. lia. }
      exists s1, l1. split_and!; try done.
      * cbn [List.length]. lia.
      * intros _ _ _ _. cbn [List.length]. lia.
      * cbn [scan]. by rewrite Hu.
Qed.

Lemma skipBlockComment_scan (fuel : nat) (s : state) (l : list nat) :
  at_ s l → (List.length l < fuel)%nat →
  ∃ s1 l1,
    skipBlockComment input fuel s = Some s1 ∧ tokens s1 = tokens s ∧ at_ s1 l1
    ∧ (List.length l1 ≤ List.length l)%nat
    ∧ scan BlockComment l = scan Code l1.
Proof.
  revert s l. induction fuel as [|fuel IH]; intros s l Hat Hlen; [lia|].
  cbn [skipBlockComment]. destruct l as [|u rest].
  - destruct (at_nil s Hat) as [-> _]. by exists s, [].
  - destruct (at_cons s u rest Hat) as (-> & -> & -> & Hnext). cbn [charIs].
    destruct (isCh "*" u && charIs "/" (head rest)) eqn:Hclose.
    + destruct rest as [|v rest']; [by rewrite andb_false_r in Hclose|].
      exists (advance (advance s)), rest'. split_and!; try done.
      * by apply (at_advance (advance s) (v :: rest')).
      * cbn [List.length]. lia.
      * cbn [scan]. cbn [head charIs] in Hclose. by rewrite Hclose.
    + destruct (IH (advance (if isCh JS.newline u then newlineInComment s else s)) rest)
        as (s1 & l1 & H1 & H2 & H3 & H4 & H5).
      { destruct (isCh JS.newline u); exact Hnext. }
      { cbn [List.length] in Hlen. lia. }
      exists s1, l1. split_and!; try done.
      * rewrite H2. by destruct (isCh JS.newline u).
      * cbn [List.length]. lia.
      * rewrite <- H5. cbn [scan]. destruct rest as [|v rest']; [done|].
        cbn [head charIs] in Hclose. by rewrite Hclose.
Qed.

(** What [skipWhitespaceAndComments] stops at: a character that is not
    blank and does not open a comment, or the end. *)
Definition starts (l : list nat) : Prop :=
  match l with
  | [] => True
  | u :: rest =>
      blank u = false
      ∧ isCh "/" u && charIs "/" (head rest) = false
      ∧ isCh "/" u && charIs "*" (head rest) = false
  end.

Lemma skipWhitespaceAndComments_scan (fuel : nat) (s : state) (l : list nat) :
  at_ s l → (List.length l < fuel)%nat →
  ∃ s1 l1,
    skipWhitespaceAndComments input fuel s = Some s1 ∧ tokens s1 = tokens s ∧ at_ s1 l1
    ∧ (List.length l1 ≤ List.length l)%nat
    ∧ scan Code l = scan Code l1 ∧ starts l1.
Proof.
  revert s l. induction fuel as [|fuel IH]; intros s l Hat Hlen; [lia|].
  cbn [skipWhitespaceAndComments]. destruct l as [|u rest].
  - destruct (at_nil s Hat) as [-> _]. by exists s, [].
  - destruct (at_cons s u rest Hat) as (-> & -> & -> & Hnext). cbn [charIs].
    fold (blank u). destruct (blank u) eqn:Hblank.
    { destruct (IH (advance s) rest Hnext) as (s1 & l1 & H1 & H2 & H3 & H4 & H5 & H6).
      { cbn [List.length] in Hlen. lia. }
      exists s1, l1. split_and!; try done.
      - cbn [List.length]. lia.
      - by rewrite scan_blank. }
    destruct (isCh "/" u && charIs "/" (head rest)) eqn:Hline.
    { destruct rest as [|v rest']; [by rewrite andb_false_r in Hline|].
      cbn [head charIs] in Hline. apply andb_true_iff in Hline as [Hu Hv].
      destruct (skipLineComment_scan (fuel0 input) s (u :: v :: rest') Hat)
        as (s1 & l1 & H1 & H2 & H3 & H4 & Hshort & H5).
      { by eapply at_length. }
      rewrite H1. cbn [mbind option_bind].
      assert (isCh JS.newline u = false) as Hnl by chars.
      specialize (Hshort u (v :: rest') eq_refl Hnl).
      destruct (IH s1 l1 H3) as (s2 & l2 & G1 & G2 & G3 & G4 & G5 & G6).
      { lia. }
      exists s2, l2. split_and!; try done.
      - by rewrite G2, H2.
      - lia.
      - rewrite <- G5, <- H5. rewrite (scan_line u v) by done.
        cbn [scan]. assert (isCh JS.newline u = false) as -> by chars.
        assert (isCh JS.newline v = false) as -> by chars. done. }
    destruct (isCh "/" u && charIs "*" (head rest)) eqn:Hblock.
    { destruct rest as [|v rest']; [by rewrite andb_false_r in Hblock|].
      cbn [head charIs] in Hblock. apply andb_true_iff in Hblock as [Hu Hv].
      destruct (skipBlockComment_scan (fuel0 input) (advance (advance s)) rest')
        as (s1 & l1 & H1 & H2 & H3 & H4 & H5).
      { by apply (at_advance (advance s) (v :: rest')). }
      { eapply at_length. by apply (at_advance (advance s) (v :: rest')). }
      rewrite H1. cbn [mbind option_bind].
      destruct (IH s1 l1 H3) as (s2 & l2 & G1 & G2 & G3 & G4 & G5 & G6).
      { cbn [List.length] in Hlen. lia. }
      exists s2, l2. split_and!; try done.
      - by rewrite G2, H2.
      - cbn [List.length]. lia.
      - rewrite <- G5, <- H5. by apply scan_block. }
    exists s, (u :: rest). split_and!; try done.
Qed.


Lemma readStringLoop_scan (fuel : nat) (quote : nat) (value : list nat)
    (s : state) (l : list nat) :
  at_ s l → (List.length l < fuel)%nat →
  ∃ value' s1 l1,
    readStringLoop input fuel quote value s = Some (value', s1)
    ∧ tokens s1 = tokens s ∧ at_ (advance s1) l1
    ∧ (List.length l1 ≤ List.length l)%nat
    ∧ scan (Literal quote) l = scan Code l1.
Proof.
  revert value s l. induction fuel as [|fuel IH]; intros value s l Hat Hlen; [lia|].
  cbn [readStringLoop]. destruct l as [|u rest].
  - destruct (at_nil s Hat) as [-> _]. exists value, s, []. split_and!; try done.
    by apply at_advance_nil.
  - destruct (at_cons s u rest Hat) as (-> & Hcur & _ & Hnext). rewrite Hcur.
    cbn [andb unitIs charIs].
    destruct (Nat.eqb_spec u quote) as [->|Hne]; cbn [negb].
    + exists value, s, rest. split_and!; try done.
      * cbn [List.length]. lia.
      * cbn [scan]. by rewrite Nat.eqb_refl.
    + destruct (isCh JS.backslash u) eqn:Hback.
      * destruct (IH (plusChar value (current input (advance s))) (advance (advance s))
                    (tail rest))
          as (v' & s1 & l1 & H1 & H2 & H3 & H4 & H5).
        { by apply at_advance. }
        { cbn [List.length] in Hlen. destruct rest; cbn [tail List.length] in *; lia. }
        exists v', s1, l1. split_and!; try done.
        -- cbn [List.length]. destruct rest; cbn [tail List.length] in *; lia.
        -- rewrite <- H5. cbn [scan].
           destruct (Nat.eqb_spec u quote); [done|]. rewrite Hback.
           by destruct rest.
      * destruct (IH (plusChar value (Some u)) (advance s) rest Hnext)
          as (v' & s1 & l1 & H1 & H2 & H3 & H4 & H5).
        { cbn [List.length] in Hlen. lia. }
        exists v', s1, l1. split_and!; try done.
        -- cbn [List.length]. lia.
        -- rewrite <- H5. cbn [scan].
           destruct (Nat.eqb_spec u quote); [done|]. by rewrite Hback.
Qed.

(** A loop that passes the characters [p] holds and adds them to
    [value]: what [readNumber] and [readIdentifier] run. *)
Lemma readNumberLoop_scan (fuel : nat) (value : list nat) (s : state) (l : list nat) :
  at_ s l → (List.length l < fuel)%nat →
  ∃ value' s1 l1,
    readNumberLoop input fuel value s = Some (value', s1)
    ∧ tokens s1 = tokens s ∧ at_ s1 l1
    ∧ (List.length l1 ≤ List.length l)%nat
    ∧ (numberChar (head l) = true → (List.length l1 < List.length l)%nat)
    ∧ scan Code l = scan Code l1.
Proof.
  revert value s l. induction fuel as [|fuel IH]; intros value s l Hat Hlen; [lia|].
  cbn [readNumberLoop]. destruct l as [|u rest].
  - destruct (at_nil s Hat) as [-> _]. by exists value, s, [].
  - destruct (at_cons s u rest Hat) as (-> & Hcur & _ & Hnext). rewrite Hcur.
    cbn [andb head]. destruct (numberChar (Some u)) eqn:Hu.
    + destruct (IH (plusChar value (Some u)) (advance s) rest Hnext)
        as (v' & s1 & l1 & H1 & H2 & H3 & H4 & _ & H5).
      { cbn [List.length] in Hlen. lia. }
      exists v', s1, l1. split_and!; try done.
      * cbn [List.length]. lia.
      * intros _. cbn [List.length]. lia.
      * rewrite <- H5. apply scan_recognized. by chars.
    + by exists value, s, (u :: rest).
Qed.

Lemma readIdentifierLoop_scan (fuel : nat) (value : list nat) (s : state) (l : list nat) :
  at_ s l → (List.length l < fuel)%nat →
  ∃ value' s1 l1,
    readIdentifierLoop input fuel value s = Some (value', s1)
    ∧ tokens s1 = tokens s ∧ at_ s1 l1
    ∧ (List.length l1 ≤ List.length l)%nat
    ∧ (identChar (head l) = true → (List.length l1 < List.length l)%nat)
    ∧ scan Code l = scan Code l1.
Proof.
  revert value s l. induction fuel as [|fuel IH]; intros value s l Hat Hlen; [lia|].
  cbn [readIdentifierLoop]. destruct l as [|u rest].
  - destruct (at_nil s Hat) as [-> _]. by exists value, s, [].
  - destruct (at_cons s u rest Hat) as (-> & Hcur & _ & Hnext). rewrite Hcur.
    cbn [andb head]. destruct (identChar (Some u)) eqn:Hu.
    + destruct (IH (plusChar value (Some u)) (advance s) rest Hnext)
        as (v' & s1 & l1 & H1 & H2 & H3 & H4 & _ & H5).
      { cbn [List.length] in Hlen. lia. }
      exists v', s1, l1. split_and!; try done.
      * cbn [List.length]. lia.
      * intros _. cbn [List.length]. lia.
      * rewrite <- H5. apply scan_recognized. by chars.
    + by exists value, s, (u :: rest).
Qed.

(** *** One token *)

Lemma unknowns_app (l1 l2 : list Token.t) : unknowns (l1 ++ l2) = unknowns l1 ++ unknowns l2.
Proof. unfold unknowns. by rewrite filter_app, map_app. Qed.

Lemma unknowns_one (tok : Token.t) :
  unknowns [tok] = if decide (Token.type tok = UNKNOWN) then [Token.value tok] else [].
Proof.
  unfold unknowns. rewrite filter_cons, filter_nil. by destruct (decide _).
Qed.

Lemma punctuation_scan (u : nat) (s : state) (rest : list nat) :
  at_ s (u :: rest) → starts (u :: rest) →
  isCh JS.newline u = false → isQuote u = false → isDigit u = false →
  isAlpha u || isCh "_" u = false →
  ∃ l2 new,
    tokens (punctuation input u s) = tokens s ++ new
    ∧ Forall (λ tok, Token.type tok ≠ EOF) new
    ∧ at_ (punctuation input u s) l2
    ∧ (List.length l2 < List.length (u :: rest))%nat
    ∧ unknowns new ++ map single (scan Code l2) = map single (scan Code (u :: rest)).
Proof.
  intros Hat (Hblank & Hline & Hblock) Hnl Hq Hd Ha.
  destruct (at_cons s u rest Hat) as (_ & _ & Hpeek & Hnext).
  assert (∀ ty v, ty ≠ UNKNOWN → ty ≠ EOF → recognized u = true →
                  ∃ l2 new,
                    tokens (emit ty v s) = tokens s ++ new
                    ∧ Forall (λ tok, Token.type tok ≠ EOF) new
                    ∧ at_ (emit ty v s) l2
                    ∧ (List.length l2 < List.length (u :: rest))%nat
                    ∧ unknowns new ++ map single (scan Code l2)
                      = map single (scan Code (u :: rest))) as Hemit.
  { intros ty v Hty Heof Hrec. exists rest, [makeToken ty v s]. split_and!; try done.
    - by repeat constructor.
    - cbn [List.length]. lia.
    - rewrite unknowns_one. cbn [makeToken Token.type].
      destruct (decide (ty = UNKNOWN)); [done|]. by rewrite scan_recognized. }
  unfold punctuation.
  destruct (isCh "{" u) eqn:E1; [apply Hemit; [done | done | by chars]|].
  destruct (isCh "}" u) eqn:E2; [apply Hemit; [done | done | by chars]|].
  destruct (isCh "[" u) eqn:E3; [apply Hemit; [done | done | by chars]|].
  destruct (isCh "]" u) eqn:E4; [apply Hemit; [done | done | by chars]|].
  destruct (isCh "(" u) eqn:E5; [apply Hemit; [done | done | by chars]|].
  destruct (isCh ")" u) eqn:E6; [apply Hemit; [done | done | by chars]|].
  destruct (isCh "," u) eqn:E7; [apply Hemit; [done | done | by chars]|].
  destruct (isCh ":" u) eqn:E8; [apply Hemit; [done | done | by chars]|].
  destruct (isCh "." u) eqn:E9; [apply Hemit; [done | done | by chars]|].
  destruct (isCh "-" u) eqn:E10; [apply Hemit; [done | done | by chars]|].
  destruct (isCh "<" u) eqn:E11.
  { rewrite Hpeek. destruct (charIs ">" (head rest)) eqn:Hgt; [|apply Hemit; [done | done | by chars]].
    destruct rest as [|v rest']; [done|]. cbn [head charIs] in Hgt.
    exists rest', [makeToken REL_MANY_TO_MANY (ofString "<>") s]. split_and!; try done.
    - by repeat constructor.
    - by apply (at_advance (advance s) (v :: rest')).
    - cbn [List.length]. lia.
    - rewrite unknowns_one. cbn [makeToken Token.type].
      destruct (decide _); [done|]. cbn [app].
      rewrite scan_recognized by chars. rewrite scan_recognized by chars. done. }
  destruct (isCh ">" u) eqn:E12; [apply Hemit; [done | done | by chars]|].
  exists rest, [makeToken UNKNOWN [u] s]. split_and!; try done.
  - by repeat constructor.
  - cbn [List.length]. lia.
  - rewrite unknowns_one. cbn [makeToken Token.type Token.value].
    destruct (decide _); [|done]. rewrite scan_stray; try done. by chars.
Qed.

Lemma scanToken_scan (u : nat) (s : state) (rest : list nat) :
  at_ s (u :: rest) → starts (u :: rest) →
  ∃ s2 l2 new,
    scanToken input u s = Some s2
    ∧ tokens s2 = tokens s ++ new
    ∧ Forall (λ tok, Token.type tok ≠ EOF) new
    ∧ at_ s2 l2
    ∧ (List.length l2 < List.length (u :: rest))%nat
    ∧ unknowns new ++ map single (scan Code l2) = map single (scan Code (u :: rest)).
Proof.
  intros Hat Hstarts.
  destruct (at_cons s u rest Hat) as (_ & Hcur & Hpeek & Hnext).
  unfold scanToken.
  destruct (isCh JS.newline u) eqn:Hnl.
  { eexists _, rest, [_]. split; [reflexivity|]. split_and!; try done.
    - by repeat constructor.
    - cbn [List.length]. lia.
    - rewrite unknowns_one. cbn [makeToken Token.type].
      destruct (decide _); [done|]. rewrite scan_recognized by chars. done. }
  destruct (isQuote u) eqn:Hq.
  { unfold readString.
    destruct (readStringLoop_scan (fuel0 input) u [] (advance s) rest Hnext)
      as (v' & s1 & l1 & H1 & H2 & H3 & H4 & H5).
    { by eapply at_length. }
    rewrite H1. cbn [mbind option_bind].
    eexists _, l1, [_]. split; [reflexivity|]. split_and!.
    - cbn [push tokens advance]. by rewrite H2.
    - by repeat constructor.
    - exact H3.
    - cbn [List.length]. lia.
    - rewrite unknowns_one. cbn [Token.type]. destruct (decide _); [done|].
      rewrite scan_quote by done. by rewrite H5. }
  destruct (isDigit u) eqn:Hd.
  { unfold readNumber.
    destruct (readNumberLoop_scan (fuel0 input) [] s (u :: rest) Hat)
      as (v' & s1 & l1 & H1 & H2 & H3 & H4 & H5 & H6).
    { by eapply at_length. }
    rewrite H1. cbn [mbind option_bind].
    eexists _, l1, [_]. split; [reflexivity|]. split_and!.
    - cbn [push tokens]. by rewrite H2.
    - by repeat constructor.
    - exact H3.
    - apply H5. by chars.
    - rewrite unknowns_one. cbn [Token.type]. destruct (decide _); [done|].
      by rewrite H6. }
  destruct (isAlpha u || isCh "_" u) eqn:Ha.
  { unfold readIdentifier.
    destruct (readIdentifierLoop_scan (fuel0 input) [] s (u :: rest) Hat)
      as (v' & s1 & l1 & H1 & H2 & H3 & H4 & H5 & H6).
    { by eapply at_length. }
    rewrite H1. cbn [mbind option_bind].
    assert (keywordOrIdentifier v' ≠ UNKNOWN ∧ keywordOrIdentifier v' ≠ EOF) as [Hty Heof].
    { unfold keywordOrIdentifier. destruct (narrow v') as [w|]; [|done].
      unfold Lexer.keywordOrIdentifier.
      destruct (Lexer.KEYWORDS !! w) as [ty|] eqn:Hk.
      - pose proof (KEYWORDS_range _ _ Hk). split; intros ->; set_solver.
      - by destruct (JS.inherited w). }
    eexists _, l1, [_]. split; [reflexivity|]. split_and!.
    - cbn [push tokens]. by rewrite H2.
    - by repeat constructor.
    - exact H3.
    - apply H5. by chars.
    - rewrite unknowns_one. cbn [Token.type]. destruct (decide _); [done|].
      by rewrite H6. }
  destruct (punctuation_scan u s rest Hat Hstarts Hnl Hq Hd Ha) as (l2 & new & H).
  by exists (punctuation input u s), l2, new.
Qed.

(** *** The whole loop *)

Lemma tokenizeLoop_scan (fuel : nat) (s : state) (l : list nat) :
  at_ s l → (List.length l < fuel)%nat →
  ∃ s' new,
    tokenizeLoop input fuel s = Some s'
    ∧ tokens s' = tokens s ++ new
    ∧ Forall (λ tok, Token.type tok ≠ EOF) new
    ∧ unknowns new = map single (scan Code l).
Proof.
  revert s l. induction fuel as [|fuel IH]; intros s l Hat Hlen; [lia|].
  cbn [tokenizeLoop]. destruct l as [|u rest].
  { destruct (at_nil s Hat) as [-> _]. exists s, []. by rewrite app_nil_r. }
  destruct (at_cons s u rest Hat) as (-> & _).
  destruct (skipWhitespaceAndComments_scan (fuel0 input) s (u :: rest) Hat)
    as (s1 & l1 & H1 & H2 & H3 & H4 & H5 & H6).
  { by eapply at_length. }
  rewrite H1. cbn [mbind option_bind]. destruct l1 as [|u1 rest1].
  { destruct (at_nil s1 H3) as [_ ->]. exists s1, []. by rewrite H2, H5, app_nil_r. }
  destruct (at_cons s1 u1 rest1 H3) as (_ & -> & _).
  destruct (scanToken_scan u1 s1 rest1 H3 H6)
    as (s2 & l2 & new & G1 & G2 & Gnew & G3 & G4 & G5).
  rewrite G1. cbn [mbind option_bind].
  destruct (IH s2 l2 G3) as (s' & new' & F1 & F2 & Fnew & F3); [lia|].
  exists s', (new ++ new'). split_and!.
  - done.
  - by rewrite F2, G2, H2, <- app_assoc.
  - by apply Forall_app.
  - by rewrite unknowns_app, F3, G5, H5.
Qed.

End UnitsLexer.

(** C5. On every string [tokenize] returns a token list.  The list ends
    with an [EOF] token of empty value, the only [EOF] token in it.  Its
    [UNKNOWN] tokens are, in order, the characters of the input that are
    not blank, not in a comment and not in a string literal, and that no
    other token begins or continues: one token for each, holding it. *)
Theorem tokenize_total_unknown_eof (input : list nat) :
  ∃ front l c,
    Units.tokenize input = Some (front ++ [Units.Token.mk EOF [] l c])%list
    ∧ Forall (λ tok, Units.Token.type tok ≠ EOF) front
    ∧ Stray.unknowns front = map Stray.single (Stray.strays input).
Proof.
  destruct (tokenizeLoop_scan input (Units.fuel0 input) Units.init input)
    as (s & new & H1 & H2 & H3 & H4).
  { done. }
  { unfold Units.fuel0, Units.len. lia. }
  exists new, (Units.line s), (Units.column s). unfold Units.tokenize.
  rewrite H1. cbn [mbind option_bind]. unfold Units.finish, Units.push, Units.makeToken.
  cbn [Units.tokens]. rewrite H2. done.
Qed.

(** A text with the letter lambda (code unit 955) in the program, in a
    comment and in a string. *)
Example tokenize_strays :
  let input := (Units.ofString "a #" ++ [955] ++ Units.ofString " 'x#" ++ [955]
                ++ Units.ofString "' // # " ++ [955; 10] ++ Units.ofString "/ 1")%list in
  Stray.strays input = [35; 955; 47]
  ∧ option_map (map (λ tok, (Units.Token.type tok, Units.Token.value tok)))
      (Units.tokenize input)
    = Some [ (IDENTIFIER, [97]); (UNKNOWN, [35]); (UNKNOWN, [955]);
             (STRING, [120; 35; 955]); (NEWLINE, [10]); (UNKNOWN, [47]);
             (NUMBER, [49]); (EOF, []) ].
Proof. vm_compute. done. Qed.

(** ** The two lexers agree *)

(** A token and a state of [Lexer] as [Units] has them. *)
Definition widenToken (tok : Token.t) : Units.Token.t :=
  {| Units.Token.type := Token.type tok;
     Units.Token.value := Units.ofString (Token.value tok);
     Units.Token.line := Token.line tok;
     Units.Token.column := Token.column tok |}.

Definition widen (s : Lexer.state) : Units.state :=
  {| Units.pos := Lexer.pos s; Units.line := Lexer.line s;
     Units.column := Lexer.column s;
     Units.tokens := map widenToken (Lexer.tokens s) |}.

Section LexersAgree.
Import Units.
Local Open Scope list_scope.

Lemma ofString_length (s : string) : List.length (ofString s) = String.length s.
Proof. induction s as [|c s IH]; [done|]. cbn. by rewrite IH. Qed.

Lemma ofString_lookup (s : string) (n : nat) : ofString s !! n = code <$> String.get n s.
Proof.
  revert n. induction s as [|c s IH]; intros n; [by destruct n|].
  destruct n as [|n]; [done|]. cbn. apply IH.
Qed.

Lemma ofString_app (a b : string) : ofString (a ++ b)%string = ofString a ++ ofString b.
Proof.
  induction a as [|c a IH]; [done|].
  change (code c :: ofString (a ++ b)%string = code c :: (ofString a ++ ofString b)).
  by rewrite IH.
Qed.

Lemma isCh_code (c d : ascii) : isCh c (code d) = Ascii.eqb d c.
Proof.
  unfold isCh, code. destruct (Ascii.eqb_spec d c) as [->|Hne].
  - apply Nat.eqb_refl.
  - apply Nat.eqb_neq. intros H. apply Hne.
    by rewrite <- (ascii_nat_embedding d), H, ascii_nat_embedding.
Qed.

Lemma charIs_code (c : ascii) (x : option ascii) :
  charIs c (code <$> x) = Lexer.charIs c x.
Proof. destruct x as [d|]; [apply isCh_code | done]. Qed.

Lemma plusChar_code (v : string) (x : option ascii) :
  plusChar (ofString v) (code <$> x) = ofString (JS.plusChar v x).
Proof. destruct x as [c|]; cbn; by rewrite ofString_app. Qed.

Lemma narrow_ofString (v : string) : narrow (ofString v) = Some v.
Proof.
  induction v as [|c v IH]; [done|]. cbn [ofString narrow]. rewrite IH.
  unfold code. pose proof (nat_ascii_bounded c) as Hc.
  destruct (Nat.ltb_spec (nat_of_ascii c) 256); [|lia].
  cbn. by rewrite ascii_nat_embedding.
Qed.

Variable input : string.

Local Abbreviation wide := (ofString input).

Lemma fuel0_widen : fuel0 wide = Lexer.fuel0 input.
Proof. unfold fuel0, Lexer.fuel0, len, Lexer.len. by rewrite ofString_length. Qed.

Lemma inBounds_widen (s : Lexer.state) : inBounds wide (widen s) = Lexer.inBounds input s.
Proof. unfold inBounds, Lexer.inBounds, len, Lexer.len. by rewrite ofString_length. Qed.

Lemma current_widen (s : Lexer.state) :
  current wide (widen s) = code <$> Lexer.current input s.
Proof. apply ofString_lookup. Qed.

Lemma peek_widen (s : Lexer.state) : peek wide (widen s) = code <$> Lexer.peek input s.
Proof. apply ofString_lookup. Qed.

Lemma push_widen tok (s : Lexer.state) :
  push (widenToken tok) (widen s) = widen (Lexer.push tok s).
Proof. unfold push, widen. cbn. by rewrite map_app. Qed.

Lemma emit_widen (ty : TokenType) (v : string) (s : Lexer.state) :
  emit ty (ofString v) (widen s) = widen (Lexer.emit ty v s).
Proof. unfold emit, Lexer.emit, advance, push, widen. cbn. by rewrite map_app. Qed.

Lemma skipLineComment_widen (fuel : nat) (s : Lexer.state) :
  skipLineComment wide fuel (widen s) = widen <$> Lexer.skipLineComment input fuel s.
Proof.
  revert s. induction fuel as [|fuel IH]; intros s; [done|].
  cbn [skipLineComment Lexer.skipLineComment].
  rewrite inBounds_widen, current_widen, charIs_code.
  destruct (_ && _); [apply (IH (Lexer.advance s)) | done].
Qed.

Lemma skipBlockComment_widen (fuel : nat) (s : Lexer.state) :
  skipBlockComment wide fuel (widen s) = widen <$> Lexer.skipBlockComment input fuel s.
Proof.
  revert s. induction fuel as [|fuel IH]; intros s; [done|].
  cbn [skipBlockComment Lexer.skipBlockComment].
  rewrite inBounds_widen, current_widen, peek_widen, !charIs_code.
  destruct (Lexer.inBounds input s); [|done].
  destruct (_ && _); [done|].
  destruct (Lexer.charIs JS.newline _);
    [apply (IH (Lexer.advance (Lexer.newlineInComment s))) | apply (IH (Lexer.advance s))].
Qed.

Lemma skipWhitespaceAndComments_widen (fuel : nat) (s : Lexer.state) :
  skipWhitespaceAndComments wide fuel (widen s)
  = widen <$> Lexer.skipWhitespaceAndComments input fuel s.
Proof.
  revert s. induction fuel as [|fuel IH]; intros s; [done|].
  cbn [skipWhitespaceAndComments Lexer.skipWhitespaceAndComments].
  rewrite inBounds_widen, current_widen, peek_widen, !charIs_code.
  destruct (Lexer.inBounds input s); [|done].
  destruct (_ || _); [apply (IH (Lexer.advance s))|].
  destruct (_ && _).
  { rewrite fuel0_widen, skipLineComment_widen.
    destruct (Lexer.skipLineComment input _ s) as [s1|]; [apply IH | done]. }
  destruct (_ && _); [|done].
  rewrite fuel0_widen.
  change (advance (advance (widen s))) with (widen (Lexer.advance (Lexer.advance s))).
  rewrite skipBlockComment_widen.
  destruct (Lexer.skipBlockComment input _ _) as [s1|]; [apply IH | done].
Qed.

Definition widenValue (r : string * Lexer.state) : list nat * state :=
  (ofString (fst r), widen (snd r)).

Lemma readStringLoop_widen (fuel : nat) (quote : ascii) (v : string) (s : Lexer.state) :
  readStringLoop wide fuel (code quote) (ofString v) (widen s)
  = widenValue <$> Lexer.readStringLoop input fuel quote v s.
Proof.
  revert v s. induction fuel as [|fuel IH]; intros v s; [done|].
  cbn [readStringLoop Lexer.readStringLoop].
  rewrite inBounds_widen, current_widen, charIs_code.
  assert (unitIs (code quote) (code <$> Lexer.current input s)
          = Lexer.charIs quote (Lexer.current input s)) as ->.
  { destruct (Lexer.current input s) as [d|]; [apply isCh_code | done]. }
  destruct (_ && _); [|done].
  destruct (Lexer.charIs JS.backslash _).
  - change (advance (widen s)) with (widen (Lexer.advance s)).
    rewrite current_widen, plusChar_code.
    apply (IH _ (Lexer.advance (Lexer.advance s))).
  - rewrite plusChar_code. apply (IH _ (Lexer.advance s)).
Qed.

Lemma readNumberLoop_widen (fuel : nat) (v : string) (s : Lexer.state) :
  readNumberLoop wide fuel (ofString v) (widen s)
  = widenValue <$> Lexer.readNumberLoop input fuel v s.
Proof.
  revert v s. induction fuel as [|fuel IH]; intros v s; [done|].
  cbn [readNumberLoop Lexer.readNumberLoop].
  rewrite inBounds_widen, current_widen.
  assert (numberChar (code <$> Lexer.current input s)
          = Lexer.numberChar (Lexer.current input s)) as ->.
  { destruct (Lexer.current input s) as [d|]; [|done]. cbn. by rewrite isCh_code. }
  destruct (_ && _); [|done].
  rewrite plusChar_code. apply (IH _ (Lexer.advance s)).
Qed.

Lemma readIdentifierLoop_widen (fuel : nat) (v : string) (s : Lexer.state) :
  readIdentifierLoop wide fuel (ofString v) (widen s)
  = widenValue <$> Lexer.readIdentifierLoop input fuel v s.
Proof.
  revert v s. induction fuel as [|fuel IH]; intros v s; [done|].
  cbn [readIdentifierLoop Lexer.readIdentifierLoop].
  rewrite inBounds_widen, current_widen.
  assert (identChar (code <$> Lexer.current input s)
          = Lexer.identChar (Lexer.current input s)) as ->.
  { destruct (Lexer.current input s) as [d|]; [|done]. cbn.
    unfold isAlphaNumeric, JS.isAlphaNumeric. by rewrite isCh_code. }
  destruct (_ && _); [|done].
  rewrite plusChar_code. apply (IH _ (Lexer.advance s)).
Qed.

Lemma punctuation_widen (ch : ascii) (s : Lexer.state) :
  punctuation wide (code ch) (widen s) = widen (Lexer.punctuation input ch s).
Proof.
  unfold punctuation. rewrite !isCh_code, peek_widen, charIs_code.
  destruct ch as [[] [] [] [] [] [] [] []];
    unfold Lexer.punctuation; cbv beta iota;
    repeat match goal with
           | |- context [Ascii.eqb ?a ?b] =>
               let r := eval vm_compute in (Ascii.eqb a b) in
               change (Ascii.eqb a b) with r
           end;
    cbv beta iota;
    first [ exact (emit_widen _ (JS.str _) s)
          | exact (emit_widen _ _ s)
          | destruct (Lexer.charIs ">" (Lexer.peek input s));
            [ exact (f_equal advance (emit_widen _ _ s)) | exact (emit_widen _ _ s) ] ].
Qed.

Lemma keywordOrIdentifier_widen (v : string) :
  keywordOrIdentifier (ofString v) = Lexer.keywordOrIdentifier v.
Proof. unfold keywordOrIdentifier. by rewrite narrow_ofString. Qed.

Lemma scanToken_widen (ch : ascii) (s : Lexer.state) :
  scanToken wide (code ch) (widen s) = widen <$> Lexer.scanToken input ch s.
Proof.
  unfold scanToken, Lexer.scanToken.
  rewrite isCh_code. destruct (Ascii.eqb ch JS.newline).
  { cbn. unfold widen. cbn. by rewrite map_app. }
  assert (isQuote (code ch) = Lexer.isQuote ch) as ->.
  { unfold isQuote, Lexer.isQuote. by rewrite !isCh_code. }
  destruct (Lexer.isQuote ch).
  { unfold readString, Lexer.readString. rewrite fuel0_widen.
    change (advance (widen s)) with (widen (Lexer.advance s)).
    rewrite (readStringLoop_widen _ ch EmptyString).
    destruct (Lexer.readStringLoop input _ ch _ _) as [[v s1]|]; [|done].
    cbn. unfold widen. cbn. by rewrite map_app. }
  change (isDigit (code ch)) with (JS.isDigit ch). destruct (JS.isDigit ch).
  { unfold readNumber, Lexer.readNumber. rewrite fuel0_widen.
    rewrite (readNumberLoop_widen _ EmptyString).
    destruct (Lexer.readNumberLoop input _ _ _) as [[v s1]|]; [|done].
    cbn. unfold widen. cbn. by rewrite map_app. }
  change (isAlpha (code ch)) with (JS.isAlpha ch). rewrite isCh_code.
  destruct (_ || _).
  { unfold readIdentifier, Lexer.readIdentifier. rewrite fuel0_widen.
    rewrite (readIdentifierLoop_widen _ EmptyString).
    destruct (Lexer.readIdentifierLoop input _ _ _) as [[v s1]|]; [|done].
    cbn. unfold widen. cbn. rewrite map_app. cbn. unfold widenToken at 2. cbn.
    by rewrite keywordOrIdentifier_widen. }
  cbn. by rewrite punctuation_widen.
Qed.

Lemma tokenizeLoop_widen (fuel : nat) (s : Lexer.state) :
  tokenizeLoop wide fuel (widen s) = widen <$> Lexer.tokenizeLoop input fuel s.
Proof.
  revert s. induction fuel as [|fuel IH]; intros s; [done|].
  cbn [tokenizeLoop Lexer.tokenizeLoop].
  rewrite inBounds_widen. destruct (Lexer.inBounds input s); [|done].
  rewrite fuel0_widen, skipWhitespaceAndComments_widen.
  destruct (Lexer.skipWhitespaceAndComments input _ s) as [s1|]; [|done].
  cbn [fmap option_fmap option_map mbind option_bind].
  rewrite current_widen. destruct (Lexer.current input s1) as [ch|]; [|done].
  cbn [fmap option_fmap option_map]. rewrite scanToken_widen.
  destruct (Lexer.scanToken input ch s1) as [s2|]; [apply IH | done].
Qed.

End LexersAgree.

(** On a string whose code units are below 256, the lexer the parser is
    modelled on gives the tokens of the lexer on any string. *)
Lemma tokenize_widen (input : string) :
  Units.tokenize (Units.ofString input) = map widenToken <$> Lexer.tokenize input.
Proof.
  unfold Units.tokenize, Lexer.tokenize.
  rewrite fuel0_widen. change Units.init with (widen Lexer.init).
  rewrite tokenizeLoop_widen.
  destruct (Lexer.tokenizeLoop input _ _) as [s|]; [|done].
  cbn. unfold Units.finish, Lexer.finish. cbn. by rewrite map_app.
Qed.

(** An input of [Lexer] with an unrecognised character. *)
Example tokenize_unknown_example :
  Lexer.tokenize "a # b"
  = Some [tk IDENTIFIER "a" 1 1; tk UNKNOWN "#" 1 3; tk IDENTIFIER "b" 1 5;
          tk EOF EmptyString 1 6].
Proof. vm_compute. reflexivity. Qed.

(** ** Lexer: the shape of numbers *)

(** C6. The lexer reads "1.2.3" as one NUMBER token, and that value does
    not match [[0-9]+(\.[0-9]+)?]: [readNumber] takes digits and dots in
    any order. *)
Theorem readNumber_accepts_many_dots :
  Lexer.tokenize "1.2.3" = Some [tk NUMBER "1.2.3" 1 1; tk EOF EmptyString 1 6]
  ∧ Spec.matchesNumber "1.2.3" = false
  ∧ Lexer.tokenize "7." = Some [tk NUMBER "7." 1 1; tk EOF EmptyString 1 3]
  ∧ Spec.matchesNumber "7." = false.
Proof. vm_compute. done. Qed.

Example matchesNumber_examples :
  Spec.matchesNumber "123" = true ∧ Spec.matchesNumber "45.67" = true
  ∧ Spec.matchesNumber EmptyString = false ∧ Spec.matchesNumber ".5" = false
  ∧ Spec.matchesNumber "1.5x" = false.
Proof. vm_compute. done. Qed.

(** ** Parser: which loops end *)

Section ParserTermination.
Import Parser.
Variable tokens : list Token.t.

(** [m] does not run out of fuel and does not move backwards. *)
Definition safe {A : Type} (m : P A) : Prop :=
  ∀ pos, m pos ≠ OutOfFuel ∧ ∀ a p, m pos = Ok (a, p) → pos ≤ p.

(** [m] does not run out of fuel and passes a token when it returns. *)
Definition consuming {A : Type} (m : P A) : Prop :=
  ∀ pos, m pos ≠ OutOfFuel ∧ ∀ a p, m pos = Ok (a, p) → pos < p.

(** The condition of a loop: it only reads, and holds only at a token. *)
Definition guard (c : P bool) : Prop :=
  ∀ pos, ∃ b, c pos = Ok (b, pos) ∧ (b = true → pos < List.length tokens).

Create HintDb parser.

Lemma consuming_safe {A} (m : P A) : consuming m → safe m.
Proof. intros H pos. destruct (H pos) as [H1 H2]. split; [done|]. intros a p E. apply H2 in E. lia. Qed.

Lemma safe_ret {A} (a : A) : safe (ret a).
Proof. intros pos. split; [done|]. intros a' p [= _ <-]. done. Qed.

Lemma safe_throw {A} (e : Exn) : safe (@throw A e).
Proof. intros pos. split; done. Qed.

Lemma safe_current : safe (current tokens).
Proof. intros pos. split; [done|]. intros a p [= _ <-]. done. Qed.

Lemma safe_peekNext : safe (peekNext tokens).
Proof. intros pos. split; [done|]. intros a p [= _ <-]. done. Qed.

Lemma safe_isAtEnd : safe (isAtEnd tokens).
Proof. intros pos. split; [done|]. intros a p [= _ <-]. done. Qed.

Lemma consuming_advance : consuming (advance tokens).
Proof. intros pos. split; [done|]. intros a p [= _ <-]. lia. Qed.

Lemma consuming_expect (ty : TokenType) : consuming (expect tokens ty).
Proof.
  intros pos. unfold expect. destruct (tokens !! pos) as [tok|]; [|done].
  destruct (decide _); [|done]. split; [done|]. intros a p [= _ <-]. lia.
Qed.

Lemma safe_bind {A B} (m : P A) (k : A → P B) :
  safe m → (∀ a, safe (k a)) → safe (bind m k).
Proof.
  intros Hm Hk pos. unfold bind. destruct (Hm pos) as [H1 H2].
  destruct (m pos) as [[a p]| |]; [|done..].
  destruct (Hk a p) as [H3 H4]. split; [done|].
  intros b q E. apply H4 in E. specialize (H2 a p eq_refl). lia.
Qed.

Lemma consuming_bind_l {A B} (m : P A) (k : A → P B) :
  consuming m → (∀ a, safe (k a)) → consuming (bind m k).
Proof.
  intros Hm Hk pos. unfold bind. destruct (Hm pos) as [H1 H2].
  destruct (m pos) as [[a p]| |]; [|done..].
  destruct (Hk a p) as [H3 H4]. split; [done|].
  intros b q E. apply H4 in E. specialize (H2 a p eq_refl). lia.
Qed.

Lemma consuming_bind_r {A B} (m : P A) (k : A → P B) :
  safe m → (∀ a, consuming (k a)) → consuming (bind m k).
Proof.
  intros Hm Hk pos. unfold bind. destruct (Hm pos) as [H1 H2].
  destruct (m pos) as [[a p]| |]; [|done..].
  destruct (Hk a p) as [H3 H4]. split; [done|].
  intros b q E. apply H4 in E. specialize (H2 a p eq_refl). lia.
Qed.

Lemma guard_check (ty : TokenType) : guard (check tokens ty).
Proof.
  intros pos. eexists. split; [reflexivity|].
  unfold hasType. intros H. apply bool_decide_eq_true in H.
  destruct (tokens !! pos) eqn:E; [|done]. by eapply lookup_lt_Some.
Qed.

Lemma guard_continues (closing : TokenType) : guard (continues tokens closing).
Proof.
  intros pos. eexists. split; [reflexivity|].
  intros H. apply andb_true_iff in H as [_ H]. apply negb_true_iff in H.
  apply orb_false_iff in H as [_ H]. apply Nat.leb_gt in H. done.
Qed.

Lemma guard_safe (c : P bool) : guard c → safe c.
Proof.
  intros H pos. destruct (H pos) as (b & -> & _). split; [done|].
  intros a p [= _ <-]. done.
Qed.

(** A loop whose condition is a guard and whose body passes a token ends
    before the fuel does. *)
Lemma whileLoop_bounded {St} (cond : P bool) (body : St → P St) :
  guard cond → (∀ s, consuming (body s)) →
  ∀ fuel s pos,
    List.length tokens - pos < fuel →
    whileLoop fuel cond body s pos ≠ OutOfFuel
    ∧ ∀ a p, whileLoop fuel cond body s pos = Ok (a, p) → pos ≤ p.
Proof.
  intros Hc Hb. induction fuel as [|fuel IH]; intros s pos Hf; [lia|].
  assert (whileLoop (S fuel) cond body s pos
          = match cond pos with
            | Ok (true, p) =>
                match body s p with
                | Ok (s', p') => whileLoop fuel cond body s' p'
                | Throw e => Throw e
                | OutOfFuel => OutOfFuel
                end
            | Ok (false, p) => Ok (s, p)
            | Throw e => Throw e
            | OutOfFuel => OutOfFuel
            end) as ->.
  { cbn [whileLoop]. unfold bind. by destruct (cond pos) as [[[] p]| |]. }
  destruct (Hc pos) as (b & -> & Hin). destruct b.
  - specialize (Hin eq_refl). destruct (Hb s pos) as [H1 H2].
    destruct (body s pos) as [[s' p']| |]; [|done..].
    specialize (H2 s' p' eq_refl).
    destruct (IH s' p') as [H3 H4]; [lia|].
    split; [done|]. intros a p E. apply H4 in E. lia.
  - split; [done|]. intros a p [= _ <-]. done.
Qed.

Lemma safe_whileLoop {St} (cond : P bool) (body : St → P St) (s : St) :
  guard cond → (∀ s, consuming (body s)) →
  safe (whileLoop (fuel0 tokens) cond body s).
Proof.
  intros Hc Hb pos. apply whileLoop_bounded; [done..|]. unfold fuel0. lia.
Qed.

#[local] Hint Resolve safe_ret safe_throw safe_current safe_peekNext safe_isAtEnd
  consuming_advance consuming_expect guard_check guard_continues : parser.
#[local] Hint Extern 5 (safe _) => apply consuming_safe : parser.
#[local] Hint Extern 5 (safe _) => apply guard_safe : parser.

(** Splits a goal on the shape of the computation. *)
Ltac parser_step :=
  match goal with
  | |- ∀ _, _ => intro
  | |- safe (let _ := _ in _) => cbv zeta
  | |- consuming (let _ := _ in _) => cbv zeta
  | |- safe (bind _ _) => apply safe_bind
  | |- consuming (bind (expect _ _) _) => apply consuming_bind_l
  | |- consuming (bind (advance _) _) => apply consuming_bind_l
  | |- consuming (bind _ _) => apply consuming_bind_r
  | |- safe (whileLoop _ _ _ _) => apply safe_whileLoop
  | |- safe (when ?c _) => destruct c; unfold when
  | |- safe (if ?c then _ else _) => destruct c
  | |- consuming (if ?c then _ else _) => destruct c
  | |- safe (match ?x with _ => _ end) => destruct x
  | |- consuming (match ?x with _ => _ end) => destruct x
  end.

Ltac parser_safe := repeat first [ solve [auto with parser] | parser_step ].

Lemma safe_check (ty : TokenType) : safe (check tokens ty).
Proof. auto with parser. Qed.

Lemma safe_continues (closing : TokenType) : safe (continues tokens closing).
Proof. auto with parser. Qed.

Lemma safe_currentLower : safe (currentLower tokens).
Proof. unfold currentLower. parser_safe. Qed.

Lemma safe_skipOptional (ty : TokenType) : safe (skipOptional tokens ty).
Proof. unfold skipOptional. parser_safe. Qed.

Lemma safe_skipNewlines : safe (skipNewlines tokens).
Proof. unfold skipNewlines. parser_safe. Qed.

#[local] Hint Resolve safe_check safe_continues safe_currentLower safe_skipOptional
  safe_skipNewlines : parser.

Lemma safe_parseDefaultValue : safe (parseDefaultValue tokens).
Proof. unfold parseDefaultValue. parser_safe. Qed.

#[local] Hint Resolve safe_parseDefaultValue : parser.

Lemma safe_parseSetting (name : string) (settings : ColumnSettings.t) :
  safe (parseSetting tokens name settings).
Proof. unfold parseSetting. parser_safe. Qed.

#[local] Hint Resolve safe_parseSetting : parser.

Lemma consuming_settingStep (settings : ColumnSettings.t) :
  consuming (settingStep tokens settings).
Proof. unfold settingStep. parser_safe. Qed.

#[local] Hint Resolve consuming_settingStep : parser.

Lemma consuming_parseColumn : consuming (parseColumn tokens).
Proof. unfold parseColumn, parseSettings. parser_safe. Qed.

Lemma consuming_parseNote : consuming (parseNote tokens).
Proof. unfold parseNote. parser_safe. Qed.

Lemma consuming_indexColumnStep (columns : list string) :
  consuming (indexColumnStep tokens columns).
Proof. unfold indexColumnStep. parser_safe. Qed.

Lemma consuming_indexSettingStep (idx : Index.t) :
  consuming (indexSettingStep tokens idx).
Proof. unfold indexSettingStep. parser_safe. Qed.

#[local] Hint Resolve consuming_parseColumn consuming_parseNote
  consuming_indexColumnStep consuming_indexSettingStep : parser.

Lemma safe_parseIndex : safe (parseIndex tokens).
Proof. unfold parseIndex, parseIndexColumns, parseIndexSettings. parser_safe. Qed.

Lemma consuming_enumValueStep (values : list EnumValue.t) :
  consuming (enumValueStep tokens values).
Proof. unfold enumValueStep. parser_safe. Qed.

Lemma consuming_groupTableStep (tables : list string) :
  consuming (groupTableStep tokens tables).
Proof. unfold groupTableStep. parser_safe. Qed.

#[local] Hint Resolve consuming_enumValueStep consuming_groupTableStep : parser.

Lemma consuming_parseEnum : consuming (parseEnum tokens).
Proof. unfold parseEnum. parser_safe. Qed.

Lemma consuming_parseTableGroup : consuming (parseTableGroup tokens).
Proof. unfold parseTableGroup. parser_safe. Qed.

Lemma consuming_parseTableColumn : consuming (parseTableColumn tokens).
Proof. unfold parseTableColumn. parser_safe. Qed.

Lemma safe_parseRelationType : safe (parseRelationType tokens).
Proof. unfold parseRelationType. parser_safe. Qed.

#[local] Hint Resolve consuming_parseTableColumn safe_parseRelationType : parser.

Lemma consuming_parseRef : consuming (parseRef tokens).
Proof. unfold parseRef. parser_safe. Qed.

End ParserTermination.

(** The body of the loop over an [indexes] block passes no token when the
    current token opens neither a column list, a name nor settings: the
    loop then turns in place, whatever the fuel.  Seen on the tokens of
    [Table t { indexes { , } }], at the comma. *)
Example indexes_loop_does_not_end :
  ∀ fuel indexes,
    Parser.whileLoop fuel
      (Parser.continues
         [tk TABLE "Table" 1 1; tk IDENTIFIER "t" 1 7; tk LBRACE "{" 1 9;
          tk INDEXES "indexes" 1 11; tk LBRACE "{" 1 19; tk COMMA "," 1 21;
          tk RBRACE "}" 1 23; tk RBRACE "}" 1 25; tk EOF EmptyString 1 26]
         RBRACE)
      (Parser.indexStep
         [tk TABLE "Table" 1 1; tk IDENTIFIER "t" 1 7; tk LBRACE "{" 1 9;
          tk INDEXES "indexes" 1 11; tk LBRACE "{" 1 19; tk COMMA "," 1 21;
          tk RBRACE "}" 1 23; tk RBRACE "}" 1 25; tk EOF EmptyString 1 26])
      indexes 5
    = OutOfFuel.
Proof. induction fuel as [|fuel IH]; intros indexes; [done|]. apply IH. Qed.

Example indexes_loop_input :
  Lexer.tokenize "Table t { indexes { , } }"
  = Some [tk TABLE "Table" 1 1; tk IDENTIFIER "t" 1 7; tk LBRACE "{" 1 9;
          tk INDEXES "indexes" 1 11; tk LBRACE "{" 1 19; tk COMMA "," 1 21;
          tk RBRACE "}" 1 23; tk RBRACE "}" 1 25; tk EOF EmptyString 1 26]
  ∧ parseDSL "Table t { indexes { , } }" = OutOfFuel.
Proof. vm_compute. done. Qed.

(** ** Parser: where an unclosed bracket is reported *)

(** C7, the claim as stated fails: the error thrown for the unclosed
    settings bracket does not carry line 2. *)
Lemma unclosed_bracket_line_is_not_2 :
  Spec.errorLine (parseDSL Examples.unclosedBracket) ≠ Some 2.
Proof. vm_compute. discriminate. Qed.

(** C7, amended. [parseDSL] of the input with the unclosed settings bracket
    throws a ParserError whose line is 3: the loop over the settings passes
    the newline and the closing brace, and [expect('RBRACKET')] fails at
    the EOF token, which lies on line 3. *)
Theorem unclosed_bracket_reported_at_eof :
  parseDSL Examples.unclosedBracket
  = Throw (ParserError ("Expected RBRACKET but got EOF (" ++ quoted EmptyString ++ ")")
             3 2 (Some EmptyString))
  ∧ Spec.errorLine (parseDSL Examples.unclosedBracket) = Some 3.
Proof. vm_compute. done. Qed.

(** ** Parser: the operator of a Ref is not checked *)

(** C10. [parseRelationType] passes whatever token is current and throws
    no ParserError; a token that is none of the four relation operators
    gives the type one-to-many.  [parseDSL("Ref: a.b x c.d")] returns one
    relation, of type one-to-many. *)
Theorem parseRelationType_takes_any_token :
  (∀ tokens pos tok,
      tokens !! pos = Some tok →
      Token.type tok ∉ [REL_ONE_TO_ONE; REL_ONE_TO_MANY; REL_MANY_TO_ONE;
                        REL_MANY_TO_MANY] →
      Parser.parseRelationType tokens pos = Ok (one_to_many, S pos))
  ∧ Lexer.tokenize Examples.wordOperator = Some Examples.wordOperatorTokens
  ∧ parseDSL Examples.wordOperator
    = Ok (DatabaseSchema.mk None []
            [Relation.mk None (Endpoint.mk "a" "b") (Endpoint.mk "c" "d")
               one_to_many None]
            [] [] None).
Proof.
  split; [|by vm_compute].
  intros tokens pos tok Htok Hty.
  unfold Parser.parseRelationType, Parser.bind, Parser.current, Parser.advance,
    Parser.ret.
  rewrite Htok. do 2 f_equal.
  destruct (Token.type tok); try reflexivity; exfalso; apply Hty; set_solver.
Qed.

(** The identifier [x] in the operator position of the example. *)
Lemma parseRelationType_takes_any_token_witness :
  Parser.parseRelationType Examples.wordOperatorTokens 5 = Ok (one_to_many, 6).
Proof.
  apply (proj1 parseRelationType_takes_any_token Examples.wordOperatorTokens 5
           (tk IDENTIFIER "x" 1 10)).
  - reflexivity.
  - intros H. repeat (apply elem_of_cons in H as [H|H]; [discriminate H|]).
    by apply elem_of_nil in H.
Defined.

(** ** Grid layout: no two nodes overlap *)

Section GridLayout.
Import Layout.
Local Open Scope Z_scope.

Variable columns : nat.
Variable opts : Options.t.
Hypothesis padding0 : 0 ≤ Options.padding opts.
Hypothesis spacingX : 0 ≤ Options.nodeSpacingX opts.
Hypothesis spacingY : 0 ≤ Options.nodeSpacingY opts.

Local Abbreviation px n := (Point.x (TableNode.position n)).
Local Abbreviation py n := (Point.y (TableNode.position n)).
Local Abbreviation width n := (Size.width (TableNode.size n)).
Local Abbreviation height n := (Size.height (TableNode.size n)).

(** Where a node placed from the cursor [c] on can be: in the current
    row, at or right of the cursor, or in a row below the current one. *)
Definition after (c : cursor) (n : TableNode.t) : Prop :=
  (py n = y c ∧ x c ≤ px n)
  ∨ y c + rowHeight c + Options.nodeSpacingY opts ≤ py n.

Lemma placeAll_after (nodes : list TableNode.t) (c : cursor) (b : TableNode.t) :
  Forall Spec.positiveSize nodes →
  b ∈ Exact.placeAll columns opts c nodes → after c b.
Proof.
  revert c; induction nodes as [|node rest IH]; intros c Hpos Hb; simpl in Hb.
  { by apply elem_of_nil in Hb. }
  apply Forall_cons in Hpos as [[Hw Hh] Hpos].
  unfold Exact.place in Hb. destruct (columns <=? S (col c))%nat;
    apply elem_of_cons in Hb as [->|Hb]; try (left; simpl; lia);
    apply IH in Hb; try done; destruct Hb as [[Hy Hx]|Hy]; simpl in *;
    unfold after; lia.
Qed.

(** [b] lies right of [a] or below it, the spacing away or more. *)
Definition apart (a b : TableNode.t) : Prop :=
  px a + width a + Options.nodeSpacingX opts ≤ px b
  ∨ py a + height a + Options.nodeSpacingY opts ≤ py b.

Lemma placeAll_ordered (nodes : list TableNode.t) (c : cursor)
    (i j : nat) (a b : TableNode.t) :
  Forall Spec.positiveSize nodes →
  (i < j)%nat →
  Exact.placeAll columns opts c nodes !! i = Some a →
  Exact.placeAll columns opts c nodes !! j = Some b →
  apart a b.
Proof.
  revert c i j; induction nodes as [|node rest IH]; intros c i j Hpos Hij Ha Hb;
    simpl in Ha, Hb; [done|].
  pose proof Hpos as Hall. apply Forall_cons in Hpos as [[Hw Hh] Hpos].
  destruct j as [|j]; [lia|].
  destruct (Exact.place columns opts c node) as [newNode c'] eqn:Hplace.
  destruct i as [|i].
  - simpl in Ha, Hb. injection Ha as <-.
    assert (after c' b) as Hafter.
    { eapply placeAll_after; [exact Hpos|]. by eapply list_elem_of_lookup_2. }
    unfold Exact.place in Hplace.
    destruct (columns <=? S (col c))%nat; injection Hplace as <- <-;
      unfold apart; simpl in *;
      destruct Hafter as [[Hy Hx]|Hy]; simpl in *; lia.
  - simpl in Ha, Hb. eapply IH; [exact Hpos | | exact Ha | exact Hb]. lia.
Qed.

(** The cursor and the nodes still to place stay where sums of doubles
    are exact. *)
Definition fits (c : cursor) (nodes : list TableNode.t) : Prop :=
  0 ≤ x c ∧ 0 ≤ y c ∧ 0 ≤ rowHeight c
  ∧ Z.max (x c) (Options.padding opts)
    + Spec.span Size.width (Options.nodeSpacingX opts) nodes < JS.twoTo53
  ∧ y c + rowHeight c
    + Spec.span Size.height (Options.nodeSpacingY opts) nodes < JS.twoTo53.

Lemma add_exact (a b : Z) : - JS.twoTo53 < a + b < JS.twoTo53 → JS.add a b = a + b.
Proof.
  intros H. unfold JS.add, JS.roundDouble.
  destruct (Z.ltb_spec (Z.abs (a + b)) JS.twoTo53); [done | lia].
Qed.

Lemma span_nonneg (size : Size.t → Z) (gap : Z) (nodes : list TableNode.t) :
  0 ≤ gap → Forall (λ n, 0 < size (TableNode.size n)) nodes →
  0 ≤ Spec.span size gap nodes.
Proof.
  intros Hgap. induction 1 as [|n rest Hn _ IH]; simpl; lia.
Qed.

Lemma positive_widths (nodes : list TableNode.t) :
  Forall Spec.positiveSize nodes → Forall (λ n, 0 < Size.width (TableNode.size n)) nodes.
Proof. intros H. eapply Forall_impl; [exact H|]. by intros n [? _]. Qed.

Lemma positive_heights (nodes : list TableNode.t) :
  Forall Spec.positiveSize nodes → Forall (λ n, 0 < Size.height (TableNode.size n)) nodes.
Proof. intros H. eapply Forall_impl; [exact H|]. by intros n [_ ?]. Qed.

Lemma place_exact (c : cursor) (node : TableNode.t) (rest : list TableNode.t) :
  Forall Spec.positiveSize (node :: rest) →
  fits c (node :: rest) →
  place columns opts c node = Exact.place columns opts c node
  ∧ fits (snd (Exact.place columns opts c node)) rest.
Proof.
  intros Hpos (Hx & Hy & Hr & Hw & Hh).
  apply Forall_cons in Hpos as [[Hnw Hnh] Hpos].
  pose proof (span_nonneg Size.width _ rest spacingX (positive_widths _ Hpos)) as Hsw.
  pose proof (span_nonneg Size.height _ rest spacingY (positive_heights _ Hpos)) as Hsh.
  cbn [Spec.span foldr] in Hw, Hh.
  fold (Spec.span Size.width (Options.nodeSpacingX opts) rest) in Hw.
  fold (Spec.span Size.height (Options.nodeSpacingY opts) rest) in Hh.
  unfold place, Exact.place, fits.
  destruct (columns <=? S (col c))%nat; cbn [snd x y rowHeight].
  - rewrite (add_exact (Z.max _ _) _) by lia. rewrite add_exact by lia.
    split; [done|]. lia.
  - rewrite (add_exact (Size.width _) _) by lia. rewrite add_exact by lia.
    split; [done|]. lia.
Qed.

Lemma placeAll_exact (nodes : list TableNode.t) (c : cursor) :
  Forall Spec.positiveSize nodes →
  fits c nodes →
  placeAll columns opts c nodes = Exact.placeAll columns opts c nodes.
Proof.
  revert c. induction nodes as [|node rest IH]; intros c Hpos Hfits; [done|].
  destruct (place_exact c node rest Hpos Hfits) as [Heq Hrest].
  cbn [placeAll Exact.placeAll]. rewrite Heq.
  destruct (Exact.place columns opts c node) as [newNode c'].
  f_equal. apply IH; [by apply Forall_cons in Hpos as [_ ?] | exact Hrest].
Qed.

(** Every placed rectangle lies where sums of doubles are exact. *)
Lemma placeAll_within (nodes : list TableNode.t) (c : cursor) (b : TableNode.t) :
  Forall Spec.positiveSize nodes →
  fits c nodes →
  b ∈ Exact.placeAll columns opts c nodes →
  0 ≤ px b ∧ 0 ≤ py b ∧ 0 < width b ∧ 0 < height b
  ∧ px b + width b < JS.twoTo53 ∧ py b + height b < JS.twoTo53.
Proof.
  revert c. induction nodes as [|node rest IH]; intros c Hpos Hfits Hb; simpl in Hb.
  { by apply elem_of_nil in Hb. }
  destruct (place_exact c node rest Hpos Hfits) as [_ Hrest].
  destruct Hfits as (Hx & Hy & Hr & Hw & Hh).
  apply Forall_cons in Hpos as [[Hnw Hnh] Hpos].
  pose proof (span_nonneg Size.width _ rest spacingX (positive_widths _ Hpos)) as Hsw.
  pose proof (span_nonneg Size.height _ rest spacingY (positive_heights _ Hpos)) as Hsh.
  cbn [Spec.span foldr] in Hw, Hh.
  fold (Spec.span Size.width (Options.nodeSpacingX opts) rest) in Hw.
  fold (Spec.span Size.height (Options.nodeSpacingY opts) rest) in Hh.
  destruct (Exact.place columns opts c node) as [newNode c'] eqn:Hplace.
  apply elem_of_cons in Hb as [->|Hb].
  - unfold Exact.place in Hplace.
    destruct (columns <=? S (col c))%nat; injection Hplace as <- <-; simpl; lia.
  - by apply (IH c').
Qed.

Lemma placeAll_input (nodes : list TableNode.t) (c : cursor) (i : nat) (n : TableNode.t) :
  nodes !! i = Some n →
  ∃ p, Exact.placeAll columns opts c nodes !! i = Some (withPosition p n).
Proof.
  revert c i. induction nodes as [|node rest IH]; intros c i Hn; [done|].
  cbn [Exact.placeAll].
  destruct (Exact.place columns opts c node) as [newNode c'] eqn:Hplace.
  destruct i as [|i].
  - injection Hn as ->. unfold Exact.place in Hplace.
    destruct (columns <=? S (col c))%nat; injection Hplace as <- <-; by eexists.
  - apply (IH c' i Hn).
Qed.

Lemma placeAll_exact_length (nodes : list TableNode.t) (c : cursor) :
  List.length (Exact.placeAll columns opts c nodes) = List.length nodes.
Proof.
  revert c. induction nodes as [|node rest IH]; intros c; [done|].
  cbn [Exact.placeAll]. destruct (Exact.place columns opts c node) as [newNode c'].
  cbn [List.length]. by rewrite IH.
Qed.

End GridLayout.

Lemma intersect_sym (a b : TableNode.t) : Spec.intersect a b → Spec.intersect b a.
Proof. unfold Spec.intersect. tauto. Qed.

Lemma apart_separate (opts : Options.t) (a b : TableNode.t) :
  (0 < Options.nodeSpacingX opts)%Z → (0 < Options.nodeSpacingY opts)%Z →
  apart opts a b → ¬ Spec.intersect a b.
Proof. unfold apart, Spec.intersect. lia. Qed.


Lemma overlap_intersect (a b : TableNode.t) : Spec.overlap a b → Spec.intersect a b.
Proof. unfold Spec.overlap, Spec.intersect. lia. Qed.


(** Where the sums are exact, the overlap test of the layout tests says
    what it is meant to say. *)
Lemma overlaps_exact (a b : TableNode.t) :
  (0 ≤ Point.x (TableNode.position a) ∧ 0 ≤ Point.y (TableNode.position a)
   ∧ 0 < Size.width (TableNode.size a) ∧ 0 < Size.height (TableNode.size a)
   ∧ Point.x (TableNode.position a) + Size.width (TableNode.size a) < JS.twoTo53
   ∧ Point.y (TableNode.position a) + Size.height (TableNode.size a) < JS.twoTo53)%Z →
  (0 ≤ Point.x (TableNode.position b) ∧ 0 ≤ Point.y (TableNode.position b)
   ∧ 0 < Size.width (TableNode.size b) ∧ 0 < Size.height (TableNode.size b)
   ∧ Point.x (TableNode.position b) + Size.width (TableNode.size b) < JS.twoTo53
   ∧ Point.y (TableNode.position b) + Size.height (TableNode.size b) < JS.twoTo53)%Z →
  ¬ Spec.overlap a b → Layout.overlaps a b = false.
Proof.
  intros Ha Hb Hsep. unfold Layout.overlaps.
  rewrite !add_exact by lia. unfold Spec.overlap in Hsep.
  rewrite !Z.gtb_ltb.
  destruct (Z.ltb_spec (Point.x (TableNode.position a))
              (Point.x (TableNode.position b) + Size.width (TableNode.size b))),
    (Z.ltb_spec (Point.x (TableNode.position b))
       (Point.x (TableNode.position a) + Size.width (TableNode.size a))),
    (Z.ltb_spec (Point.y (TableNode.position a))
       (Point.y (TableNode.position b) + Size.height (TableNode.size b))),
    (Z.ltb_spec (Point.y (TableNode.position b))
       (Point.y (TableNode.position a) + Size.height (TableNode.size a)));
    simpl; try done; lia.
Qed.

(** *** The claim on the grid layout *)

(** C1. The grid layout with default options gives every node of the
    graph a position and changes nothing else of it, and the rectangles of
    two nodes at different places of the node list have no point in
    common, hence pass the overlap test of the layout tests: when the
    widths and heights are positive integers and the sizes, with the
    spacing after each and the padding once, add up to less than [2^53]
    in both directions. *)
Theorem gridLayout_no_overlap (graph : Graph.t) (i j : nat) (n m : TableNode.t) :
  Forall Spec.positiveSize (Graph.nodes graph) →
  (40 + Spec.span Size.width 60 (Graph.nodes graph) < 2 ^ 53)%Z →
  (40 + Spec.span Size.height 40 (Graph.nodes graph) < 2 ^ 53)%Z →
  i ≠ j →
  Graph.nodes graph !! i = Some n →
  Graph.nodes graph !! j = Some m →
  List.length (Graph.nodes (Layout.gridLayout graph None))
  = List.length (Graph.nodes graph)
  ∧ ∃ p q,
      Graph.nodes (Layout.gridLayout graph None) !! i = Some (Layout.withPosition p n)
      ∧ Graph.nodes (Layout.gridLayout graph None) !! j = Some (Layout.withPosition q m)
      ∧ ¬ Spec.intersect (Layout.withPosition p n) (Layout.withPosition q m)
      ∧ Layout.overlaps (Layout.withPosition p n) (Layout.withPosition q m) = false.
Proof.
  intros Hpos Hw Hh Hij Hn Hm.
  set (columns := Layout.ceilSqrt (List.length (Graph.nodes graph))).
  set (c := Layout.mkCursor 40 40 0 0).
  assert (fits Layout.DEFAULT_OPTIONS c (Graph.nodes graph)) as Hfits.
  { unfold fits, JS.twoTo53. simpl. change (2 ^ 53)%Z with 9007199254740992%Z in Hw, Hh.
    lia. }
  assert (Graph.nodes (Layout.gridLayout graph None)
          = Exact.placeAll columns Layout.DEFAULT_OPTIONS c (Graph.nodes graph)) as Hnodes.
  { unfold Layout.gridLayout, Builder.computeGraphBounds.
    transitivity (Layout.placeAll columns Layout.DEFAULT_OPTIONS c (Graph.nodes graph)).
    { by destruct (Nat.eqb _ 0). }
    apply placeAll_exact; [done | done | done | exact Hpos | exact Hfits]. }
  rewrite Hnodes. split.
  { apply placeAll_exact_length. }
  destruct (placeAll_input columns Layout.DEFAULT_OPTIONS _ c i n Hn) as [p Hp].
  destruct (placeAll_input columns Layout.DEFAULT_OPTIONS _ c j m Hm) as [q Hq].
  exists p, q. split; [exact Hp|]. split; [exact Hq|].
  assert (¬ Spec.intersect (Layout.withPosition p n) (Layout.withPosition q m)) as Hsep.
  { destruct (decide (i < j)%nat).
    - apply (apart_separate Layout.DEFAULT_OPTIONS); [done | done |].
      by eapply (placeAll_ordered columns Layout.DEFAULT_OPTIONS).
    - intros H%intersect_sym. revert H.
      apply (apart_separate Layout.DEFAULT_OPTIONS); [done | done |].
      eapply (placeAll_ordered columns Layout.DEFAULT_OPTIONS);
        [done | done | exact Hpos | | exact Hq | exact Hp]. lia. }
  split; [exact Hsep|].
  apply overlaps_exact; [ | | by intros H%overlap_intersect].
  - eapply (placeAll_within columns Layout.DEFAULT_OPTIONS); [done | done | done
      | exact Hpos | exact Hfits | by eapply list_elem_of_lookup_2].
  - eapply (placeAll_within columns Layout.DEFAULT_OPTIONS); [done | done | done
      | exact Hpos | exact Hfits | by eapply list_elem_of_lookup_2].
Qed.

Lemma gridLayout_no_overlap_witness :
  List.length (Graph.nodes (Layout.gridLayout Examples.threeNodes None)) = 3%nat
  ∧ ∃ p q,
      Graph.nodes (Layout.gridLayout Examples.threeNodes None) !! 0%nat
      = Some (Layout.withPosition p (Examples.node "a" 180 80))
      ∧ Graph.nodes (Layout.gridLayout Examples.threeNodes None) !! 2%nat
        = Some (Layout.withPosition q (Examples.node "c" 180 56))
      ∧ ¬ Spec.intersect (Layout.withPosition p (Examples.node "a" 180 80))
            (Layout.withPosition q (Examples.node "c" 180 56))
      ∧ Layout.overlaps (Layout.withPosition p (Examples.node "a" 180 80))
          (Layout.withPosition q (Examples.node "c" 180 56)) = false.
Proof.
  apply (gridLayout_no_overlap Examples.threeNodes 0 2).
  - repeat constructor; simpl; lia.
  - vm_compute. reflexivity.
  - vm_compute. reflexivity.
  - lia.
  - reflexivity.
  - reflexivity.
Defined.

(** With a first node [2^60] wide the sum [x + (1 + 60)] rounds back to
    [x]: the second and the third node are placed on each other, although
    all sizes are positive. *)
Lemma gridLayout_overlap_wide :
  Forall Spec.positiveSize (Graph.nodes Examples.wide)
  ∧ Forall (λ n, JS.isDouble (Size.width (TableNode.size n))
                 ∧ JS.isDouble (Size.height (TableNode.size n)))
      (Graph.nodes Examples.wide)
  ∧ map TableNode.position (Graph.nodes (Layout.gridLayout Examples.wide None))
    = [ Point.mk 40 40; Point.mk 1152921504606846976 40;
        Point.mk 1152921504606846976 40; Point.mk 40 81; Point.mk 101 81 ]
  ∧ ¬ Spec.gridLayoutSeparates Examples.wide.
Proof.
  split; [repeat constructor; simpl; lia|].
  split; [repeat constructor|].
  split; [vm_compute; reflexivity|].
  intros H.
  apply (H 1%nat 2%nat
           (Layout.withPosition (Point.mk 1152921504606846976 40) (Examples.node "b" 1 1))
           (Layout.withPosition (Point.mk 1152921504606846976 40) (Examples.node "c" 1 1)));
    [lia | vm_compute; reflexivity | vm_compute; reflexivity |].
  unfold Spec.overlap. simpl. lia.
Qed.

(** The overlap test of the layout tests does not see it: its own sums
    round in the same way. *)
Example overlaps_misses_wide :
  Layout.overlaps
    (Layout.withPosition (Point.mk 1152921504606846976 40) (Examples.node "b" 1 1))
    (Layout.withPosition (Point.mk 1152921504606846976 40) (Examples.node "c" 1 1))
  = false.
Proof. vm_compute. reflexivity. Qed.

Example gridLayout_example :
  map TableNode.position (Graph.nodes (Layout.gridLayout Examples.threeNodes None))
  = [Point.mk 40 40; Point.mk 280 40; Point.mk 40 184].
Proof. reflexivity. Qed.

(** The layout keeps the number of nodes and every node's size. *)
Lemma gridLayout_sizes (graph : Graph.t) (options : option LayoutOptions.t) :
  map TableNode.size (Graph.nodes (Layout.gridLayout graph options))
  = map TableNode.size (Graph.nodes graph).
Proof.
  unfold Layout.gridLayout, Builder.computeGraphBounds.
  assert (∀ columns opts nodes c,
             map TableNode.size (Layout.placeAll columns opts c nodes)
             = map TableNode.size nodes) as H.
  { intros columns opts nodes. induction nodes as [|n rest IH]; intros c; [done|].
    simpl. unfold Layout.place.
    destruct (columns <=? S (Layout.col c)); simpl; by rewrite IH. }
  destruct (Nat.eqb _ 0); simpl; apply H.
Qed.

(** ** Bounds *)

Lemma groupBounds_withBounds (nodes : list TableNode.t) (pad : Z)
    (b : option Bounds.t) (g : TableGroup.t) :
  Builder.groupBounds nodes pad (Builder.withBounds b g) = Builder.groupBounds nodes pad g.
Proof. destruct g. reflexivity. Qed.

Lemma groupBounds_again (nodes : list TableNode.t) (pad : Z) (g : TableGroup.t) :
  Builder.groupBounds nodes pad (Builder.groupBounds nodes pad g)
  = Builder.groupBounds nodes pad g.
Proof.
  assert (∃ b, Builder.groupBounds nodes pad g = Builder.withBounds b g) as [b Hb].
  { unfold Builder.groupBounds. destruct (Nat.eqb _ 0); eauto. }
  rewrite Hb at 1. apply groupBounds_withBounds.
Qed.

Lemma computeGroupBounds_again (graph : Graph.t) (pad : Z) (edges : list Edge.t)
    (notes : list StickyNote.t) (b : option Bounds.t) :
  Builder.computeGroupBounds
    (Graph.mk (Graph.nodes graph) edges (Builder.computeGroupBounds graph pad) notes b)
    pad
  = Builder.computeGroupBounds graph pad.
Proof.
  unfold Builder.computeGroupBounds. simpl.
  rewrite <- list_fmap_compose. apply list_fmap_ext. intros _ g _. simpl.
  apply groupBounds_again.
Qed.

(** C9. Computing the bounds of the result of [computeGraphBounds] again,
    with the same padding, gives the same graph bounds and the same bounds
    of every group (the second result is the first one). *)
Theorem computeGraphBounds_idempotent (graph : Graph.t) (padding : Z) :
  let once := computeGraphBounds graph padding in
  let twice := computeGraphBounds once padding in
  Graph.bounds twice = Graph.bounds once
  ∧ map TableGroup.bounds (Graph.groups twice) = map TableGroup.bounds (Graph.groups once)
  ∧ twice = once.
Proof.
  assert (computeGraphBounds (computeGraphBounds graph padding) padding
          = computeGraphBounds graph padding) as H.
  { unfold computeGraphBounds, Builder.computeGraphBounds.
    destruct (Nat.eqb (List.length (Graph.nodes graph)) 0) eqn:E; simpl; rewrite E;
      by rewrite computeGroupBounds_again. }
  simpl. by rewrite H.
Qed.

(** ** Graph builder: foreign keys *)

Section ForeignKeys.
Import Builder.

Lemma fkColumns_fold (rels : list Relation.t) (acc : gset string) (k : string) :
  k ∈ fold_left
        (λ (fk : gset string) rel,
           {[ colKeyOf (Endpoint.table (Relation.from rel))
                       (Endpoint.column (Relation.from rel)) ]} ∪ fk)
        rels acc
  ↔ k ∈ acc
    ∨ ∃ rel, rel ∈ rels
             ∧ colKeyOf (Endpoint.table (Relation.from rel))
                        (Endpoint.column (Relation.from rel)) = k.
Proof.
  revert acc; induction rels as [|r rels IH]; intros acc; simpl.
  - split; [by left|]. intros [H|(rel & H & _)]; [done|]. by apply elem_of_nil in H.
  - rewrite IH. split.
    + intros [H|(rel & Hin & Hk)].
      * apply elem_of_union in H as [H|H]; [|by left].
        apply elem_of_singleton in H. right. exists r. split; [left|done].
      * right. exists rel. split; [by right|done].
    + intros [H|(rel & Hin & Hk)].
      * left. apply elem_of_union. by right.
      * apply elem_of_cons in Hin as [->|Hin].
        -- left. apply elem_of_union. left. by apply elem_of_singleton.
        -- right. by exists rel.
Qed.

Lemma fkColumnsOf_elem (rels : list Relation.t) (k : string) :
  k ∈ fkColumnsOf rels
  ↔ ∃ rel, rel ∈ rels
           ∧ colKeyOf (Endpoint.table (Relation.from rel))
                      (Endpoint.column (Relation.from rel)) = k.
Proof.
  unfold fkColumnsOf. rewrite fkColumns_fold. split; [|by right].
  intros [H|H]; [|done]. by apply not_elem_of_empty in H.
Qed.

Lemma buildColumnNodes_elem (tableName : string) (fk : gset string) (offsetY : Z)
    (cols : list Column.t) (col : ColumnNode.t) :
  col ∈ buildColumnNodes tableName fk offsetY cols →
  ∃ c off, c ∈ cols ∧ col = buildColumnNode tableName c fk off.
Proof.
  revert offsetY; induction cols as [|c cols IH]; intros offsetY H; simpl in H.
  - by apply elem_of_nil in H.
  - apply elem_of_cons in H as [->|H].
    + exists c, offsetY. split; [left|done].
    + destruct (IH _ H) as (c' & off & Hin & ->). exists c', off. split; [by right|done].
Qed.

(** What the loop over the groups keeps of a node. *)
Definition built (schema : DatabaseSchema.t) (node : TableNode.t) : Prop :=
  ∃ table, table ∈ DatabaseSchema.tables schema
           ∧ TableNode.name node = Table.name table
           ∧ TableNode.columns node
             = buildColumnNodes (Table.name table)
                 (fkColumnsOf (DatabaseSchema.relations schema))
                 NODE_DEFAULTS.headerHeight (Table.columns table).

Lemma assignGroup_Forall (P : TableNode.t → Prop) (g t : string)
    (nodes : list TableNode.t) :
  (∀ n, P n → P (withGroup g n)) →
  Forall P nodes → Forall P (assignGroup g t nodes).
Proof.
  intros Hg. induction 1 as [|n nodes Hn Hnodes IH]; simpl; [done|].
  destruct (String.eqb _ t); constructor; auto.
Qed.

Lemma assignGroup_length (g t : string) (nodes : list TableNode.t) :
  List.length (assignGroup g t nodes) = List.length nodes.
Proof.
  induction nodes as [|n nodes IH]; simpl; [done|].
  destruct (String.eqb _ t); simpl; by rewrite ?IH.
Qed.

Lemma assignGroups_Forall (P : TableNode.t → Prop) (g : string)
    (ts : list string) (nodes : list TableNode.t) :
  (∀ g n, P n → P (withGroup g n)) →
  Forall P nodes →
  Forall P (fold_left (λ nodes tableName, assignGroup g tableName nodes) ts nodes).
Proof.
  intros Hg. revert nodes; induction ts as [|t ts IH]; intros nodes H; simpl; [done|].
  apply IH. apply assignGroup_Forall; [apply Hg | done].
Qed.

Lemma assignGroups_length (g : string) (ts : list string) (nodes : list TableNode.t) :
  List.length (fold_left (λ nodes tableName, assignGroup g tableName nodes) ts nodes)
  = List.length nodes.
Proof.
  revert nodes; induction ts as [|t ts IH]; intros nodes; simpl; [done|].
  by rewrite IH, assignGroup_length.
Qed.

Lemma buildGroups_Forall (P : TableNode.t → Prop) (tgs : list IRTableGroup.t)
    (st : list TableNode.t * list TableGroup.t) :
  (∀ g n, P n → P (withGroup g n)) →
  Forall P (fst st) → Forall P (fst (fold_left buildGroup tgs st)).
Proof.
  intros Hg. revert st; induction tgs as [|tg tgs IH]; intros [nodes groups] H;
    simpl; [done|].
  apply IH. simpl. apply assignGroups_Forall; [apply Hg | done].
Qed.

Lemma buildGroups_length (tgs : list IRTableGroup.t)
    (st : list TableNode.t * list TableGroup.t) :
  List.length (fst (fold_left buildGroup tgs st)) = List.length (fst st).
Proof.
  revert st; induction tgs as [|tg tgs IH]; intros [nodes groups]; simpl; [done|].
  rewrite IH. simpl. apply assignGroups_length.
Qed.

Lemma buildGraph_nodes (schema : DatabaseSchema.t) :
  Graph.nodes (buildGraph schema)
  = fst (fold_left buildGroup (DatabaseSchema.tableGroups schema)
           (map (λ table, buildTableNode table
                            (fkColumnsOf (DatabaseSchema.relations schema)))
                (DatabaseSchema.tables schema), [])).
Proof.
  unfold buildGraph, Builder.buildGraph. by destruct (fold_left _ _ _).
Qed.

Lemma buildGraph_built (schema : DatabaseSchema.t) (node : TableNode.t) :
  node ∈ Graph.nodes (buildGraph schema) → built schema node.
Proof.
  rewrite buildGraph_nodes. revert node. apply Forall_forall.
  apply buildGroups_Forall.
  - intros g n (table & ? & ? & ?). by exists table.
  - simpl. apply Forall_forall. intros n Hn.
    apply list_elem_of_fmap in Hn as (table & -> & Hin). by exists table.
Qed.

Lemma lacks_dot_key (t1 c1 t2 c2 : string) :
  Spec.lacks "." t1 = true → Spec.lacks "." t2 = true →
  colKeyOf t1 c1 = colKeyOf t2 c2 → t1 = t2 ∧ c1 = c2.
Proof.
  unfold colKeyOf. revert t2; induction t1 as [|a t1 IH]; intros [|b t2] H1 H2 Heq;
    cbn [String.append Spec.lacks] in *.
  - injection Heq as Heq. by subst.
  - injection Heq as Hb _. subst b. done.
  - injection Heq as Ha _. subst a. done.
  - injection Heq as Hab Heq. subst b.
    apply andb_true_iff in H1 as [_ H1]. apply andb_true_iff in H2 as [_ H2].
    destruct (IH t2 H1 H2 Heq) as [-> ->]. done.
Qed.

Lemma fk_marked_iff_key (schema : DatabaseSchema.t) : Spec.fkMarkedIffFromKey schema.
Proof.
  intros node col Hnode Hcol.
  destruct (buildGraph_built _ _ Hnode) as (table & Htable & Hname & Hcols).
  rewrite Hcols in Hcol.
  apply buildColumnNodes_elem in Hcol as (c & off & Hc & ->).
  cbn [buildColumnNode ColumnNode.isForeignKey ColumnNode.name].
  rewrite bool_decide_eq_true, fkColumnsOf_elem, Hname. done.
Qed.

Lemma fk_marked_iff_endpoint (schema : DatabaseSchema.t) :
  Spec.dotFree schema → Spec.fkMarkedIffFromEndpoint schema.
Proof.
  intros [Htables Hrels] node col Hnode Hcol.
  rewrite (fk_marked_iff_key schema node col Hnode Hcol).
  destruct (buildGraph_built _ _ Hnode) as (table & Htable & Hname & _).
  split; intros (rel & Hin & H); exists rel; (split; [done|]).
  - apply lacks_dot_key in H; [done| |].
    + by apply (proj1 (Forall_forall _ _) Hrels).
    + rewrite Hname. by apply (proj1 (Forall_forall _ _) Htables).
  - destruct H as [-> ->]. done.
Qed.

End ForeignKeys.

(** C3, the claim as stated fails: in the graph of [Examples.dotted] the
    column [b.c] of table [a] is marked, and no relation starts at the pair
    (a, b.c); the relation starts at (a.b, c). *)
Lemma fk_marking_confuses_dotted_names :
  ¬ Spec.fkMarkedIffFromEndpoint Examples.dotted.
Proof.
  intros H.
  pose (col := Builder.buildColumnNode "a" (Examples.column "b.c" "int" ct_int None)
                 (Builder.fkColumnsOf (DatabaseSchema.relations Examples.dotted)) 32).
  pose (node := Builder.buildTableNode (Examples.table "a"
                  [Examples.column "b.c" "int" ct_int None])
                  (Builder.fkColumnsOf (DatabaseSchema.relations Examples.dotted))).
  assert (ColumnNode.isForeignKey col = true) as Hfk by (by vm_compute).
  apply (H node col) in Hfk as (rel & Hin & Htable & _).
  - apply list_elem_of_singleton in Hin as ->. discriminate Htable.
  - left.
  - left.
Qed.

(** C3, amended. A column is marked as foreign key exactly when the text
    [table.column] made of its table's name and its own name is the text
    made of the [from] end of some relation; the [to] end plays no part.
    For a schema whose table names and [from] tables contain no dot, that
    is the case exactly when the pair (table name, column name) is the
    [from] end of a relation.  For [Ref: posts.author_id > users.id] the
    column [posts.author_id] is marked and [users.id] is not. *)
Theorem fk_marking_by_from_key :
  (∀ schema, Spec.fkMarkedIffFromKey schema)
  ∧ (∀ schema, Spec.dotFree schema → Spec.fkMarkedIffFromEndpoint schema)
  ∧ parseDSL Examples.blogText = Ok Examples.blog
  ∧ Spec.fkFlags (buildGraph Examples.blog)
    = [("posts.id", false); ("posts.author_id", true); ("users.id", false)].
Proof.
  split; [exact fk_marked_iff_key|].
  split; [exact fk_marked_iff_endpoint|].
  by vm_compute.
Qed.

Lemma fk_marking_by_from_key_witness : Spec.fkMarkedIffFromEndpoint Examples.blog.
Proof.
  apply (proj1 (proj2 fk_marking_by_from_key) Examples.blog).
  split; repeat constructor.
Defined.

(** ** Validator: a relation between two missing tables *)

Section MissingTables.
Import Validator.

Lemma append_cancel_l (a b c : string) : a ++ b = a ++ c → b = c.
Proof. induction a as [|x a IH]; simpl; [done|]. intros H. injection H as H. auto. Qed.

Lemma append_cancel_char_r (a b : string) (x : ascii) :
  a ++ JS.str x = b ++ JS.str x → a = b.
Proof.
  revert b; induction a as [|y a IH]; intros [|z b] H; simpl in H; try done.
  - injection H as _ H. by destruct b.
  - injection H as _ H. by destruct a.
  - injection H as -> H. f_equal. auto.
Qed.

Lemma quoted_inj (a b : string) : quoted a = quoted b → a = b.
Proof.
  unfold quoted. intros H. apply append_cancel_l in H.
  by apply append_cancel_char_r in H.
Qed.

(** The entry pushed for an end [e] whose table does not exist. *)
Definition missingTable (rel : Relation.t) (e : Endpoint.t) : ValidationError.t :=
  ValidationError.mk error
    ("Relation references non-existent table " ++ quoted (Endpoint.table e))
    (Some (Location.mk None None (Some (default (dotted e) (Relation.name rel))))).

Lemma missingTable_mentions (rel : Relation.t) (e : Endpoint.t) :
  Spec.mentions "non-existent table" (ValidationError.message (missingTable rel e)).
Proof.
  exists "Relation references ", (" " ++ quoted (Endpoint.table e)). reflexivity.
Qed.

Lemma missingTable_inj (rel : Relation.t) (e1 e2 : Endpoint.t) :
  missingTable rel e1 = missingTable rel e2 → Endpoint.table e1 = Endpoint.table e2.
Proof.
  intros H. apply (f_equal ValidationError.message) in H.
  cbn [missingTable ValidationError.message] in H.
  apply append_cancel_l in H. by apply quoted_inj.
Qed.

Lemma tableNames_fold (enumNames : gset string) (tables : list Table.t)
    (st : state) (x : string) :
  x ∈ tableNames (fold_left (checkTable enumNames) tables st)
  ↔ x ∈ map Table.name tables ∨ x ∈ tableNames st.
Proof.
  revert st; induction tables as [|t tables IH]; intros st; simpl.
  - split; [by right|]. intros [H|H]; [by apply elem_of_nil in H | done].
  - rewrite IH. cbn [checkTable tableNames].
    rewrite elem_of_union, elem_of_singleton, elem_of_cons. tauto.
Qed.

Lemma checkEndpoint_keeps names cols rel e errs (x : ValidationError.t) :
  x ∈ errs → x ∈ checkEndpoint names cols rel e errs.
Proof.
  intros H. unfold checkEndpoint, push.
  repeat case_match; try done; apply elem_of_app; by left.
Qed.

Lemma checkEndpoint_missing names cols rel e errs :
  Endpoint.table e ∉ names →
  missingTable rel e ∈ checkEndpoint names cols rel e errs.
Proof.
  intros H. unfold checkEndpoint, push.
  rewrite bool_decide_eq_false_2 by done.
  apply elem_of_app. right. left.
Qed.

Lemma checkRelation_keeps names cols errs rel (x : ValidationError.t) :
  x ∈ errs → x ∈ checkRelation names cols errs rel.
Proof. intros H. unfold checkRelation. by do 2 apply checkEndpoint_keeps. Qed.

Lemma checkRelations_keep names cols rels errs (x : ValidationError.t) :
  x ∈ errs → x ∈ fold_left (checkRelation names cols) rels errs.
Proof.
  revert errs; induction rels as [|r rels IH]; intros errs H; simpl; [done|].
  by apply IH, checkRelation_keeps.
Qed.

Lemma checkRelations_missing names cols rels errs rel :
  rel ∈ rels →
  Endpoint.table (Relation.from rel) ∉ names →
  Endpoint.table (Relation.to rel) ∉ names →
  missingTable rel (Relation.from rel) ∈ fold_left (checkRelation names cols) rels errs
  ∧ missingTable rel (Relation.to rel) ∈ fold_left (checkRelation names cols) rels errs.
Proof.
  intros Hin Hfrom Hto.
  revert errs; induction rels as [|r rels IH]; intros errs.
  { by apply elem_of_nil in Hin. }
  apply elem_of_cons in Hin as [<-|Hin]; [|by apply IH].
  simpl. split; apply checkRelations_keep; unfold checkRelation.
  - by apply checkEndpoint_keeps, checkEndpoint_missing.
  - by apply checkEndpoint_missing.
Qed.

Lemma checkGroup_keeps names errs group (x : ValidationError.t) :
  x ∈ errs → x ∈ checkGroup names errs group.
Proof.
  unfold checkGroup. revert errs.
  induction (IRTableGroup.tables group) as [|t ts IH]; intros errs H; simpl; [done|].
  apply IH. unfold push. case_match; [done|]. apply elem_of_app. by left.
Qed.

Lemma checkGroups_keep names groups errs (x : ValidationError.t) :
  x ∈ errs → x ∈ fold_left (checkGroup names) groups errs.
Proof.
  revert errs; induction groups as [|g groups IH]; intros errs H; simpl; [done|].
  by apply IH, checkGroup_keeps.
Qed.

End MissingTables.

(** C4. For a schema with a relation whose two tables have different names
    that are not names of tables of the schema, [validateSchema] answers
    [valid = false] and its list has, at two different places, two
    different entries of severity error that mention "non-existent table". *)
Theorem validateSchema_two_missing_tables
    (schema : DatabaseSchema.t) (rel : Relation.t) :
  rel ∈ DatabaseSchema.relations schema →
  Endpoint.table (Relation.from rel) ≠ Endpoint.table (Relation.to rel) →
  Endpoint.table (Relation.from rel) ∉ map Table.name (DatabaseSchema.tables schema) →
  Endpoint.table (Relation.to rel) ∉ map Table.name (DatabaseSchema.tables schema) →
  ValidationResult.valid (validateSchema schema) = false
  ∧ ∃ i j e1 e2,
      i ≠ j
      ∧ ValidationResult.errors (validateSchema schema) !! i = Some e1
      ∧ ValidationResult.errors (validateSchema schema) !! j = Some e2
      ∧ e1 ≠ e2
      ∧ ValidationError.type e1 = error ∧ ValidationError.type e2 = error
      ∧ Spec.mentions "non-existent table" (ValidationError.message e1)
      ∧ Spec.mentions "non-existent table" (ValidationError.message e2).
Proof.
  intros Hin Hne Hfrom Hto.
  unfold validateSchema, Validator.validateSchema.
  cbn [ValidationResult.valid ValidationResult.errors].
  set (enumNames := list_to_set _ : gset string).
  set (st := fold_left (Validator.checkTable enumNames) _ _).
  assert (∀ x, x ∉ map Table.name (DatabaseSchema.tables schema) →
               x ∉ Validator.tableNames st) as Hnames.
  { intros x Hx Hx'. apply tableNames_fold in Hx' as [?|Hx']; [done|].
    by apply not_elem_of_empty in Hx'. }
  destruct (checkRelations_missing (Validator.tableNames st)
              (Validator.tableColumnMap st) _ (Validator.errors st) rel Hin
              (Hnames _ Hfrom) (Hnames _ Hto)) as [H1 H2].
  apply (checkGroups_keep (Validator.tableNames st)
           (DatabaseSchema.tableGroups schema)) in H1, H2.
  set (errs := fold_left (Validator.checkGroup _) _ _) in *.
  assert (missingTable rel (Relation.from rel) ≠ missingTable rel (Relation.to rel))
    as Hdiff by (intros H; by apply missingTable_inj in H).
  split.
  - apply Nat.eqb_neq. intros Hlen. apply nil_length_inv in Hlen.
    assert (missingTable rel (Relation.from rel)
            ∈ filter (λ e, Validator.isError e = true) errs) as Hf.
    { apply list_elem_of_filter. split; [done | exact H1]. }
    rewrite Hlen in Hf. by apply elem_of_nil in Hf.
  - apply list_elem_of_lookup_1 in H1 as [i Hi], H2 as [j Hj].
    exists i, j, (missingTable rel (Relation.from rel)),
      (missingTable rel (Relation.to rel)).
    split; [intros ->; congruence|].
    repeat split; try done; apply missingTable_mentions.
Qed.

Lemma validateSchema_two_missing_tables_witness :
  ValidationResult.valid (validateSchema Examples.dangling) = false
  ∧ ∃ i j e1 e2,
      i ≠ j
      ∧ ValidationResult.errors (validateSchema Examples.dangling) !! i = Some e1
      ∧ ValidationResult.errors (validateSchema Examples.dangling) !! j = Some e2
      ∧ e1 ≠ e2
      ∧ ValidationError.type e1 = error ∧ ValidationError.type e2 = error
      ∧ Spec.mentions "non-existent table" (ValidationError.message e1)
      ∧ Spec.mentions "non-existent table" (ValidationError.message e2).
Proof.
  apply (validateSchema_two_missing_tables Examples.dangling
           (Examples.relation "authors" "id" "readers" "id" many_to_one)).
  - left.
  - discriminate.
  - intros H. apply list_elem_of_singleton in H. discriminate H.
  - intros H. apply list_elem_of_singleton in H. discriminate H.
Defined.

Example validateSchema_dangling :
  map ValidationError.message (ValidationResult.errors (validateSchema Examples.dangling))
  = [ "Relation references non-existent table " ++ quoted "authors";
      "Relation references non-existent table " ++ quoted "readers" ].
Proof. vm_compute. reflexivity. Qed.

(** ** Schema diff: what makes a column and a table modified *)

Section MapLookup.
Context {V : Type}.

Lemma get_set (k k' : string) (v : V) (m : list (string * V)) :
  JSMap.get k (JSMap.set k' v m)
  = if String.eqb k k' then Some v else JSMap.get k m.
Proof.
  induction m as [|[k0 v0] m IH]; simpl.
  - rewrite String.eqb_sym. done.
  - destruct (String.eqb_spec k' k0) as [->|Hne]; simpl.
    + rewrite String.eqb_sym. by destruct (String.eqb k0 k).
    + destruct (String.eqb_spec k k0) as [->|Hne'].
      * destruct (String.eqb_spec k0 k'); [congruence|done].
      * rewrite IH. rewrite String.eqb_sym. done.
Qed.

Lemma get_fold_Some (k : string) (v : V) (entries m : list (string * V)) :
  JSMap.get k (fold_left (λ m kv, JSMap.set (fst kv) (snd kv) m) entries m) = Some v →
  (k, v) ∈ entries ∨ JSMap.get k m = Some v.
Proof.
  revert m; induction entries as [|[k0 v0] entries IH]; intros m H; simpl in H;
    [by right|].
  apply IH in H as [H|H]; [left; by right|].
  rewrite get_set in H. destruct (String.eqb_spec k k0) as [->|]; [|by right].
  injection H as ->. left. left.
Qed.

Lemma get_fold_is_Some (k : string) (entries m : list (string * V)) :
  is_Some (JSMap.get k (fold_left (λ m kv, JSMap.set (fst kv) (snd kv) m) entries m))
  ↔ k ∈ map fst entries ∨ is_Some (JSMap.get k m).
Proof.
  revert m; induction entries as [|[k0 v0] entries IH]; intros m; simpl.
  - split; [by right|]. intros [H|H]; [by apply elem_of_nil in H | done].
  - rewrite IH, get_set, elem_of_cons.
    destruct (String.eqb_spec k k0) as [->|Hne].
    + split; [intros _; left; by left | intros _; right; by eexists].
    + tauto.
Qed.

(** A map built from entries holds a key exactly when an entry has it,
    and the value it holds is the value of such an entry. *)
Lemma get_ofEntries (k : string) (entries : list (string * V)) :
  (is_Some (JSMap.get k (JSMap.ofEntries entries)) ↔ k ∈ map fst entries)
  ∧ (∀ v, JSMap.get k (JSMap.ofEntries entries) = Some v → (k, v) ∈ entries).
Proof.
  unfold JSMap.ofEntries. split.
  - rewrite get_fold_is_Some. simpl. split; [|by left].
    intros [H|[? H]]; done.
  - intros v H. apply get_fold_Some in H as [H|H]; done.
Qed.

Lemma keys_get (k : string) (m : list (string * V)) :
  k ∈ JSMap.keys m ↔ is_Some (JSMap.get k m).
Proof.
  unfold JSMap.keys. induction m as [|[k0 v0] m IH]; simpl.
  - split; [intros H; by apply elem_of_nil in H | by intros [? ?]].
  - rewrite elem_of_cons, IH. destruct (String.eqb_spec k k0) as [->|Hne].
    + split; [by eexists | by left].
    + tauto.
Qed.
End MapLookup.

Lemma ofItems_elem (k : string) (items : list string) :
  k ∈ JSSet.ofItems items ↔ k ∈ items.
Proof.
  unfold JSSet.ofItems.
  assert (∀ s, k ∈ fold_left (λ s k, JSSet.add k s) items s ↔ k ∈ items ∨ k ∈ s) as Hfold.
  { induction items as [|x items IH]; intros s; simpl.
    - split; [by right|]. intros [Hn|Hs]; [by apply elem_of_nil in Hn | done].
    - rewrite IH, elem_of_cons. unfold JSSet.add. case_bool_decide as Hx.
      + split; [tauto|]. intros [[->|?]|?]; tauto.
      + rewrite elem_of_app, list_elem_of_singleton. tauto. }
  rewrite Hfold. split; [|by left]. intros [?|Hn]; [done|]. by apply elem_of_nil in Hn.
Qed.

Section DiffLemmas.
Import Diff.
Local Open Scope list_scope.

Definition tagged (cd : ColumnDiff.t) : Prop :=
  ColumnDiff.action cd ∈ [added; removed; modified].

Definition changed (oldCol newCol : Column.t) : Prop :=
  displayType oldCol ≠ displayType newCol
  ∨ pk oldCol ≠ pk newCol
  ∨ nn oldCol ≠ nn newCol.

Lemma columnChanges_nonempty (oldCol newCol : Column.t) :
  (0 <? List.length (columnChanges oldCol newCol)) = true ↔ changed oldCol newCol.
Proof.
  unfold columnChanges, changed.
  repeat case_bool_decide; simpl; split; intros Hc; try done; tauto.
Qed.

Section Columns.
Variables oldCols newCols : list (string * Column.t).

(** The entry of one column name and whether it marks the table. *)
Definition colEntry (colName : string) : list ColumnDiff.t * bool :=
  diffColumn oldCols newCols ([], false) colName.

Lemma diffColumn_split (cds : list ColumnDiff.t) (tm : bool) (colName : string) :
  diffColumn oldCols newCols (cds, tm) colName
  = (cds ++ fst (colEntry colName), tm || snd (colEntry colName)).
Proof.
  unfold colEntry, diffColumn.
  destruct (JSMap.get colName oldCols), (JSMap.get colName newCols);
    try destruct (0 <? _); simpl;
    rewrite ?orb_true_r, ?orb_false_r, ?app_nil_r; done.
Qed.

Lemma diffColumns_fold (names : list string) (cds : list ColumnDiff.t) (tm : bool) :
  fold_left (diffColumn oldCols newCols) names (cds, tm)
  = (cds ++ flat_map (λ n, fst (colEntry n)) names,
     tm || existsb (λ n, snd (colEntry n)) names).
Proof.
  revert cds tm; induction names as [|n names IH]; intros cds tm;
    cbn [fold_left flat_map existsb].
  - by rewrite app_nil_r, orb_false_r.
  - rewrite diffColumn_split, IH, <- app_assoc, orb_assoc. done.
Qed.

Lemma colEntry_name (colName : string) (cd : ColumnDiff.t) :
  cd ∈ fst (colEntry colName) → ColumnDiff.name cd = colName.
Proof.
  unfold colEntry, diffColumn.
  destruct (JSMap.get colName oldCols), (JSMap.get colName newCols);
    try destruct (0 <? _); simpl; intros H;
    try (apply list_elem_of_singleton in H as ->; done).
  by apply elem_of_nil in H.
Qed.

Lemma colEntry_modified (colName : string) (cd : ColumnDiff.t)
    (oldCol newCol : Column.t) :
  cd ∈ fst (colEntry colName) →
  JSMap.get colName oldCols = Some oldCol →
  JSMap.get colName newCols = Some newCol →
  (ColumnDiff.action cd = modified ↔ changed oldCol newCol)
  ∧ (ColumnDiff.action cd = unchanged ↔ ¬ changed oldCol newCol).
Proof.
  unfold colEntry, diffColumn. intros H Ho Hn. rewrite Ho, Hn in H.
  rewrite <- columnChanges_nonempty.
  destruct (0 <? _); simpl in H; apply list_elem_of_singleton in H as ->;
    simpl; split; split; done.
Qed.

Lemma colEntry_tagged (colName : string) :
  snd (colEntry colName) = true ↔ ∃ cd, cd ∈ fst (colEntry colName) ∧ tagged cd.
Proof.
  assert (∀ cd b, (b = true ↔ tagged cd) →
                  b = true ↔ ∃ cd', cd' ∈ [cd] ∧ tagged cd') as Hone.
  { intros cd b [Hb1 Hb2]. split.
    - intros Hb. exists cd. split; [left | exact (Hb1 Hb)].
    - intros (cd' & Hin & Ht). apply list_elem_of_singleton in Hin as ->.
      exact (Hb2 Ht). }
  assert (∀ a, a ≠ unchanged → a ∈ [added; removed; modified]) as Hyes.
  { intros [] Ha; try (by destruct Ha);
      repeat first [by left | right]. }
  assert (unchanged ∉ [added; removed; modified]) as Hno.
  { intros Ht. repeat (apply elem_of_cons in Ht as [Ht|Ht]; [discriminate Ht|]).
    by apply elem_of_nil in Ht. }
  unfold colEntry, diffColumn, tagged in *.
  destruct (JSMap.get colName oldCols), (JSMap.get colName newCols);
    try destruct (0 <? _); cbn [fst snd app];
    try (apply Hone; cbn [ColumnDiff.action]; split; [intros _; by apply Hyes | done]).
  - apply Hone. cbn [ColumnDiff.action]. split; [done | intros Ht; by apply Hno in Ht].
  - split; [done|]. intros (cd & Hin & _). by apply elem_of_nil in Hin.
Qed.
End Columns.

Lemma diffBoth_name (tableName : string) (oldTable newTable : Table.t) :
  TableDiff.name (diffBoth tableName oldTable newTable) = tableName.
Proof. unfold diffBoth. by rewrite diffColumns_fold. Qed.

Lemma diffBoth_columns (tableName : string) (oldTable newTable : Table.t)
    (cd : ColumnDiff.t) :
  cd ∈ TableDiff.columnDiffs (diffBoth tableName oldTable newTable)
  ↔ ∃ n, n ∈ allColNames oldTable newTable
         ∧ cd ∈ fst (colEntry (columnMap oldTable) (columnMap newTable) n).
Proof.
  unfold diffBoth. rewrite diffColumns_fold. simpl.
  rewrite list_elem_of_In, in_flat_map. setoid_rewrite list_elem_of_In. done.
Qed.

Lemma diffBoth_action (tableName : string) (oldTable newTable : Table.t) :
  TableDiff.action (diffBoth tableName oldTable newTable) = modified
  ↔ ∃ cd, cd ∈ TableDiff.columnDiffs (diffBoth tableName oldTable newTable) ∧ tagged cd.
Proof.
  setoid_rewrite diffBoth_columns.
  unfold diffBoth. rewrite diffColumns_fold. simpl.
  destruct (existsb _ _) eqn:E; simpl.
  - split; [intros _|done].
    apply existsb_exists in E as (n & Hin & Hn).
    apply colEntry_tagged in Hn as (cd & Hcd & Ht).
    exists cd. split; [|done]. exists n. by rewrite list_elem_of_In.
  - split; [done|]. intros (cd & (n & Hin & Hcd) & Ht).
    assert (existsb (λ n, snd (colEntry (columnMap oldTable) (columnMap newTable) n))
              (allColNames oldTable newTable) = true) as E'; [|congruence].
    apply existsb_exists. exists n. split; [by apply list_elem_of_In|].
    apply colEntry_tagged. by exists cd.
Qed.

Section Tables.
Variables oldTables newTables : list (string * Table.t).

Lemma diffTable_split (tds : list TableDiff.t) (tableName : string) :
  diffTable oldTables newTables tds tableName
  = tds ++ diffTable oldTables newTables [] tableName.
Proof.
  unfold diffTable.
  destruct (JSMap.get tableName oldTables), (JSMap.get tableName newTables);
    simpl; by rewrite ?app_nil_r.
Qed.

Lemma diffTables_fold (names : list string) (tds : list TableDiff.t) :
  fold_left (diffTable oldTables newTables) names tds
  = tds ++ flat_map (diffTable oldTables newTables []) names.
Proof.
  revert tds; induction names as [|n names IH]; intros tds;
    cbn [fold_left flat_map].
  - by rewrite app_nil_r.
  - rewrite diffTable_split, IH, <- app_assoc. done.
Qed.

Lemma diffTable_name (tableName : string) (td : TableDiff.t) :
  td ∈ diffTable oldTables newTables [] tableName → TableDiff.name td = tableName.
Proof.
  unfold diffTable.
  destruct (JSMap.get tableName oldTables), (JSMap.get tableName newTables);
    simpl; intros H;
    try (apply list_elem_of_singleton in H as ->; simpl; by rewrite ?diffBoth_name).
  by apply elem_of_nil in H.
Qed.
End Tables.

Lemma diffSchemas_tables (oldSchema newSchema : DatabaseSchema.t) (td : TableDiff.t) :
  td ∈ SchemaDiff.tables (diffSchemas oldSchema newSchema)
  ↔ (TableDiff.name td ∈ JSMap.keys (tableMap oldSchema)
     ∨ TableDiff.name td ∈ JSMap.keys (tableMap newSchema))
    ∧ td ∈ diffTable (tableMap oldSchema) (tableMap newSchema) [] (TableDiff.name td).
Proof.
  unfold diffSchemas, Diff.diffSchemas. cbn [SchemaDiff.tables].
  rewrite diffTables_fold. simpl.
  rewrite list_elem_of_In, in_flat_map. setoid_rewrite <- list_elem_of_In.
  setoid_rewrite ofItems_elem. setoid_rewrite elem_of_app. split.
  - intros (n & Hn & Htd). pose proof (diffTable_name _ _ _ _ Htd) as ->. done.
  - intros [Hn Htd]. by exists (TableDiff.name td).
Qed.

End DiffLemmas.

(** A table [Map] holds a name exactly when a table of the schema has it,
    and then holds a table of the schema with that name (the last one). *)
Lemma tableMap_present (schema : DatabaseSchema.t) (tableName : string) :
  (is_Some (JSMap.get tableName (Diff.tableMap schema))
   ↔ tableName ∈ map Table.name (DatabaseSchema.tables schema))
  ∧ (∀ t, JSMap.get tableName (Diff.tableMap schema) = Some t →
          t ∈ DatabaseSchema.tables schema ∧ Table.name t = tableName).
Proof.
  unfold Diff.tableMap.
  destruct (get_ofEntries tableName
              (map (λ t, (Table.name t, t)) (DatabaseSchema.tables schema))) as [H1 H2].
  split.
  - rewrite H1, <- list_fmap_compose. done.
  - intros t Ht. apply H2, list_elem_of_fmap in Ht as (t' & [= -> ->] & Hin). done.
Qed.

Lemma columnMap_present (table : Table.t) (colName : string) :
  (is_Some (JSMap.get colName (Diff.columnMap table))
   ↔ colName ∈ map Column.name (Table.columns table))
  ∧ (∀ c, JSMap.get colName (Diff.columnMap table) = Some c →
          c ∈ Table.columns table ∧ Column.name c = colName).
Proof.
  unfold Diff.columnMap.
  destruct (get_ofEntries colName
              (map (λ c, (Column.name c, c)) (Table.columns table))) as [H1 H2].
  split.
  - rewrite H1, <- list_fmap_compose. done.
  - intros c Hc. apply H2, list_elem_of_fmap in Hc as (c' & [= -> ->] & Hin). done.
Qed.

Section ColumnEntries.
Import Diff.
Local Open Scope list_scope.

(** The names of the loop over the columns: every key of one of the two
    column maps. *)
Lemma allColNames_elem (oldTable newTable : Table.t) (n : string) :
  n ∈ allColNames oldTable newTable
  ↔ is_Some (JSMap.get n (columnMap oldTable))
    ∨ is_Some (JSMap.get n (columnMap newTable)).
Proof. unfold allColNames. by rewrite ofItems_elem, elem_of_app, !keys_get. Qed.

(** The entries of a table that both schemas hold: one for every column
    name that one of the two tables holds, and they are those of
    [colEntry]. *)
Lemma diffBoth_entry (tableName : string) (oldTable newTable : Table.t)
    (colName : string) (cd : ColumnDiff.t) :
  is_Some (JSMap.get colName (columnMap oldTable))
  ∨ is_Some (JSMap.get colName (columnMap newTable)) →
  fst (colEntry (columnMap oldTable) (columnMap newTable) colName) = [cd] →
  cd ∈ TableDiff.columnDiffs (diffBoth tableName oldTable newTable)
  ∧ ColumnDiff.name cd = colName
  ∧ ∀ cd', cd' ∈ TableDiff.columnDiffs (diffBoth tableName oldTable newTable) →
           ColumnDiff.name cd' = colName → cd' = cd.
Proof.
  intros Hin Hentry.
  assert (cd ∈ fst (colEntry (columnMap oldTable) (columnMap newTable) colName)) as Hcd
    by (rewrite Hentry; by left).
  split_and!.
  - apply diffBoth_columns. exists colName. split; [by apply allColNames_elem | done].
  - by eapply colEntry_name.
  - intros cd' Hcd' Hname. apply diffBoth_columns in Hcd' as (n & _ & Hcd').
    pose proof (colEntry_name _ _ _ _ Hcd') as Hn. rewrite Hname in Hn. subst n.
    rewrite Hentry in Hcd'. by apply list_elem_of_singleton in Hcd'.
Qed.

End ColumnEntries.

(** C8. In [diffSchemas(old, new)], a table that both schemas hold under
    its name has exactly one entry.  In it, a column that both tables hold
    under its name has exactly one entry, tagged [modified] exactly when
    its display type ([rawType ?? type]), its [primaryKey] or its
    [notNull] differs between the two, and [unchanged] otherwise (no other
    setting is read); a column that only the new table holds has an entry
    tagged [added], one that only the old table holds an entry tagged
    [removed], and every entry is the entry of a column of one of the two
    tables.  The table is tagged [modified] exactly when one of its column
    entries is tagged [added], [removed] or [modified], and [unchanged]
    otherwise. *)
Theorem diffSchemas_modified
    (oldSchema newSchema : DatabaseSchema.t) (tableName : string)
    (oldTable newTable : Table.t) :
  JSMap.get tableName (Diff.tableMap oldSchema) = Some oldTable →
  JSMap.get tableName (Diff.tableMap newSchema) = Some newTable →
  ∃ td,
    (td ∈ SchemaDiff.tables (diffSchemas oldSchema newSchema)
     ∧ TableDiff.name td = tableName
     ∧ ∀ td', td' ∈ SchemaDiff.tables (diffSchemas oldSchema newSchema) →
              TableDiff.name td' = tableName → td' = td)
    ∧ (∀ colName oldCol newCol,
          JSMap.get colName (Diff.columnMap oldTable) = Some oldCol →
          JSMap.get colName (Diff.columnMap newTable) = Some newCol →
          ∃ cd,
            (cd ∈ TableDiff.columnDiffs td
             ∧ ColumnDiff.name cd = colName
             ∧ ∀ cd', cd' ∈ TableDiff.columnDiffs td →
                      ColumnDiff.name cd' = colName → cd' = cd)
            ∧ (ColumnDiff.action cd = modified
               ↔ Diff.displayType oldCol ≠ Diff.displayType newCol
                 ∨ Diff.pk oldCol ≠ Diff.pk newCol
                 ∨ Diff.nn oldCol ≠ Diff.nn newCol)
            ∧ (ColumnDiff.action cd = unchanged
               ↔ ¬ (Diff.displayType oldCol ≠ Diff.displayType newCol
                    ∨ Diff.pk oldCol ≠ Diff.pk newCol
                    ∨ Diff.nn oldCol ≠ Diff.nn newCol)))
    ∧ (∀ colName newCol,
          JSMap.get colName (Diff.columnMap oldTable) = None →
          JSMap.get colName (Diff.columnMap newTable) = Some newCol →
          ∃ cd, cd ∈ TableDiff.columnDiffs td
                ∧ ColumnDiff.name cd = colName ∧ ColumnDiff.action cd = added)
    ∧ (∀ colName oldCol,
          JSMap.get colName (Diff.columnMap oldTable) = Some oldCol →
          JSMap.get colName (Diff.columnMap newTable) = None →
          ∃ cd, cd ∈ TableDiff.columnDiffs td
                ∧ ColumnDiff.name cd = colName ∧ ColumnDiff.action cd = removed)
    ∧ (∀ cd, cd ∈ TableDiff.columnDiffs td →
             is_Some (JSMap.get (ColumnDiff.name cd) (Diff.columnMap oldTable))
             ∨ is_Some (JSMap.get (ColumnDiff.name cd) (Diff.columnMap newTable)))
    ∧ (TableDiff.action td = modified
       ↔ ∃ cd, cd ∈ TableDiff.columnDiffs td
               ∧ ColumnDiff.action cd ∈ [added; removed; modified])
    ∧ (TableDiff.action td = unchanged
       ↔ ¬ ∃ cd, cd ∈ TableDiff.columnDiffs td
                 ∧ ColumnDiff.action cd ∈ [added; removed; modified]).
Proof.
  intros Hold Hnew.
  assert (Diff.diffTable (Diff.tableMap oldSchema) (Diff.tableMap newSchema) [] tableName
          = [Diff.diffBoth tableName oldTable newTable]) as Hentry.
  { unfold Diff.diffTable. by rewrite Hold, Hnew. }
  exists (Diff.diffBoth tableName oldTable newTable). split_and!.
  - rewrite diffSchemas_tables, diffBoth_name, Hentry. split; [|by left].
    left. apply keys_get. by rewrite Hold.
  - apply diffBoth_name.
  - intros td' Htd Hname. apply diffSchemas_tables in Htd as [_ Htd].
    rewrite Hname, Hentry in Htd. by apply list_elem_of_singleton in Htd.
  - intros colName oldCol newCol Ho Hn.
    assert (∃ cd, fst (colEntry (Diff.columnMap oldTable) (Diff.columnMap newTable)
                         colName) = [cd]) as [cd Hcd].
    { unfold colEntry, Diff.diffColumn. rewrite Ho, Hn.
      destruct (0 <? _); by eexists. }
    exists cd. split.
    + apply diffBoth_entry; [|done]. left. by rewrite Ho.
    + apply (colEntry_modified (Diff.columnMap oldTable) (Diff.columnMap newTable)
               colName cd oldCol newCol); [|done..].
      rewrite Hcd. by left.
  - intros colName newCol Ho Hn. eexists. split_and!.
    + eapply diffBoth_entry; [right; by rewrite Hn|].
      unfold colEntry, Diff.diffColumn. rewrite Ho, Hn. reflexivity.
    + done.
    + done.
  - intros colName oldCol Ho Hn. eexists. split_and!.
    + eapply diffBoth_entry; [left; by rewrite Ho|].
      unfold colEntry, Diff.diffColumn. rewrite Ho, Hn. reflexivity.
    + done.
    + done.
  - intros cd Hcd. apply diffBoth_columns in Hcd as (n & Hn & Hcd).
    rewrite (colEntry_name _ _ _ _ Hcd). by apply allColNames_elem.
  - apply diffBoth_action.
  - rewrite <- diffBoth_action. unfold Diff.diffBoth.
    destruct (fold_left _ _ _) as [cds []]; simpl; split; done.
Qed.

Lemma diffSchemas_modified_witness :
  ∃ td cd,
    td ∈ SchemaDiff.tables (diffSchemas Examples.usersOld Examples.usersNew)
    ∧ TableDiff.name td = "users"
    ∧ cd ∈ TableDiff.columnDiffs td
    ∧ ColumnDiff.name cd = "id"
    ∧ ColumnDiff.action cd = modified
    ∧ TableDiff.action td = modified.
Proof.
  destruct (diffSchemas_modified Examples.usersOld Examples.usersNew "users"
              (Examples.table "users"
                 [Examples.column "id" "int" ct_int (Some true);
                  Examples.column "name" "varchar" ct_varchar None])
              (Examples.table "users"
                 [Examples.column "id" "bigint" ct_bigint (Some true);
                  Examples.column "name" "varchar" ct_varchar None;
                  Examples.column "email" "varchar" ct_varchar None])
              eq_refl eq_refl)
    as (td & (Htd & Hname & _) & Hboth & _ & _ & _ & Hact & _).
  destruct (Hboth "id" (Examples.column "id" "int" ct_int (Some true))
              (Examples.column "id" "bigint" ct_bigint (Some true)) eq_refl eq_refl)
    as (cd & (Hcd & Hn & _) & Hmod & _).
  assert (ColumnDiff.action cd = modified) as Hcdm.
  { apply Hmod. left. discriminate. }
  exists td, cd. split_and!; try done.
  apply Hact. exists cd. split; [done|]. rewrite Hcdm. right; right; left.
Defined.

Example diffSchemas_users :
  map (λ td, (TableDiff.name td, TableDiff.action td,
              map (λ cd, (ColumnDiff.name cd, ColumnDiff.action cd))
                (TableDiff.columnDiffs td)))
    (SchemaDiff.tables (diffSchemas Examples.usersOld Examples.usersNew))
  = [("users", modified,
      [("id", modified); ("name", unchanged); ("email", added)])].
Proof. vm_compute. reflexivity. Qed.

(** ** The parser on a program of the grammar *)

Section ParserOnGrammar.
Import Parser.
Local Open Scope list_scope.

Variable tokens : list Token.t.

(** From any position where the tokens [ts ++ rest] come next, [m] passes
    exactly [ts] and returns a value with [Q]. *)
Definition reads {A} (m : P A) (ts rest : list Token.t) (Q : A → Prop) : Prop :=
  ∀ pos, drop pos tokens = ts ++ rest →
         ∃ a, m pos = Ok (a, pos + List.length ts) ∧ Q a.

Lemma drop_lookup (pos : nat) (l : list Token.t) :
  drop pos tokens = l → tokens !! pos = head l.
Proof.
  intros <-. pose proof (lookup_drop tokens pos 0) as H.
  rewrite Nat.add_0_r in H. rewrite <- H. by destruct (drop pos tokens).
Qed.

Lemma drop_next (pos : nat) (ts rest : list Token.t) :
  drop pos tokens = ts ++ rest → drop (pos + List.length ts) tokens = rest.
Proof. intros H. by rewrite <- drop_drop, H, drop_app_length. Qed.


Lemma reads_ret {A} (a : A) (rest : list Token.t) (Q : A → Prop) :
  Q a → reads (ret a) [] rest Q.
Proof. intros H pos _. exists a. by rewrite Nat.add_0_r. Qed.

Lemma reads_bind {A B} (m : P A) (k : A → P B) (ts1 ts2 rest : list Token.t)
    (Q : A → Prop) (R : B → Prop) :
  reads m ts1 (ts2 ++ rest) Q →
  (∀ a, Q a → reads (k a) ts2 rest R) →
  reads (bind m k) (ts1 ++ ts2) rest R.
Proof.
  intros Hm Hk pos Hpos. rewrite <- app_assoc in Hpos.
  destruct (Hm pos Hpos) as (a & Ha & HQ). unfold bind. rewrite Ha.
  destruct (Hk a HQ (pos + List.length ts1)%nat) as (b & Hb & HR).
  { by apply drop_next in Hpos. }
  exists b. by rewrite length_app, Nat.add_assoc.
Qed.

Lemma reads_bind0 {A B} (m : P A) (k : A → P B) (ts rest : list Token.t)
    (Q : A → Prop) (R : B → Prop) :
  reads m [] (ts ++ rest) Q →
  (∀ a, Q a → reads (k a) ts rest R) →
  reads (bind m k) ts rest R.
Proof. apply (reads_bind m k [] ts). Qed.



(** *** The primitives *)


Lemma reads_check (ty : TokenType) (l : list Token.t) :
  reads (check tokens ty) [] l (λ b, b = hasType ty (head l)).
Proof.
  intros pos Hpos. eexists. split; [|reflexivity]. unfold check, bind, current, ret.
  by rewrite (drop_lookup pos _ Hpos), Nat.add_0_r.
Qed.






Lemma hasType_cons (ty ty' : TokenType) (t : Token.t) (l : list Token.t) :
  Token.type t = ty' → hasType ty (head (t :: l)) = bool_decide (ty' = ty).
Proof.
  intros <-. unfold hasType. cbn. apply bool_decide_ext.
  split; [by intros [= ?] | by intros ->].
Qed.


Lemma reads_skipOptional_no (ty : TokenType) (l : list Token.t) :
  hasType ty (head l) = false → reads (skipOptional tokens ty) [] l (λ _, True).
Proof.
  intros Hty. unfold skipOptional. eapply reads_bind0; [apply reads_check|].
  intros b ->. cbn [app]. rewrite Hty. cbn [when]. by apply reads_ret.
Qed.

(** *** Loops *)





(** What is next is a token of one of the types [tys]. *)
Definition next (tys : list TokenType) (l : list Token.t) : Prop :=
  ∃ t l', l = t :: l' ∧ Token.type t ∈ tys.









(** *** Steps of a proof that a production is read *)

Ltac types :=
  unfold Grammar.tok, Grammar.word in *;
  repeat match goal with H : _ ∧ _ |- _ => destruct H end.

Ltac decided :=
  first [ rewrite bool_decide_eq_true_2 by done
        | rewrite bool_decide_eq_false_2 by done ].






Ltac rd_skip_no :=
  eapply reads_bind0;
  [ apply reads_skipOptional_no; cbn [app];
    first [ erewrite hasType_cons by eassumption; by decided
          | eassumption ]
  | intros ? _; cbn beta ].




(** *** The settings of a column *)





Lemma setting_starts (s : list Token.t) :
  Grammar.setting s → next [IDENTIFIER; NOTE] s.
Proof.
  intros [w t Hw Ht|t1 t2 H1 H2|t v Ht Hv|t c v Ht Hc Hv|t c v Ht Hval Hc Hv]; types;
    eexists _, _; (split; [reflexivity|]); set_solver.
Qed.



Lemma settings_nonempty (ss : list Token.t) :
  Grammar.settings ss → (0 < List.length ss)%nat.
Proof.
  intros [s Hs|s c ss' Hs _ _]; apply setting_starts in Hs as (t & l & -> & _);
    cbn; lia.
Qed.


(** *** Columns and notes *)



(** *** Blocks *)

Section Block.
Context {St : Type}.
Variable line : list Token.t → Prop.
Variable starts : list TokenType.
Variable step : St → P St.

Hypothesis starts_apart : (NEWLINE ∉ starts) ∧ (RBRACE ∉ starts) ∧ (EOF ∉ starts).
Hypothesis line_starts : ∀ l, line l → next starts l.
Hypothesis step_line :
  ∀ s l nls rest,
    line l → Forall (Grammar.tok NEWLINE) nls → next (RBRACE :: starts) rest →
    reads (step s) (l ++ nls) rest (λ _, True).






End Block.

(** *** Statements *)













(** *** The loop of [parse] *)






End ParserOnGrammar.


(** ** From a program to its graph: counts *)

Lemma buildGraph_nodes_names (schema : DatabaseSchema.t) :
  map TableNode.id (Graph.nodes (buildGraph schema))
  = map Table.name (DatabaseSchema.tables schema).
Proof.
  rewrite buildGraph_nodes.
  assert (∀ g t nodes, map TableNode.id (Builder.assignGroup g t nodes)
                       = map TableNode.id nodes) as Hassign.
  { intros g t nodes. induction nodes as [|n nodes IH]; simpl; [done|].
    destruct (String.eqb _ t); simpl; by rewrite ?IH. }
  assert (∀ g ts nodes,
             map TableNode.id
               (fold_left (λ nodes tableName, Builder.assignGroup g tableName nodes)
                  ts nodes)
             = map TableNode.id nodes) as Hfold.
  { intros g ts. induction ts as [|t ts IH]; intros nodes; simpl; [done|].
    by rewrite IH, Hassign. }
  assert (∀ tgs st, map TableNode.id (fst (fold_left Builder.buildGroup tgs st))
                    = map TableNode.id (fst st)) as Hgroups.
  { intros tgs. induction tgs as [|tg tgs IH]; intros [nodes groups]; simpl; [done|].
    rewrite IH. simpl. apply Hfold. }
  rewrite Hgroups. simpl. rewrite <- list_fmap_compose. done.
Qed.

Lemma buildGraph_edges (schema : DatabaseSchema.t) :
  Graph.edges (buildGraph schema)
  = map Builder.buildEdge (DatabaseSchema.relations schema).
Proof. unfold buildGraph, Builder.buildGraph. by destruct (fold_left _ _ _). Qed.





Example buildGraph_blog_counts :
  List.length (Graph.nodes (buildGraph Examples.blog)) = 2
  ∧ List.length (Graph.edges (buildGraph Examples.blog)) = 1.
Proof. vm_compute. done. Qed.


(** * Further properties *)

(** ** Lexer: the tokens it makes *)

Section LexerShape.
Variable input : string.
Import Lexer TokenShape.

Lemma append_assoc (a b c : string) : ((a ++ b) ++ c = a ++ (b ++ c))%string.
Proof. induction a as [|x a IH]; [done|]. change (String x ((a ++ b) ++ c) = String x (a ++ (b ++ c)))%string. by f_equal. Qed.

Lemma append_nil_r (a : string) : (a ++ EmptyString)%string = a.
Proof. induction a as [|x a IH]; [done|]. change (String x (a ++ EmptyString) = String x a)%string. by f_equal. Qed.

Lemma allChars_app (f : ascii → bool) (a b : string) :
  allChars f (a ++ b) = allChars f a && allChars f b.
Proof.
  induction a as [|x a IH]; [done|].
  change (f x && allChars f (a ++ b) = f x && allChars f a && allChars f b).
  by rewrite IH, andb_assoc.
Qed.

(** The loops that skip or read text leave the tokens alone and keep the
    position 1-based. *)
Lemma skipLineComment_frame (fuel : nat) (s s' : state) :
  skipLineComment input fuel s = Some s' →
  tokens s' = tokens s ∧ line s' = line s ∧ column s ≤ column s'.
Proof.
  revert s; induction fuel as [|fuel IH]; intros s; [done|]. simpl.
  destruct (inBounds input s && _).
  - intros H. apply IH in H as (-> & -> & H). simpl in *. split_and!; [done..|lia].
  - intros [= <-]. done.
Qed.

Lemma skipBlockComment_frame (fuel : nat) (s s' : state) :
  skipBlockComment input fuel s = Some s' →
  tokens s' = tokens s ∧ line s ≤ line s' ∧ (1 ≤ column s → 1 ≤ column s').
Proof.
  revert s; induction fuel as [|fuel IH]; intros s; [done|]. simpl.
  destruct (inBounds input s); [|by intros [= <-]].
  destruct (charIs "*" (current input s) && _).
  { intros [= <-]. simpl. split_and!; [done|lia|lia]. }
  intros H. apply IH in H as (-> & Hl & Hc).
  destruct (charIs JS.newline _); simpl in *; split_and!; try done; lia.
Qed.

Lemma skipWhitespaceAndComments_frame (fuel : nat) (s s' : state) :
  skipWhitespaceAndComments input fuel s = Some s' →
  tokens s' = tokens s ∧ line s ≤ line s' ∧ (1 ≤ column s → 1 ≤ column s').
Proof.
  revert s; induction fuel as [|fuel IH]; intros s; [done|].
  cbn [skipWhitespaceAndComments].
  destruct (inBounds input s); [|by intros [= <-]].
  destruct (_ || _ || _).
  { intros H. apply IH in H as (-> & Hl & Hc). simpl in *. split_and!; [done|lia|lia]. }
  destruct (charIs "/" (current input s) && charIs "/" (peek input s)).
  { destruct (skipLineComment input (fuel0 input) s) as [s1|] eqn:E1; [|done].
    cbn [mbind option_bind]. intros H.
    apply skipLineComment_frame in E1 as (E1 & E2 & E3).
    apply IH in H as (-> & Hl & Hc). rewrite E1. split_and!; [done|lia|lia]. }
  destruct (charIs "/" (current input s) && charIs "*" (peek input s)).
  { destruct (skipBlockComment input (fuel0 input) _) as [s1|] eqn:E1; [|done].
    cbn [mbind option_bind]. intros H.
    apply skipBlockComment_frame in E1 as (E1 & E2 & E3).
    apply IH in H as (-> & Hl & Hc). rewrite E1. simpl in *.
    split_and!; [done|lia|]. intros _. apply Hc, E3. lia. }
  by intros [= <-].
Qed.

Lemma readStringLoop_frame (fuel : nat) (quote : ascii) (value v : string) (s s' : state) :
  readStringLoop input fuel quote value s = Some (v, s') →
  tokens s' = tokens s ∧ line s' = line s ∧ column s ≤ column s'.
Proof.
  revert value s; induction fuel as [|fuel IH]; intros value s; [done|]. simpl.
  destruct (inBounds input s && _); [|by intros [= <- <-]].
  destruct (charIs JS.backslash _); intros H;
    apply IH in H as (-> & -> & H); simpl in *; split_and!; try done; lia.
Qed.

(** What a loop of the shape [while (pos < length && test(current()))
    value += current()] adds to [value]: characters that pass the test. *)
Lemma numberChar_Some (x : option ascii) :
  numberChar x = true → ∃ c, x = Some c ∧ digitOrDot c = true.
Proof. destruct x as [c|]; [|done]. intros H. by exists c. Qed.

Lemma identChar_Some (x : option ascii) :
  identChar x = true → ∃ c, x = Some c ∧ JS.isAlphaNumeric c = true.
Proof. destruct x as [c|]; [|done]. intros H. by exists c. Qed.

Lemma readNumberLoop_frame (fuel : nat) (value v : string) (s s' : state) :
  readNumberLoop input fuel value s = Some (v, s') →
  (tokens s' = tokens s ∧ line s' = line s ∧ column s ≤ column s')
  ∧ ∃ w, v = (value ++ w)%string ∧ allChars digitOrDot w = true.
Proof.
  revert value s; induction fuel as [|fuel IH]; intros value s; [done|]. simpl.
  destruct (inBounds input s && _) eqn:E.
  - apply andb_true_iff in E as [_ E].
    apply numberChar_Some in E as (c & -> & Hc). simpl.
    intros H. apply IH in H as ((-> & -> & H) & w & -> & Hw). simpl in *.
    split; [split_and!; [done..|lia]|].
    exists (String c w). rewrite append_assoc. simpl. by rewrite Hc, Hw.
  - intros [= <- <-]. split; [done|]. exists EmptyString. by rewrite append_nil_r.
Qed.

Lemma readIdentifierLoop_frame (fuel : nat) (value v : string) (s s' : state) :
  readIdentifierLoop input fuel value s = Some (v, s') →
  (tokens s' = tokens s ∧ line s' = line s ∧ column s ≤ column s')
  ∧ ∃ w, v = (value ++ w)%string ∧ allChars JS.isAlphaNumeric w = true.
Proof.
  revert value s; induction fuel as [|fuel IH]; intros value s; [done|]. simpl.
  destruct (inBounds input s && _) eqn:E.
  - apply andb_true_iff in E as [_ E].
    apply identChar_Some in E as (c & -> & Hc). simpl.
    intros H. apply IH in H as ((-> & -> & H) & w & -> & Hw). simpl in *.
    split; [split_and!; [done..|lia]|].
    exists (String c w). rewrite append_assoc. simpl. by rewrite Hc, Hw.
  - intros [= <- <-]. split; [done|]. exists EmptyString. by rewrite append_nil_r.
Qed.

(** [KEYWORDS] maps to keyword types only. *)
Lemma shape_word (v : string) :
  identifierText v = true → shape (keywordOrIdentifier v) v = true.
Proof.
  intros Hv. unfold keywordOrIdentifier.
  destruct (KEYWORDS !! v) as [ty|] eqn:E.
  - assert (keywordOrIdentifier v = ty) as Hk by (unfold keywordOrIdentifier; by rewrite E).
    apply KEYWORDS_range in E.
    repeat (apply elem_of_cons in E as [->|E];
            [cbn [shape]; rewrite Hv; apply bool_decide_eq_true_2; exact Hk|]).
    by apply elem_of_nil in E.
  - assert (keywordOrIdentifier v = if JS.inherited v then INHERITED v else IDENTIFIER)
      as Hk by (unfold keywordOrIdentifier; by rewrite E).
    destruct (JS.inherited v); cbn [shape]; rewrite Hv; apply bool_decide_eq_true_2;
      exact Hk.
Qed.

(** The [switch] pushes one token whose value has the shape of its type. *)
Lemma punctuation_shape (ch : ascii) (s : state) :
  other ch = true →
  ∃ ty v s', punctuation input ch s = s'
    ∧ tokens s' = (tokens s ++ [makeToken ty v s])%list
    ∧ shape ty v = true ∧ line s' = line s ∧ column s ≤ column s'.
Proof.
  intros H. unfold punctuation.
  destruct ch as [[] [] [] [] [] [] [] []]; try (vm_compute in H; discriminate H);
    clear H; try destruct (charIs ">" (peek input s));
    (eexists _, _, _; split; [reflexivity|]; simpl;
     split_and!; [reflexivity | reflexivity | reflexivity | lia]).
Qed.

(** The tokens made so far are well formed and the position is 1-based. *)
Definition good (s : state) : Prop :=
  Forall wellFormed (tokens s) ∧ 1 ≤ line s ∧ 1 ≤ column s.

Lemma good_push (ty : TokenType) (v : string) (l c : nat) (s : state) :
  Forall wellFormed (tokens s) → shape ty v = true → 1 ≤ l → 1 ≤ c →
  Forall wellFormed (tokens s ++ [tk ty v l c]).
Proof.
  intros Hs Hv Hl Hc. apply Forall_app. split; [done|].
  apply Forall_singleton. by split_and!.
Qed.

Lemma scanToken_good (ch : ascii) (s s' : state) :
  current input s = Some ch → scanToken input ch s = Some s' → good s → good s'.
Proof.
  intros Hch Hscan (Htok & Hl & Hc).
  pose proof (current_Some_inBounds _ _ _ Hch) as Hin.
  apply inBounds_true in Hin.
  unfold scanToken in Hscan.
  destruct (Ascii.eqb ch JS.newline) eqn:E1.
  { injection Hscan as <-. split_and!; simpl; [|lia|lia].
    by apply good_push. }
  destruct (isQuote ch) eqn:E2.
  { unfold readString in Hscan.
    destruct (readStringLoop input _ ch EmptyString (advance s)) as [[v s1]|] eqn:E;
      [|done].
    cbn in Hscan. injection Hscan as <-.
    apply readStringLoop_frame in E as (E & El & Ec). simpl in *.
    split_and!; simpl; [|lia|lia].
    rewrite E. apply good_push; [done|done|lia|lia]. }
  destruct (JS.isDigit ch) eqn:E3.
  { unfold readNumber, fuel0 in Hscan. cbn [readNumberLoop] in Hscan.
    rewrite Hin, Hch in Hscan. cbn [numberChar andb] in Hscan.
    rewrite E3 in Hscan. cbn [orb JS.plusChar] in Hscan.
    destruct (readNumberLoop input _ _ (advance s)) as [[v s1]|] eqn:E; [|done].
    cbn in Hscan. injection Hscan as <-.
    apply readNumberLoop_frame in E as ((E & El & Ec) & w & -> & Hw). simpl in *.
    split_and!; simpl; [|lia|lia].
    rewrite E. apply good_push; [done| |lia|lia].
    change (JS.isDigit ch && allChars digitOrDot w = true). by rewrite E3, Hw. }
  destruct (JS.isAlpha ch || Ascii.eqb ch "_") eqn:E4.
  { unfold readIdentifier, fuel0 in Hscan. cbn [readIdentifierLoop] in Hscan.
    rewrite Hin, Hch in Hscan. cbn [identChar andb] in Hscan.
    assert (JS.isAlphaNumeric ch = true) as E5.
    { unfold JS.isAlphaNumeric. apply orb_true_iff in E4 as [->| ->]; [done|].
      by rewrite orb_true_r. }
    rewrite E5 in Hscan. cbn [JS.plusChar] in Hscan.
    destruct (readIdentifierLoop input _ _ (advance s)) as [[v s1]|] eqn:E; [|done].
    cbn in Hscan. injection Hscan as <-.
    apply readIdentifierLoop_frame in E as ((E & El & Ec) & w & -> & Hw). simpl in *.
    split_and!; simpl; [|lia|lia].
    rewrite E. apply good_push; [done| |lia|lia].
    apply shape_word.
    change ((JS.isAlpha ch || Ascii.eqb ch "_") && allChars JS.isAlphaNumeric w = true).
    by rewrite E4, Hw. }
  injection Hscan as <-.
  destruct (punctuation_shape ch s) as (ty & v & s' & -> & Ht & Hv & Hl' & Hc').
  { unfold other. by rewrite E1, E2, E3, E4. }
  split_and!; [|lia|lia]. rewrite Ht. by apply good_push.
Qed.

Lemma tokenizeLoop_good (fuel : nat) (s s' : state) :
  tokenizeLoop input fuel s = Some s' → good s → good s'.
Proof.
  revert s; induction fuel as [|fuel IH]; intros s; [done|].
  cbn [tokenizeLoop].
  destruct (inBounds input s); [|by intros [= <-]].
  destruct (skipWhitespaceAndComments input _ s) as [s1|] eqn:E1; [|done].
  cbn [mbind option_bind].
  apply skipWhitespaceAndComments_frame in E1 as (Et & El & Ec).
  assert (good s → good s1) as Hs1.
  { intros (H1 & H2 & H3). split_and!; [by rewrite Et | lia | auto]. }
  destruct (current input s1) as [ch|] eqn:Hch; [|intros [= <-]; done].
  destruct (scanToken input ch s1) as [s2|] eqn:E2; [|done].
  cbn [mbind option_bind]. intros H Hs. apply (IH s2 H).
  eapply scanToken_good; eauto.
Qed.

End LexerShape.

(** Every token that [tokenize] returns before the final EOF is well
    formed: a NUMBER is a digit followed by digits and dots; a keyword, an
    identifier or a word that names an inherited member matches
    [[a-zA-Z_][a-zA-Z0-9_]*] and has the type that [KEYWORDS] gives its
    text; a punctuation token holds its own character(s); an UNKNOWN token
    holds one character that no case of the loop names; no token before the
    last has type EOF; and lines and columns start from 1. *)
Theorem tokenize_well_formed (input : string) :
  ∃ front l c,
    Lexer.tokenize input = Some (front ++ [tk EOF EmptyString l c])%list
    ∧ Forall TokenShape.wellFormed front
    ∧ Forall (λ tok, Token.type tok ≠ EOF) front
    ∧ 1 ≤ l ∧ 1 ≤ c.
Proof.
  destruct (tokenize_total input) as (s & Hloop & Hs).
  assert (good s) as (Hf & Hl & Hc).
  { eapply tokenizeLoop_good; [exact Hloop|]. split_and!; simpl; [constructor|lia|lia]. }
  exists (Lexer.tokens s), (Lexer.line s), (Lexer.column s).
  split_and!; [exact Hs | done | | done | done].
  eapply Forall_impl; [exact Hf|].
  intros tok (Hshape & _) E. rewrite E in Hshape. done.
Qed.

(** ** Parser: no token is read past the final EOF *)

Section ParserTokenSafety.
Import Parser.
Variable tokens : list Token.t.
Hypothesis last_is_EOF : Token.type <$> last tokens = Some EOF.

(** How much is known about the position: nothing (level 0), that it is
    the position of a token (level 1), or of a token that is not the
    EOF token (level 2). *)
Definition atLevel (l pos : nat) : Prop :=
  match l with
  | 0 => True
  | 1 => pos < List.length tokens
  | _ => ∃ tok, tokens !! pos = Some tok ∧ Token.type tok ≠ EOF
  end.

(** Started at level [l], [m] throws no TypeError (it reads no member of
    the [undefined] that lies past the tokens), and it ends at level
    [post a] when it returns [a]. *)
Definition tokenSafe {A : Type} (l : nat) (m : P A) (post : A → nat) : Prop :=
  ∀ pos, atLevel l pos →
    m pos ≠ Throw TypeError ∧ ∀ a p, m pos = Ok (a, p) → atLevel (post a) p.

Lemma atLevel_le (l l' pos : nat) : l' ≤ l → atLevel l pos → atLevel l' pos.
Proof.
  destruct l' as [|[|l']]; [done| |].
  - destruct l as [|[|l]]; [lia|done|]. intros _ (tok & H & _).
    by eapply lookup_lt_Some.
  - destruct l as [|[|l]]; [lia|lia|done].
Qed.

Lemma atLevel_next (pos : nat) : atLevel 2 pos → atLevel 1 (S pos).
Proof.
  intros (tok & Htok & Hty). simpl.
  pose proof (lookup_lt_Some _ _ _ Htok) as Hlt.
  destruct (decide (S pos = List.length tokens)) as [E|]; [|lia].
  exfalso. apply Hty. rewrite last_lookup, <- E in last_is_EOF. simpl in last_is_EOF.
  rewrite Htok in last_is_EOF. by injection last_is_EOF.
Qed.

Lemma atLevel_advance (l pos : nat) : atLevel l pos → atLevel (Nat.min 1 (l - 1)) (S pos).
Proof.
  destruct l as [|[|l]]; [done|done|]. intros H.
  replace (Nat.min 1 (S (S l) - 1)) with 1 by lia. by apply atLevel_next.
Qed.

Lemma tokenSafe_weaken {A} (l l' : nat) (m : P A) (post post' : A → nat) :
  tokenSafe l m post → l ≤ l' → (∀ a, post' a ≤ post a) → tokenSafe l' m post'.
Proof.
  intros H Hl Hp pos Hpos. destruct (H pos) as [H1 H2]; [by eapply atLevel_le|].
  split; [done|]. intros a p E. eapply atLevel_le; [apply Hp|]. by apply H2.
Qed.

Lemma tokenSafe_pre {A} (l l' : nat) (m : P A) (post : A → nat) :
  tokenSafe l m post → l ≤ l' → tokenSafe l' m post.
Proof. intros H Hl. by eapply tokenSafe_weaken. Qed.

Lemma tokenSafe_ret {A} (l : nat) (a : A) (post : A → nat) :
  post a ≤ l → tokenSafe l (ret a) post.
Proof.
  intros H pos Hpos. split; [done|]. intros b p [= <- <-]. by eapply atLevel_le.
Qed.

Lemma tokenSafe_bind {A B} (l : nat) (m : P A) (k : A → P B)
    (mid : A → nat) (post : B → nat) :
  tokenSafe l m mid → (∀ a, tokenSafe (mid a) (k a) post) →
  tokenSafe l (bind m k) post.
Proof.
  intros Hm Hk pos Hpos. unfold bind. destruct (Hm pos Hpos) as [H1 H2].
  destruct (m pos) as [[a p]|e|]; [|split; [|done]|done].
  - apply (Hk a p). by apply H2.
  - intros [= ->]. by apply H1.
Qed.

Lemma tokenSafe_current (l : nat) : tokenSafe l (current tokens) (λ _, l).
Proof. intros pos Hpos. split; [done|]. by intros a p [= _ <-]. Qed.

Lemma tokenSafe_peekNext (l : nat) : tokenSafe l (peekNext tokens) (λ _, l).
Proof. intros pos Hpos. split; [done|]. by intros a p [= _ <-]. Qed.

Lemma hasType_true (ty : TokenType) (x : option Token.t) :
  hasType ty x = true → ∃ tok, x = Some tok ∧ Token.type tok = ty.
Proof.
  unfold hasType. intros H. apply bool_decide_eq_true in H.
  destruct x as [tok|]; [|done]. exists tok. split; [done|]. by injection H.
Qed.

Lemma tokenSafe_check (ty : TokenType) (l : nat) :
  ty ≠ EOF → tokenSafe l (check tokens ty) (λ b, if b then 2 else l).
Proof.
  intros Hty pos Hpos. split; [done|]. intros b p [= <- <-].
  destruct (hasType ty (tokens !! pos)) eqn:E; [|done].
  apply hasType_true in E as (tok & E & <-). by exists tok.
Qed.

Lemma not_at_end (pos : nat) :
  hasType EOF (tokens !! pos) || (List.length tokens <=? pos) = false →
  atLevel 2 pos.
Proof.
  intros H. apply orb_false_iff in H as [H1 H2]. apply Nat.leb_gt in H2.
  destruct (lookup_lt_is_Some_2 tokens pos H2) as [tok Htok].
  exists tok. split; [done|]. intros E.
  unfold hasType in H1. rewrite Htok in H1. simpl in H1.
  rewrite E in H1. by rewrite bool_decide_eq_true_2 in H1.
Qed.

Lemma tokenSafe_isAtEnd (l : nat) :
  tokenSafe l (isAtEnd tokens) (λ b, if b then l else 2).
Proof.
  intros pos Hpos. split; [done|]. intros b p [= <- <-].
  destruct (_ || _) eqn:E; [done|]. by apply not_at_end.
Qed.

Lemma tokenSafe_continues (closing : TokenType) (l : nat) :
  tokenSafe l (continues tokens closing) (λ b, if b then 2 else l).
Proof.
  intros pos Hpos. split; [done|]. intros b p [= <- <-].
  destruct (negb _ && negb _) eqn:E; [|done].
  apply andb_true_iff in E as [_ E]. apply negb_true_iff in E. by apply not_at_end.
Qed.

Lemma tokenSafe_advance (l : nat) :
  tokenSafe l (advance tokens) (λ _, Nat.min 1 (l - 1)).
Proof.
  intros pos Hpos. split; [done|]. intros a p [= _ <-]. by apply atLevel_advance.
Qed.

Lemma tokenSafe_expect (ty : TokenType) (l : nat) :
  ty ≠ EOF → tokenSafe l (expect tokens ty) (λ _, 1).
Proof.
  intros Hty pos Hpos. unfold expect.
  destruct (tokens !! pos) as [tok|] eqn:Htok; [|done].
  destruct (decide _) as [E|]; [|done]. split; [done|].
  intros a p [= _ <-]. apply atLevel_next. exists tok. by rewrite E.
Qed.

Lemma tokenSafe_currentLower (l : nat) :
  1 ≤ l → tokenSafe l (currentLower tokens) (λ _, l).
Proof.
  intros Hl pos Hpos. unfold currentLower, bind, current, ret.
  apply (atLevel_le _ 1) in Hpos as Hlt; [|done].
  destruct (lookup_lt_is_Some_2 tokens pos Hlt) as [tok ->].
  split; [done|]. by intros a p [= _ <-].
Qed.

Lemma tokenSafe_whileLoop {St} (l fuel : nat) (cond : P bool) (body : St → P St) (s : St) :
  tokenSafe l cond (λ b, if b then 2 else l) →
  (∀ s, tokenSafe 2 (body s) (λ _, l)) →
  tokenSafe l (whileLoop fuel cond body s) (λ _, l).
Proof.
  intros Hc Hb. revert s. induction fuel as [|fuel IH]; intros s; [done|].
  cbn [whileLoop]. eapply tokenSafe_bind; [exact Hc|].
  intros [|]; [|by apply tokenSafe_ret].
  eapply tokenSafe_bind; [apply Hb|]. intros s'. apply IH.
Qed.

Lemma tokenSafe_skipNewlines (l : nat) :
  tokenSafe l (skipNewlines tokens) (λ _, Nat.min l 1).
Proof.
  unfold skipNewlines. eapply tokenSafe_pre; [|apply (Nat.le_min_l l 1)].
  apply tokenSafe_whileLoop; [by apply tokenSafe_check|]. intros ?.
  eapply tokenSafe_bind; [apply tokenSafe_advance|]. intros ?.
  apply tokenSafe_ret. simpl. lia.
Qed.

Lemma tokenSafe_skipOptional (ty : TokenType) (l : nat) :
  ty ≠ EOF → tokenSafe l (skipOptional tokens ty) (λ _, Nat.min l 1).
Proof.
  intros Hty. unfold skipOptional, when.
  eapply tokenSafe_bind; [by apply tokenSafe_check|]. intros [|].
  - eapply tokenSafe_bind; [apply tokenSafe_advance|]. intros ?.
    apply tokenSafe_ret. simpl. lia.
  - apply tokenSafe_ret. lia.
Qed.

Create HintDb tokenSafe.

(** One step through the text of a parser function. *)
Ltac ts_prim :=
  first [ apply tokenSafe_current | apply tokenSafe_peekNext | apply tokenSafe_isAtEnd
        | apply tokenSafe_check; discriminate | apply tokenSafe_continues
        | apply tokenSafe_advance | apply tokenSafe_expect; discriminate
        | apply tokenSafe_currentLower; simpl; lia
        | apply tokenSafe_skipNewlines | apply tokenSafe_skipOptional; discriminate
        | eapply tokenSafe_pre; [solve [auto with tokenSafe] | simpl; lia] ].

Ltac ts_step :=
  lazymatch goal with
  | |- ∀ _, _ => intro
  | |- tokenSafe (if ?b then _ else _) _ _ => destruct b; cbn beta iota
  | |- tokenSafe _ (let _ := _ in _) _ => cbv zeta
  | |- tokenSafe _ (bind (if _ then _ else _) _) _ =>
      first [ apply (tokenSafe_bind _ _ _ (λ _, 1)); [solve [ts] |]
            | apply (tokenSafe_bind _ _ _ (λ _, 0)); [solve [ts] |] ]
  | |- tokenSafe _ (bind (bind _ _) _) _ =>
      first [ apply (tokenSafe_bind _ _ _ (λ _, 1)); [solve [ts] |]
            | apply (tokenSafe_bind _ _ _ (λ _, 0)); [solve [ts] |] ]
  | |- tokenSafe ?l (bind (ret _) _) _ =>
      apply (tokenSafe_bind _ _ _ (λ _, l)); [apply tokenSafe_ret; lia |]
  | |- tokenSafe _ (bind (whileLoop _ _ _ _) _) _ =>
      eapply tokenSafe_bind;
      [ first [ apply (tokenSafe_whileLoop 1); [apply tokenSafe_continues | solve [ts]]
              | eapply tokenSafe_pre;
                [apply (tokenSafe_whileLoop 0); [apply tokenSafe_continues | solve [ts]]
                | lia ] ]
      | intros ?; cbn beta ]
  | |- tokenSafe _ (bind _ _) _ => eapply tokenSafe_bind; [ts_prim | intros ?; cbn beta]
  | |- tokenSafe _ (ret _) _ => apply tokenSafe_ret; simpl; lia
  | |- tokenSafe _ (if ?b then _ else _) _ => destruct b
  | |- tokenSafe _ (match ?x with _ => _ end) _ => destruct x
  | |- tokenSafe _ _ _ =>
      eapply tokenSafe_weaken;
      [solve [auto with tokenSafe] | simpl; lia | intros; simpl; lia]
  end
with ts := repeat ts_step.

Lemma tokenSafe_parseDefaultValue : tokenSafe 1 (parseDefaultValue tokens) (λ _, 0).
Proof.
  intros pos Hpos. unfold parseDefaultValue, bind, current, advance.
  destruct (lookup_lt_is_Some_2 tokens pos Hpos) as [tok ->].
  split; [by repeat case_match|done].
Qed.

Lemma tokenSafe_parseRelationType : tokenSafe 1 (parseRelationType tokens) (λ _, 0).
Proof.
  intros pos Hpos. unfold parseRelationType, bind, current, advance.
  destruct (lookup_lt_is_Some_2 tokens pos Hpos) as [tok ->]. done.
Qed.

#[local] Hint Resolve tokenSafe_parseDefaultValue tokenSafe_parseRelationType : tokenSafe.

Lemma tokenSafe_parseSetting (name : string) (settings : ColumnSettings.t) :
  tokenSafe 1 (parseSetting tokens name settings) (λ _, 0).
Proof. unfold parseSetting. ts. Qed.

#[local] Hint Resolve tokenSafe_parseSetting : tokenSafe.

Lemma tokenSafe_settingStep (settings : ColumnSettings.t) :
  tokenSafe 2 (settingStep tokens settings) (λ _, 0).
Proof. unfold settingStep. ts. Qed.

Lemma tokenSafe_parseSettings (settings : ColumnSettings.t) :
  tokenSafe 0 (parseSettings tokens settings) (λ _, 0).
Proof.
  unfold parseSettings. apply tokenSafe_whileLoop; [apply tokenSafe_continues|].
  apply tokenSafe_settingStep.
Qed.

#[local] Hint Resolve tokenSafe_parseSettings : tokenSafe.

Lemma tokenSafe_parseColumn : tokenSafe 0 (parseColumn tokens) (λ _, 1).
Proof.
  unfold parseColumn. ts.
Qed.

Lemma tokenSafe_parseNote : tokenSafe 0 (parseNote tokens) (λ _, 1).
Proof. unfold parseNote. ts. Qed.

#[local] Hint Resolve tokenSafe_parseColumn tokenSafe_parseNote : tokenSafe.

Lemma tokenSafe_indexColumnStep (columns : list string) :
  tokenSafe 2 (indexColumnStep tokens columns) (λ _, 1).
Proof. unfold indexColumnStep. ts. Qed.

Lemma tokenSafe_indexSettingStep (idx : Index.t) :
  tokenSafe 2 (indexSettingStep tokens idx) (λ _, 0).
Proof. unfold indexSettingStep. ts. Qed.

#[local] Hint Resolve tokenSafe_indexColumnStep tokenSafe_indexSettingStep : tokenSafe.

Lemma tokenSafe_parseIndex : tokenSafe 1 (parseIndex tokens) (λ _, 1).
Proof. unfold parseIndex, parseIndexColumns, parseIndexSettings. ts. Qed.

#[local] Hint Resolve tokenSafe_parseIndex : tokenSafe.

Lemma tokenSafe_indexStep (indexes : list Index.t) :
  tokenSafe 2 (indexStep tokens indexes) (λ _, 1).
Proof. unfold indexStep. ts. Qed.

#[local] Hint Resolve tokenSafe_indexStep : tokenSafe.

Lemma tokenSafe_parseIndexes (table : Table.t) :
  tokenSafe 0 (parseIndexes tokens table) (λ _, 1).
Proof. unfold parseIndexes. ts. Qed.

#[local] Hint Resolve tokenSafe_parseIndexes : tokenSafe.

Lemma tokenSafe_tableBodyStep (table : Table.t) :
  tokenSafe 2 (tableBodyStep tokens table) (λ _, 1).
Proof.
  unfold tableBodyStep. ts.
Qed.

#[local] Hint Resolve tokenSafe_tableBodyStep : tokenSafe.

Lemma tokenSafe_parseTable : tokenSafe 0 (parseTable tokens) (λ _, 1).
Proof. unfold parseTable. ts. Qed.

Lemma tokenSafe_enumValueStep (values : list EnumValue.t) :
  tokenSafe 2 (enumValueStep tokens values) (λ _, 1).
Proof. unfold enumValueStep. ts. Qed.

Lemma tokenSafe_groupTableStep (tables : list string) :
  tokenSafe 2 (groupTableStep tokens tables) (λ _, 1).
Proof. unfold groupTableStep. ts. Qed.

#[local] Hint Resolve tokenSafe_enumValueStep tokenSafe_groupTableStep : tokenSafe.

Lemma tokenSafe_parseEnum : tokenSafe 0 (parseEnum tokens) (λ _, 1).
Proof. unfold parseEnum. ts. Qed.

Lemma tokenSafe_parseTableColumn : tokenSafe 0 (parseTableColumn tokens) (λ _, 1).
Proof. unfold parseTableColumn. ts. Qed.

#[local] Hint Resolve tokenSafe_parseTableColumn : tokenSafe.

Lemma tokenSafe_parseRef : tokenSafe 0 (parseRef tokens) (λ _, 1).
Proof. unfold parseRef. ts. Qed.

Lemma tokenSafe_parseTableGroup : tokenSafe 0 (parseTableGroup tokens) (λ _, 1).
Proof. unfold parseTableGroup. ts. Qed.

#[local] Hint Resolve tokenSafe_parseTable tokenSafe_parseEnum tokenSafe_parseRef
  tokenSafe_parseTableGroup : tokenSafe.

Lemma tokenSafe_unexpected {A} (post : A → nat) :
  tokenSafe 2 (bind (current tokens) (λ tok, throw (unexpected tok))) post.
Proof.
  intros pos (tok & Htok & _). unfold bind, current, throw. rewrite Htok. done.
Qed.

Lemma tokenSafe_parseLoop (fuel : nat) (schema : DatabaseSchema.t) :
  tokenSafe 0 (parseLoop tokens fuel schema) (λ _, 0).
Proof.
  revert schema. induction fuel as [|fuel IH]; intros schema; [done|].
  cbn [parseLoop].
  eapply tokenSafe_bind; [apply tokenSafe_isAtEnd|]. intros [|]; [ts|].
  eapply tokenSafe_bind; [apply tokenSafe_skipNewlines|]. intros ?.
  eapply tokenSafe_bind; [apply tokenSafe_isAtEnd|]. intros [|]; [ts|].
  do 4 (eapply tokenSafe_bind; [apply tokenSafe_check; discriminate|];
        intros [|]; cbn beta iota).
  all: try apply tokenSafe_unexpected.
  all: eapply tokenSafe_bind; [ts_prim|]; intros ?;
    eapply tokenSafe_pre; [apply IH | lia].
Qed.

End ParserTokenSafety.

(** On a token list that ends with an EOF token, and so on the tokens of
    every input text, the parser throws no TypeError: it never reads a
    member of the [undefined] that [current()] returns past the end.  What
    it throws is a ParserError. *)
Theorem parser_throws_only_ParserError :
  (∀ tokens fuel schema,
      Token.type <$> last tokens = Some EOF →
      Parser.parseLoop tokens fuel schema 0 ≠ Throw TypeError)
  ∧ (∀ input, parseDSL input ≠ Throw TypeError).
Proof.
  assert (∀ tokens fuel schema,
      Token.type <$> last tokens = Some EOF →
      Parser.parseLoop tokens fuel schema 0 ≠ Throw TypeError) as H.
  { intros tokens fuel schema Hlast.
    by apply (tokenSafe_parseLoop tokens Hlast fuel schema 0). }
  split; [exact H|].
  intros input. unfold parseDSL, Parser.parse.
  destruct (tokenize_total input) as (s & _ & ->).
  specialize (H (Lexer.finish s) (Parser.fuel0 (Lexer.finish s)) Parser.emptySchema).
  destruct (Parser.parseLoop _ _ _ 0) as [[schema p]|e|]; [done| |done].
  intros [= ->]. apply H; [|done]. unfold Lexer.finish. simpl. by rewrite last_snoc.
Qed.

(** A Ref statement cut off before its operator, with and without the
    final EOF token. *)
Lemma parser_throws_only_ParserError_witness :
  Parser.parseLoop
    [tk REF "Ref" 1 1; tk IDENTIFIER "a" 1 5; tk DOT "." 1 6; tk IDENTIFIER "b" 1 7;
     tk EOF EmptyString 1 8] 6 Parser.emptySchema 0
  ≠ Throw TypeError.
Proof.
  apply (proj1 parser_throws_only_ParserError). reflexivity.
Defined.

Example parser_TypeError_without_EOF :
  Parser.parseLoop
    [tk REF "Ref" 1 1; tk IDENTIFIER "a" 1 5; tk DOT "." 1 6; tk IDENTIFIER "b" 1 7]
    5 Parser.emptySchema 0
  = Throw TypeError.
Proof. vm_compute. reflexivity. Qed.

(** ** Parser: the names it puts in a schema *)

Section ParserNames.
Import Parser.
Variable tokens : list Token.t.
Variable N : string → Prop.
Hypothesis identifiers :
  ∀ tok, tok ∈ tokens → Token.type tok = IDENTIFIER → N (Token.value tok).

(** Every value that [m] returns satisfies [Q]. *)
Definition yields {A : Type} (m : P A) (Q : A → Prop) : Prop :=
  ∀ pos a p, m pos = Ok (a, p) → Q a.

Lemma yields_ret {A} (a : A) (Q : A → Prop) : Q a → yields (ret a) Q.
Proof. intros H pos b p [= <- _]. done. Qed.

Lemma yields_bind {A B} (m : P A) (k : A → P B) (R : A → Prop) (Q : B → Prop) :
  yields m R → (∀ a, R a → yields (k a) Q) → yields (bind m k) Q.
Proof.
  intros Hm Hk pos b q. unfold bind.
  destruct (m pos) as [[a p]| |] eqn:E; [|done..].
  apply (Hk a); by eauto.
Qed.

Lemma yields_then {A B} (m : P A) (k : A → P B) (Q : B → Prop) :
  (∀ a, yields (k a) Q) → yields (bind m k) Q.
Proof. intros Hk. apply (yields_bind _ _ (λ _, True)); [done | auto]. Qed.

Lemma yields_expect_IDENTIFIER :
  yields (expect tokens IDENTIFIER) (λ tok, N (Token.value tok)).
Proof.
  intros pos tok p. unfold expect.
  destruct (tokens !! pos) as [tok'|] eqn:E; [|done].
  destruct (decide _) as [Hty|]; [|done]. intros [= <- _].
  apply identifiers; [|done]. by eapply list_elem_of_lookup_2.
Qed.

Lemma yields_whileLoop {St} (fuel : nat) (cond : P bool) (body : St → P St)
    (Q : St → Prop) (s : St) :
  Q s → (∀ s, Q s → yields (body s) Q) → yields (whileLoop fuel cond body s) Q.
Proof.
  intros Hs Hb. revert s Hs. induction fuel as [|fuel IH]; intros s Hs; [done|].
  cbn [whileLoop]. apply yields_then. intros [|]; [|by apply yields_ret].
  eapply yields_bind; [by apply Hb|]. intros s' Hs'. by apply IH.
Qed.

(** One step through the text of a parser function; a value read by
    [expect('IDENTIFIER')] comes with the fact that it satisfies [N]. *)
Ltac yields_step :=
  lazymatch goal with
  | |- ∀ _, _ => intro
  | |- yields (let _ := _ in _) _ => cbv zeta
  | |- yields (bind (expect _ IDENTIFIER) _) _ =>
      eapply yields_bind; [apply yields_expect_IDENTIFIER | cbn beta; intros ? ?]
  | |- yields (bind (if ?b then _ else _) _) _ => destruct b
  | |- yields (bind _ _) _ => apply yields_then; intros ?
  | |- yields (ret _) _ => apply yields_ret
  | |- yields (if ?b then _ else _) _ => destruct b
  | |- yields (match ?x with _ => _ end) _ => destruct x
  end.

Lemma yields_parseColumn : yields (parseColumn tokens) (λ c, N (Column.name c)).
Proof. unfold parseColumn. repeat yields_step; done. Qed.

Lemma yields_tableBodyStep (table : Table.t) :
  Names.table N table → yields (tableBodyStep tokens table) (Names.table N).
Proof.
  intros (Hn & Ha & Hc). unfold tableBodyStep. do 3 yields_step.
  eapply (yields_bind _ _ (Names.table N)); [|by repeat yields_step].
  destruct a; [|destruct a0; [|destruct a1]].
  - unfold parseIndexes. repeat yields_step. done.
  - repeat yields_step. done.
  - eapply yields_bind; [apply yields_parseColumn|]. cbn beta. intros c Hcol.
    apply yields_ret. split_and!; [done..|]. simpl. apply Forall_app. split; [done|].
    by apply Forall_singleton.
  - repeat yields_step. done.
Qed.

Lemma yields_parseTable : yields (parseTable tokens) (Names.table N).
Proof.
  unfold parseTable. do 3 yields_step.
  eapply (yields_bind _ _ (from_option N True)).
  { destruct a0; repeat yields_step; done. }
  intros alias Halias. cbv zeta. do 2 yields_step.
  eapply yields_bind; [|by repeat yields_step].
  apply yields_whileLoop; [|apply yields_tableBodyStep].
  split_and!; [done..|]. simpl. constructor.
Qed.

Lemma yields_enumValueStep (values : list EnumValue.t) :
  Forall (λ v, N (EnumValue.name v)) values →
  yields (enumValueStep tokens values) (Forall (λ v, N (EnumValue.name v))).
Proof.
  intros Hv. unfold enumValueStep. yields_step. apply yields_then. intros ?.
  apply yields_then. intros ?. yields_step. yields_step.
  apply Forall_app. split; [done|]. by apply Forall_singleton.
Qed.

Lemma yields_parseEnum : yields (parseEnum tokens) (Names.enum N).
Proof.
  unfold parseEnum. do 4 yields_step.
  eapply yields_bind; [|by repeat yields_step].
  apply yields_whileLoop; [constructor | apply yields_enumValueStep].
Qed.

Lemma yields_parseTableColumn : yields (parseTableColumn tokens) (Names.endpoint N).
Proof. unfold parseTableColumn. repeat yields_step. done. Qed.

Lemma yields_parseRef : yields (parseRef tokens) (Names.relation N).
Proof.
  unfold parseRef. do 3 yields_step.
  eapply (yields_bind _ _ (from_option N True)).
  { destruct (_ && _); repeat yields_step; done. }
  intros name Hname. yields_step.
  eapply yields_bind; [apply yields_parseTableColumn|]. cbn beta. intros from Hfrom.
  yields_step.
  eapply yields_bind; [apply yields_parseTableColumn|]. cbn beta. intros to Hto.
  by apply yields_ret.
Qed.

Lemma yields_groupTableStep (tables : list string) :
  Forall N tables → yields (groupTableStep tokens tables) (Forall N).
Proof.
  intros Ht. unfold groupTableStep. repeat yields_step.
  apply Forall_app. split; [done|]. by apply Forall_singleton.
Qed.

Lemma yields_parseTableGroup : yields (parseTableGroup tokens) (Names.group N).
Proof.
  unfold parseTableGroup. do 4 yields_step.
  eapply yields_bind; [|by repeat yields_step].
  apply yields_whileLoop; [constructor | apply yields_groupTableStep].
Qed.

Lemma yields_parseLoop (fuel : nat) (schema : DatabaseSchema.t) :
  Names.schema N schema → yields (parseLoop tokens fuel schema) (Names.schema N).
Proof.
  revert schema. induction fuel as [|fuel IH]; intros schema Hs; [done|].
  destruct Hs as (Ht & Hr & He & Hg).
  cbn [parseLoop]. yields_step. destruct a; [by apply yields_ret|].
  yields_step. yields_step. destruct a0; [by apply yields_ret|].
  do 4 yields_step.
  destruct a0; [|destruct a1; [|destruct a2; [|destruct a3]]].
  - eapply yields_bind; [apply yields_parseTable|]. cbn beta. intros t Hnew. apply IH.
    split_and!; try done. simpl. apply Forall_app. split; [done|]. by apply Forall_singleton.
  - eapply yields_bind; [apply yields_parseEnum|]. cbn beta. intros t Hnew. apply IH.
    split_and!; try done. simpl. apply Forall_app. split; [done|]. by apply Forall_singleton.
  - eapply yields_bind; [apply yields_parseRef|]. cbn beta. intros t Hnew. apply IH.
    split_and!; try done. simpl. apply Forall_app. split; [done|]. by apply Forall_singleton.
  - eapply yields_bind; [apply yields_parseTableGroup|]. cbn beta. intros t Hnew. apply IH.
    split_and!; try done. simpl. apply Forall_app. split; [done|]. by apply Forall_singleton.
  - yields_step. done.
Qed.

End ParserNames.

Lemma alphaNumeric_lacks (c : ascii) (s : string) :
  JS.isAlphaNumeric c = false →
  TokenShape.allChars JS.isAlphaNumeric s = true → Spec.lacks c s = true.
Proof.
  intros Hc. induction s as [|d s IH]; [done|]. simpl.
  intros H. apply andb_true_iff in H as [Hd Hs]. rewrite IH by done.
  destruct (Ascii.eqb_spec d c) as [->|]; [congruence | done].
Qed.

Lemma identifier_lacks_dot (s : string) :
  Names.identifier s → Spec.lacks "."%char s = true.
Proof.
  intros [H _]. destruct s as [|c s]; [done|]. simpl in *.
  apply andb_true_iff in H as [Hc Hs].
  rewrite (alphaNumeric_lacks "."%char s) by done.
  destruct (Ascii.eqb_spec c "."%char) as [->|]; [by vm_compute in Hc | done].
Qed.

Lemma tokenize_identifiers (input : string) (tokens : list Token.t) :
  Lexer.tokenize input = Some tokens →
  ∀ tok, tok ∈ tokens → Token.type tok = IDENTIFIER → Names.identifier (Token.value tok).
Proof.
  intros Htok tok Hin Hty.
  destruct (tokenize_total input) as (s & Hloop & Hs).
  rewrite Hs in Htok. injection Htok as <-.
  assert (good s) as (Hf & _).
  { eapply tokenizeLoop_good; [exact Hloop|]. split_and!; simpl; [constructor|lia|lia]. }
  unfold Lexer.finish in Hin. simpl in Hin.
  apply elem_of_app in Hin as [Hin|Hin].
  - apply (proj1 (Forall_forall _ _) Hf) in Hin as (Hshape & _).
    rewrite Hty in Hshape. cbn [TokenShape.shape] in Hshape.
    apply andb_true_iff in Hshape as [H1 H2]. apply bool_decide_eq_true in H2. done.
  - apply list_elem_of_singleton in Hin. subst tok. done.
Qed.

Lemma names_dotFree (schema : DatabaseSchema.t) :
  Names.schema Names.identifier schema → Spec.dotFree schema.
Proof.
  intros (Ht & Hr & _). split.
  - eapply Forall_impl; [exact Ht|]. intros t (Hn & _). by apply identifier_lacks_dot.
  - eapply Forall_impl; [exact Hr|]. intros r (_ & (Hn & _) & _).
    by apply identifier_lacks_dot.
Qed.

(** Every name in a schema that [parseDSL] returns is the text of an
    IDENTIFIER token: the names of tables, aliases, columns, enums, enum
    values and groups, the members of groups, the names of relations and
    both ends of every relation match [[a-zA-Z_][a-zA-Z0-9_]*] and are no
    keyword.  No such name contains a dot, so in the graph built from a
    parsed schema a column is marked as foreign key exactly when its
    (table, column) pair is the [from] end of a relation. *)
Theorem parseDSL_names_are_identifiers (input : string) (schema : DatabaseSchema.t) :
  parseDSL input = Ok schema →
  Names.schema Names.identifier schema ∧ Spec.fkMarkedIffFromEndpoint schema.
Proof.
  intros Hparse.
  assert (Names.schema Names.identifier schema) as Hnames.
  { unfold parseDSL, Parser.parse in Hparse.
    destruct (Lexer.tokenize input) as [tokens|] eqn:Htok; [|done].
    destruct (Parser.parseLoop _ _ _ 0) as [[schema' p]| |] eqn:E; [|done..].
    injection Hparse as ->.
    eapply (yields_parseLoop tokens Names.identifier (tokenize_identifiers _ _ Htok));
      [|exact E].
    by repeat split. }
  split; [exact Hnames|]. by apply fk_marked_iff_endpoint, names_dotFree.
Qed.

Lemma parseDSL_names_are_identifiers_witness :
  Names.schema Names.identifier Examples.blog
  ∧ Spec.fkMarkedIffFromEndpoint Examples.blog.
Proof.
  apply (parseDSL_names_are_identifiers Examples.blogText). vm_compute. reflexivity.
Defined.

(** ** Parser: the loop over an [indexes] block *)

Section IndexesLoop.
Import Parser.
Variable tokens : list Token.t.
Variable pos : nat.
Variable tok : Token.t.
Hypothesis at_tok : tokens !! pos = Some tok.
Hypothesis opens_nothing :
  Token.type tok ∉ [RBRACE; EOF; LPAREN; IDENTIFIER; LBRACKET; NEWLINE].

Lemma check_other (ty : TokenType) :
  ty ∈ [RBRACE; EOF; LPAREN; IDENTIFIER; LBRACKET; NEWLINE] →
  check tokens ty pos = Ok (false, pos).
Proof.
  intros Hty. unfold check, bind, current, ret, hasType. rewrite at_tok. simpl.
  rewrite bool_decide_eq_false_2; [done|]. intros [= E]. apply opens_nothing.
  by rewrite E.
Qed.

Lemma continues_other : continues tokens RBRACE pos = Ok (true, pos).
Proof.
  unfold continues, bind. rewrite check_other by set_solver.
  unfold isAtEnd, ret, hasType. rewrite at_tok. simpl.
  rewrite bool_decide_eq_false_2.
  - apply lookup_lt_Some in at_tok. apply Nat.leb_gt in at_tok. by rewrite at_tok.
  - intros [= E]. apply opens_nothing. rewrite E. set_solver.
Qed.

Lemma skipNewlines_other : skipNewlines tokens pos = Ok (tt, pos).
Proof.
  unfold skipNewlines, fuel0. cbn [whileLoop]. unfold bind at 1.
  rewrite check_other by set_solver. done.
Qed.

Lemma indexStep_other (indexes : list Index.t) :
  indexStep tokens indexes pos = Ok ((indexes ++ [Index.mk None [] None None])%list, pos).
Proof.
  unfold indexStep, parseIndex.
  unfold bind at 1. unfold bind at 1. rewrite check_other by set_solver.
  unfold bind at 1. unfold bind at 1. rewrite check_other by set_solver.
  unfold ret at 1. cbn beta iota zeta.
  unfold bind at 1. rewrite check_other by set_solver.
  unfold ret at 1. cbn beta iota.
  unfold bind. by rewrite skipNewlines_other.
Qed.

Lemma indexesLoop_other (fuel : nat) (indexes : list Index.t) :
  whileLoop fuel (continues tokens RBRACE) (indexStep tokens) indexes pos = OutOfFuel.
Proof.
  revert indexes. induction fuel as [|fuel IH]; intros indexes; [done|].
  cbn [whileLoop]. unfold bind at 1. rewrite continues_other.
  unfold bind. rewrite indexStep_other. apply IH.
Qed.

End IndexesLoop.

(** Inside an [indexes] block, at a token that is no closing brace, no
    EOF, no newline and opens neither a column list, a name nor settings,
    one turn of the loop pushes an index without columns and passes no
    token; so the loop never ends: it runs out of fuel whatever the fuel. *)
Theorem indexes_loop_turns_in_place (tokens : list Token.t) (pos : nat) (tok : Token.t) :
  tokens !! pos = Some tok →
  Token.type tok ∉ [RBRACE; EOF; LPAREN; IDENTIFIER; LBRACKET; NEWLINE] →
  (∀ indexes,
      Parser.indexStep tokens indexes pos
      = Ok ((indexes ++ [Index.mk None [] None None])%list, pos))
  ∧ (∀ fuel indexes,
        Parser.whileLoop fuel (Parser.continues tokens RBRACE)
          (Parser.indexStep tokens) indexes pos
        = OutOfFuel).
Proof.
  intros Htok Hty. split.
  - intros indexes. by eapply indexStep_other.
  - intros fuel indexes. by eapply indexesLoop_other.
Qed.

(** The comma of [indexes { , }]. *)
Lemma indexes_loop_turns_in_place_witness :
  Parser.whileLoop 1000
    (Parser.continues
       [tk INDEXES "indexes" 1 11; tk LBRACE "{" 1 19; tk COMMA "," 1 21;
        tk RBRACE "}" 1 23; tk EOF EmptyString 1 24]
       RBRACE)
    (Parser.indexStep
       [tk INDEXES "indexes" 1 11; tk LBRACE "{" 1 19; tk COMMA "," 1 21;
        tk RBRACE "}" 1 23; tk EOF EmptyString 1 24])
    [] 2
  = OutOfFuel.
Proof.
  apply (proj2 (indexes_loop_turns_in_place
                  [tk INDEXES "indexes" 1 11; tk LBRACE "{" 1 19; tk COMMA "," 1 21;
                   tk RBRACE "}" 1 23; tk EOF EmptyString 1 24]
                  2 (tk COMMA "," 1 21) eq_refl
                  ltac:(intros H;
                        repeat (apply elem_of_cons in H as [H|H]; [discriminate H|]);
                        by apply elem_of_nil in H))).
Defined.

(** ** Parser: termination without an [indexes] block *)

Section ParserWithoutIndexes.
Import Parser.
Variable tokens : list Token.t.
Hypothesis no_indexes : Forall (λ tok, Token.type tok ≠ INDEXES) tokens.

Create HintDb ends.

#[local] Hint Resolve safe_ret safe_throw safe_current safe_peekNext safe_isAtEnd
  consuming_advance consuming_expect guard_check guard_continues
  safe_check safe_continues safe_currentLower safe_skipOptional safe_skipNewlines
  consuming_parseColumn consuming_parseNote : ends.
#[local] Hint Extern 5 (safe _) => apply consuming_safe : ends.
#[local] Hint Extern 5 (safe _) => apply guard_safe : ends.

Lemma check_INDEXES (pos : nat) : check tokens INDEXES pos = Ok (false, pos).
Proof.
  unfold check, bind, current, ret, hasType.
  rewrite bool_decide_eq_false_2; [done|].
  destruct (tokens !! pos) as [tok|] eqn:E; [|done]. intros [= Hty].
  apply list_elem_of_lookup_2 in E. by apply (proj1 (Forall_forall _ _) no_indexes) in E.
Qed.

(** The body of a table without the case of an [indexes] block. *)
Definition tableBodyRest (table : Table.t) : P Table.t :=
  let* isNote := check tokens NOTE in
  let* isIdent := check tokens IDENTIFIER in
  let* table :=
    (if isNote then let* note := parseNote tokens in ret (withNote note table)
     else if isIdent then let* c := parseColumn tokens in ret (withColumn c table)
     else do* advance tokens in ret table) in
  do* skipNewlines tokens in
  ret table.

Lemma tableBodyStep_rest (table : Table.t) (pos : nat) :
  tableBodyStep tokens table pos = tableBodyRest table pos.
Proof. unfold tableBodyStep. unfold bind at 1. by rewrite check_INDEXES. Qed.

Lemma consuming_tableBodyRest (table : Table.t) : consuming (tableBodyRest table).
Proof.
  unfold tableBodyRest.
  apply consuming_bind_r; [auto with ends|]. intros isNote.
  apply consuming_bind_r; [auto with ends|]. intros isIdent.
  apply consuming_bind_l; [|intros; apply safe_bind; auto with ends].
  destruct isNote; [|destruct isIdent];
    (apply consuming_bind_l; [auto with ends | intros; auto with ends]).
Qed.

Lemma consuming_tableBodyStep (table : Table.t) : consuming (tableBodyStep tokens table).
Proof.
  intros pos. rewrite tableBodyStep_rest. apply consuming_tableBodyRest.
Qed.

Lemma consuming_parseTable : consuming (parseTable tokens).
Proof.
  unfold parseTable.
  apply consuming_bind_l; [auto with ends|]. intros _.
  apply safe_bind; [auto with ends|]. intros name.
  apply safe_bind; [auto with ends|]. intros hasAs.
  apply safe_bind.
  { destruct hasAs; [|auto with ends].
    repeat (apply safe_bind; [auto with ends|]; intros ?). auto with ends. }
  intros alias. cbv zeta.
  apply safe_bind; [auto with ends|]. intros _.
  apply safe_bind; [auto with ends|]. intros _.
  apply safe_bind.
  { apply safe_whileLoop; [auto with ends | apply consuming_tableBodyStep]. }
  intros table. apply safe_bind; [auto with ends|]. intros _. auto with ends.
Qed.

Lemma isAtEnd_false (pos : nat) :
  hasType EOF (tokens !! pos) || (List.length tokens <=? pos) = false →
  pos < List.length tokens.
Proof. intros H. apply orb_false_iff in H as [_ H]. by apply Nat.leb_gt. Qed.

Lemma parseLoop_ends (fuel : nat) (schema : DatabaseSchema.t) (pos : nat) :
  List.length tokens - pos < fuel → parseLoop tokens fuel schema pos ≠ OutOfFuel.
Proof.
  revert schema pos. induction fuel as [|fuel IH]; intros schema pos Hf; [lia|].
  cbn [parseLoop]. unfold bind at 1. unfold isAtEnd at 1.
  destruct (hasType EOF (tokens !! pos) || _) eqn:E1; [done|].
  apply isAtEnd_false in E1.
  unfold bind at 1. destruct (safe_skipNewlines tokens pos) as [H1 H2].
  destruct (skipNewlines tokens pos) as [[[] p1]|e|]; [|done..].
  specialize (H2 _ _ eq_refl).
  unfold bind at 1. unfold isAtEnd at 1.
  destruct (hasType EOF (tokens !! p1) || _) eqn:E2; [done|].
  apply isAtEnd_false in E2.
  unfold bind at 1, check at 1, bind at 1, current at 1, ret at 1.
  unfold bind at 1, check at 1, bind at 1, current at 1, ret at 1.
  unfold bind at 1, check at 1, bind at 1, current at 1, ret at 1.
  unfold bind at 1, check at 1, bind at 1, current at 1, ret at 1.
  destruct (hasType TABLE _).
  { unfold bind. destruct (consuming_parseTable p1) as [H3 H4].
    destruct (parseTable tokens p1) as [[t p2]|e|]; [|done..].
    specialize (H4 _ _ eq_refl). apply IH. lia. }
  destruct (hasType ENUM _).
  { unfold bind. destruct (consuming_parseEnum tokens p1) as [H3 H4].
    destruct (parseEnum tokens p1) as [[t p2]|e|]; [|done..].
    specialize (H4 _ _ eq_refl). apply IH. lia. }
  destruct (hasType REF _).
  { unfold bind. destruct (consuming_parseRef tokens p1) as [H3 H4].
    destruct (parseRef tokens p1) as [[t p2]|e|]; [|done..].
    specialize (H4 _ _ eq_refl). apply IH. lia. }
  destruct (hasType TABLEGROUP _).
  { unfold bind. destruct (consuming_parseTableGroup tokens p1) as [H3 H4].
    destruct (parseTableGroup tokens p1) as [[t p2]|e|]; [|done..].
    specialize (H4 _ _ eq_refl). apply IH. lia. }
  done.
Qed.

End ParserWithoutIndexes.

(** On tokens without the keyword [indexes] the parser ends: every loop
    passes a token per turn, so the parse returns a schema or throws, and
    the fuel is not used up.  With the lexer: [parseDSL] ends on every
    text in which no word outside strings and comments reads [indexes]
    or [Indexes]. *)
Theorem parser_ends_without_indexes :
  (∀ tokens schema,
      Forall (λ tok, Token.type tok ≠ INDEXES) tokens →
      Parser.parseLoop tokens (Parser.fuel0 tokens) schema 0 ≠ OutOfFuel)
  ∧ (∀ input tokens,
        Lexer.tokenize input = Some tokens →
        Forall (λ tok, Token.type tok ≠ INDEXES) tokens →
        parseDSL input ≠ OutOfFuel).
Proof.
  assert (∀ tokens schema,
      Forall (λ tok, Token.type tok ≠ INDEXES) tokens →
      Parser.parseLoop tokens (Parser.fuel0 tokens) schema 0 ≠ OutOfFuel) as H.
  { intros tokens schema Hno. apply parseLoop_ends; [done|]. unfold Parser.fuel0. lia. }
  split; [exact H|].
  intros input tokens Htok Hno. unfold parseDSL, Parser.parse. rewrite Htok.
  specialize (H tokens Parser.emptySchema Hno).
  by destruct (Parser.parseLoop _ _ _ 0) as [[schema p]|e|].
Qed.

Lemma parser_ends_without_indexes_witness : parseDSL Examples.blogText ≠ OutOfFuel.
Proof.
  eapply (proj2 parser_ends_without_indexes Examples.blogText).
  - vm_compute. reflexivity.
  - repeat constructor; discriminate.
Defined.

(** ** Validator: when a schema is valid *)

Section ValidatorErrors.
Import Validator.
Local Open Scope list_scope.

(** No entry of the list is an error. *)
Definition errorFree (errs : list ValidationError.t) : Prop :=
  Forall (λ e, isError e = false) errs.

Lemma errorFree_push (errs : list ValidationError.t) (e : ValidationError.t) :
  errorFree (push errs e) ↔ errorFree errs ∧ isError e = false.
Proof.
  unfold errorFree, push. rewrite Forall_app, Forall_singleton. done.
Qed.

Lemma no_errors_iff (errs : list ValidationError.t) :
  Nat.eqb (List.length (filter (λ e, isError e = true) errs)) 0 = true ↔ errorFree errs.
Proof.
  rewrite Nat.eqb_eq. unfold errorFree. induction errs as [|e errs IH]; [by split|].
  rewrite filter_cons, Forall_cons. destruct (decide (isError e = true)) as [E|E].
  - simpl. split; [lia|]. intros [H _]. congruence.
  - rewrite IH. apply not_true_is_false in E. tauto.
Qed.

(** *** The columns of a table *)

Lemma checkColumn_names (enumNames : gset string) (table : Table.t)
    (st : colState) (col : Column.t) :
  colNames (checkColumn enumNames table st col) = {[ Column.name col ]} ∪ colNames st.
Proof. done. Qed.

Lemma checkColumn_errorFree (enumNames : gset string) (table : Table.t)
    (st : colState) (col : Column.t) :
  errorFree (colErrors (checkColumn enumNames table st col))
  ↔ errorFree (colErrors st) ∧ Column.name col ∉ colNames st.
Proof.
  unfold checkColumn. cbn [colErrors].
  set (errs1 := if bool_decide (Column.name col ∈ colNames st) then _ else _).
  assert (errorFree errs1 ↔ errorFree (colErrors st) ∧ Column.name col ∉ colNames st)
    as H1.
  { unfold errs1. case_bool_decide as E.
    - rewrite errorFree_push. split; [by intros [_ ?] | tauto].
    - tauto. }
  rewrite <- H1.
  destruct (_ && _); [|done].
  destruct (nonEmpty _); [|done].
  case_bool_decide; [done|]. rewrite errorFree_push. tauto.
Qed.

Lemma checkColumns_fold (enumNames : gset string) (table : Table.t)
    (cols : list Column.t) (st : colState) :
  colNames (fold_left (checkColumn enumNames table) cols st)
  = list_to_set (map Column.name cols) ∪ colNames st
  ∧ (errorFree (colErrors (fold_left (checkColumn enumNames table) cols st))
     ↔ errorFree (colErrors st)
       ∧ NoDup (map Column.name cols)
       ∧ ∀ x, x ∈ map Column.name cols → x ∉ colNames st).
Proof.
  revert st. induction cols as [|c cols IH]; intros st.
  { simpl. split; [set_solver|]. split; [|tauto].
    intros H. split_and!; [done|constructor|]. intros x Hx. by apply elem_of_nil in Hx. }
  cbn [fold_left map]. destruct (IH (checkColumn enumNames table st c)) as [IH1 IH2].
  split.
  { rewrite IH1, checkColumn_names. set_solver. }
  rewrite IH2, checkColumn_errorFree, checkColumn_names, NoDup_cons.
  split.
  - intros ((H1 & H2) & H3 & H4). split_and!; [done| |done|].
    + intros Hin. apply (H4 _ Hin). set_solver.
    + intros x Hx. apply elem_of_cons in Hx as [->|Hx]; [done|].
      specialize (H4 x Hx). set_solver.
  - intros (H1 & (H2 & H3) & H4). split_and!; [done| |done|].
    + apply H4. by left.
    + intros x Hx. assert (x ∉ colNames st) by (apply H4; by right).
      assert (x ≠ Column.name c) by (intros ->; done). set_solver.
Qed.

(** *** The tables of a schema *)

Definition columnSet (t : Table.t) : gset string :=
  list_to_set (map Column.name (Table.columns t)).

Lemma checkTable_names (enumNames : gset string) (st : state) (t : Table.t) :
  tableNames (checkTable enumNames st t) = {[ Table.name t ]} ∪ tableNames st.
Proof. done. Qed.

Lemma checkTable_map (enumNames : gset string) (st : state) (t : Table.t) :
  tableColumnMap (checkTable enumNames st t)
  = <[ Table.name t := columnSet t ]> (tableColumnMap st).
Proof.
  unfold checkTable. cbn [tableColumnMap]. f_equal.
  rewrite (proj1 (checkColumns_fold _ _ _ _)). simpl. unfold columnSet. set_solver.
Qed.

Lemma checkTable_errorFree (enumNames : gset string) (st : state) (t : Table.t) :
  errorFree (errors (checkTable enumNames st t))
  ↔ errorFree (errors st) ∧ (Table.name t ∉ tableNames st)
    ∧ NoDup (map Column.name (Table.columns t)).
Proof.
  unfold checkTable. cbn [errors].
  set (errs1 := if bool_decide (Table.name t ∈ tableNames st) then _ else _).
  assert (errorFree errs1 ↔ errorFree (errors st) ∧ Table.name t ∉ tableNames st) as H1.
  { unfold errs1. case_bool_decide as E.
    - rewrite errorFree_push. split; [by intros [_ ?] | tauto].
    - tauto. }
  set (cs := fold_left _ _ _).
  assert (errorFree (colErrors cs)
          ↔ errorFree errs1 ∧ NoDup (map Column.name (Table.columns t))) as H2.
  { unfold cs. rewrite (proj2 (checkColumns_fold _ _ _ _)). simpl.
    split; [tauto|]. intros [? ?]. split_and!; [done..|]. set_solver. }
  destruct (hasPrimaryKey cs).
  - rewrite H2, H1. tauto.
  - rewrite errorFree_push, H2, H1. tauto.
Qed.

Lemma checkTables_fold (enumNames : gset string) (tables : list Table.t) (st : state) :
  tableNames (fold_left (checkTable enumNames) tables st)
  = list_to_set (map Table.name tables) ∪ tableNames st
  ∧ (errorFree (errors (fold_left (checkTable enumNames) tables st))
     ↔ errorFree (errors st)
       ∧ NoDup (map Table.name tables)
       ∧ (∀ x, x ∈ map Table.name tables → x ∉ tableNames st)
       ∧ Forall (λ t, NoDup (map Column.name (Table.columns t))) tables).
Proof.
  revert st. induction tables as [|t tables IH]; intros st.
  { simpl. split; [set_solver|]. split; [|tauto].
    intros H. split_and!; [done|constructor| |constructor].
    intros x Hx. by apply elem_of_nil in Hx. }
  cbn [fold_left map]. destruct (IH (checkTable enumNames st t)) as [IH1 IH2].
  split.
  { rewrite IH1, checkTable_names. set_solver. }
  rewrite IH2, checkTable_errorFree, checkTable_names, NoDup_cons, Forall_cons.
  split.
  - intros ((H1 & H2 & H2') & H3 & H4 & H5). split_and!; [done| |done| |done|done].
    + intros Hin. apply (H4 _ Hin). set_solver.
    + intros x Hx. apply elem_of_cons in Hx as [->|Hx]; [done|].
      specialize (H4 x Hx). set_solver.
  - intros (H1 & (H2 & H3) & H4 & H5 & H6). split_and!; [done| |done|done| |done].
    + apply H4. by left.
    + intros x Hx. assert (x ∉ tableNames st) by (apply H4; by right).
      assert (x ≠ Table.name t) by (intros ->; done). set_solver.
Qed.

Lemma checkTables_map_other (enumNames : gset string) (tables : list Table.t)
    (st : state) (n : string) :
  n ∉ map Table.name tables →
  tableColumnMap (fold_left (checkTable enumNames) tables st) !! n
  = tableColumnMap st !! n.
Proof.
  revert st. induction tables as [|t tables IH]; intros st Hn; [done|].
  cbn [fold_left]. rewrite IH by set_solver.
  rewrite checkTable_map, lookup_insert_ne; [done|]. set_solver.
Qed.

(** With distinct table names, the map holds the columns of each table. *)
Lemma checkTables_map (enumNames : gset string) (tables : list Table.t)
    (st : state) (t : Table.t) :
  NoDup (map Table.name tables) → t ∈ tables →
  tableColumnMap (fold_left (checkTable enumNames) tables st) !! Table.name t
  = Some (columnSet t).
Proof.
  revert st. induction tables as [|t0 tables IH]; intros st Hnd Hin.
  { by apply elem_of_nil in Hin. }
  cbn [map] in Hnd. apply NoDup_cons in Hnd as [Hfresh Hnd]. cbn [fold_left].
  apply elem_of_cons in Hin as [->|Hin]; [|by apply IH].
  rewrite checkTables_map_other by done.
  by rewrite checkTable_map, lookup_insert_eq.
Qed.

(** *** Relations and groups *)

Definition endpointOk (names : gset string) (cols : gmap string (gset string))
    (e : Endpoint.t) : Prop :=
  Endpoint.table e ∈ names
  ∧ ∀ cs, cols !! Endpoint.table e = Some cs → Endpoint.column e ∈ cs.

Lemma checkEndpoint_errorFree (names : gset string) (cols : gmap string (gset string))
    (rel : Relation.t) (e : Endpoint.t) (errs : list ValidationError.t) :
  errorFree (checkEndpoint names cols rel e errs)
  ↔ errorFree errs ∧ endpointOk names cols e.
Proof.
  unfold checkEndpoint, endpointOk. case_bool_decide as E1.
  - destruct (cols !! Endpoint.table e) as [cs|] eqn:E2.
    + case_bool_decide as E3.
      * split; [|tauto]. intros H. split_and!; [done..|]. by intros cs' [= <-].
      * rewrite errorFree_push. split; [by intros [_ ?]|].
        intros (_ & _ & H). exfalso. by apply E3, H.
    + split; [|tauto]. intros H. by split_and!.
  - rewrite errorFree_push. split; [by intros [_ ?] | tauto].
Qed.

Lemma checkRelations_errorFree (names : gset string) (cols : gmap string (gset string))
    (rels : list Relation.t) (errs : list ValidationError.t) :
  errorFree (fold_left (checkRelation names cols) rels errs)
  ↔ errorFree errs
    ∧ Forall (λ r, endpointOk names cols (Relation.from r)
                   ∧ endpointOk names cols (Relation.to r)) rels.
Proof.
  revert errs. induction rels as [|r rels IH]; intros errs.
  { simpl. split; [|tauto]. intros H. split; [done|constructor]. }
  cbn [fold_left]. rewrite IH, Forall_cons. unfold checkRelation.
  rewrite !checkEndpoint_errorFree. tauto.
Qed.

Lemma checkGroup_errorFree (names : gset string) (errs : list ValidationError.t)
    (group : IRTableGroup.t) :
  errorFree (checkGroup names errs group) ↔ errorFree errs.
Proof.
  unfold checkGroup. revert errs.
  induction (IRTableGroup.tables group) as [|n ns IH]; intros errs; [done|].
  cbn [fold_left]. rewrite IH. case_bool_decide; [done|].
  rewrite errorFree_push. tauto.
Qed.

Lemma checkGroups_errorFree (names : gset string) (groups : list IRTableGroup.t)
    (errs : list ValidationError.t) :
  errorFree (fold_left (checkGroup names) groups errs) ↔ errorFree errs.
Proof.
  revert errs. induction groups as [|g groups IH]; intros errs; [done|].
  cbn [fold_left]. by rewrite IH, checkGroup_errorFree.
Qed.

End ValidatorErrors.

Lemma valid_consistent (schema : DatabaseSchema.t) :
  ValidationResult.valid (validateSchema schema) = true ↔ Consistent.schema schema.
Proof.
  unfold validateSchema, Validator.validateSchema. cbn [ValidationResult.valid].
  rewrite no_errors_iff, checkGroups_errorFree, checkRelations_errorFree.
  set (enumNames := list_to_set _ : gset string).
  destruct (checkTables_fold enumNames (DatabaseSchema.tables schema)
              (Validator.mkState ∅ ∅ [])) as [Hnames Herrs].
  rewrite Herrs. cbn [Validator.errors Validator.tableNames]. unfold Consistent.schema.
  assert (NoDup (map Table.name (DatabaseSchema.tables schema)) →
          ∀ e, endpointOk
                 (Validator.tableNames
                    (fold_left (Validator.checkTable enumNames)
                       (DatabaseSchema.tables schema) (Validator.mkState ∅ ∅ [])))
                 (Validator.tableColumnMap
                    (fold_left (Validator.checkTable enumNames)
                       (DatabaseSchema.tables schema) (Validator.mkState ∅ ∅ [])))
                 e
               ↔ Consistent.declared schema e) as Hend.
  { intros Hnd e. unfold endpointOk, Consistent.declared. rewrite Hnames. split.
    - intros [Hin Hcols].
      assert (Endpoint.table e ∈ map Table.name (DatabaseSchema.tables schema)) as Hin'
        by set_solver.
      apply list_elem_of_fmap in Hin' as (t & Hname & Ht).
      exists t. split_and!; [done..|].
      specialize (Hcols (columnSet t)). rewrite Hname in Hcols.
      rewrite checkTables_map in Hcols by done.
      specialize (Hcols eq_refl). unfold columnSet in Hcols. set_solver.
    - intros (t & Ht & Hname & Hcol). split.
      + apply elem_of_union_l, elem_of_list_to_set, list_elem_of_fmap. by exists t.
      + intros cs. rewrite <- Hname, checkTables_map by done.
        intros [= <-]. unfold columnSet. set_solver. }
  split.
  - intros ((_ & Hnd & _ & Hcols) & Hrels). split_and!; [done..|].
    eapply Forall_impl; [exact Hrels|]. intros r. cbv beta.
    by rewrite !(Hend Hnd).
  - intros (Hnd & Hcols & Hrels). split_and!; [constructor|done| |done|].
    + intros x _. set_solver.
    + eapply Forall_impl; [exact Hrels|]. intros r. cbv beta.
      by rewrite !(Hend Hnd).
Qed.


(** ** Builder: the nodes it makes *)

Section BuiltNodes.
Import Builder.
Local Open Scope Z_scope.

(** [n] with the group reference [g]. *)
Definition regroup (g : option string) (n : TableNode.t) : TableNode.t :=
  TableNode.mk (TableNode.id n) (TableNode.name n) (TableNode.schema n)
    (TableNode.position n) (TableNode.size n) (TableNode.columns n)
    g (TableNode.color n) (TableNode.note n) (TableNode.selected n)
    (TableNode.collapsed n).

(** A node of the graph is the node built from a table of the schema, up
    to the group reference that the loop over the groups may set. *)
Definition builtFrom (schema : DatabaseSchema.t) (node : TableNode.t) : Prop :=
  ∃ table g,
    table ∈ DatabaseSchema.tables schema
    ∧ node = regroup g (buildTableNode table
                          (fkColumnsOf (DatabaseSchema.relations schema))).

Lemma buildGraph_builtFrom (schema : DatabaseSchema.t) (node : TableNode.t) :
  node ∈ Graph.nodes (buildGraph schema) → builtFrom schema node.
Proof.
  rewrite buildGraph_nodes. revert node. apply Forall_forall.
  apply buildGroups_Forall.
  - intros g n (table & g' & Hin & ->). by exists table, (Some g).
  - simpl. apply Forall_forall. intros n Hn.
    apply list_elem_of_fmap in Hn as (table & -> & Hin). by exists table, None.
Qed.

Lemma buildColumnNodes_length (tableName : string) (fk : gset string) (offsetY : Z)
    (cols : list Column.t) :
  List.length (buildColumnNodes tableName fk offsetY cols) = List.length cols.
Proof.
  revert offsetY. induction cols as [|c cols IH]; intros offsetY; simpl; [done|].
  by rewrite IH.
Qed.

Lemma buildColumnNodes_lookup (tableName : string) (fk : gset string) (offsetY : Z)
    (cols : list Column.t) (i : nat) (col : ColumnNode.t) :
  buildColumnNodes tableName fk offsetY cols !! i = Some col →
  ∃ c, cols !! i = Some c
       ∧ col = buildColumnNode tableName c fk
                 (offsetY + NODE_DEFAULTS.columnHeight * Z.of_nat i).
Proof.
  revert offsetY i. induction cols as [|c cols IH]; intros offsetY i H; [done|].
  destruct i as [|i]; simpl in H.
  - injection H as <-. exists c. split; [done|]. f_equal. lia.
  - apply IH in H as (c' & Hc & ->). exists c'. split; [done|]. f_equal. lia.
Qed.

(** The loop of [computeNodeSize] ends with the longest text length. *)
Definition textLen (col : ColumnNode.t) : Z :=
  strlen (ColumnNode.name col) + strlen (ColumnNode.type col) + 3.

Lemma maxTextLen_bounds (cols : list ColumnNode.t) (m : Z) :
  let r := fold_left
             (λ maxTextLen col,
                let textLen := strlen (ColumnNode.name col)
                               + strlen (ColumnNode.type col) + 3 in
                if (textLen >? maxTextLen)%Z then textLen else maxTextLen)
             cols m in
  m ≤ r ∧ Forall (λ col, textLen col ≤ r) cols.
Proof.
  revert m. induction cols as [|c cols IH]; intros m; simpl; [split; [lia|done]|].
  match goal with |- context [fold_left ?f cols ?m'] =>
    destruct (IH m') as [H1 H2] end.
  cbv zeta in *. unfold textLen in *.
  destruct (Z.gtb_spec (strlen (ColumnNode.name c) + strlen (ColumnNode.type c) + 3) m);
    (split; [lia|]; constructor; [lia | done]).
Qed.

Lemma strlen_nonneg (s : string) : 0 ≤ strlen s.
Proof. unfold strlen. lia. Qed.

(** The geometry of the node built from a table. *)
Lemma buildTableNode_geometry (table : Table.t) (fk : gset string) :
  let node := buildTableNode table fk in
  TableNode.position node = Point.mk 0 0
  ∧ List.length (TableNode.columns node) = List.length (Table.columns table)
  ∧ Size.height (TableNode.size node)
    = 40 + 24 * Z.of_nat (List.length (Table.columns table))
  ∧ 180 ≤ Size.width (TableNode.size node)
  ∧ 8 * strlen (Table.name table) + 16 ≤ Size.width (TableNode.size node)
  ∧ ∀ i col,
      TableNode.columns node !! i = Some col →
      ColumnNode.id col = colKeyOf (Table.name table) (ColumnNode.name col)
      ∧ ColumnNode.offsetY col = 32 + 24 * Z.of_nat i
      ∧ ColumnNode.offsetY col + 24 ≤ Size.height (TableNode.size node) - 8
      ∧ 8 * textLen col + 16 ≤ Size.width (TableNode.size node).
Proof.
  cbv zeta. unfold buildTableNode. cbn [TableNode.position TableNode.columns TableNode.size].
  set (columns := buildColumnNodes _ _ _ _).
  assert (List.length columns = List.length (Table.columns table)) as Hlen
    by apply buildColumnNodes_length.
  unfold computeNodeSize. cbn [Size.width Size.height]. rewrite Hlen.
  match goal with |- context [fold_left ?f columns ?m] =>
    pose proof (maxTextLen_bounds columns m) as Hmax; cbv zeta in Hmax;
    set (maxTextLen := fold_left f columns m) in * end.
  destruct Hmax as [Hname Hcols].
  unfold NODE_DEFAULTS.headerHeight, NODE_DEFAULTS.columnHeight, NODE_DEFAULTS.minWidth,
    NODE_DEFAULTS.padding, NODE_DEFAULTS.charWidth.
  split_and!; [done | done | lia | lia | lia |].
  intros i col Hcol.
  pose proof (lookup_lt_Some _ _ _ Hcol) as Hi. rewrite Hlen in Hi.
  pose proof (proj1 (Forall_forall _ _) Hcols col (list_elem_of_lookup_2 _ _ _ Hcol)) as Ht.
  apply buildColumnNodes_lookup in Hcol as (c & Hc & ->).
  unfold textLen, buildColumnNode in *.
  cbn [ColumnNode.id ColumnNode.name ColumnNode.type ColumnNode.offsetY] in *.
  unfold NODE_DEFAULTS.headerHeight, NODE_DEFAULTS.columnHeight.
  split_and!; [done | lia | lia | lia].
Qed.

End BuiltNodes.

(** Every node that [buildGraph] makes lies at the origin; it is 40
    pixels plus 24 per column high and at least 180 wide, and wide enough
    for its name and for the text of every column at 8 pixels a
    character plus 16 of padding; its i-th column has the id
    [table.column] and the offset [32 + 24 * i], so the rows of the columns
    follow the header one after the other and end 8 pixels above the
    bottom of the node. *)
Theorem buildGraph_node_geometry (schema : DatabaseSchema.t) (node : TableNode.t) :
  node ∈ Graph.nodes (buildGraph schema) →
  TableNode.id node = TableNode.name node
  ∧ TableNode.position node = Point.mk 0 0
  ∧ (Size.height (TableNode.size node)
     = 40 + 24 * Z.of_nat (List.length (TableNode.columns node)))%Z
  ∧ (180 ≤ Size.width (TableNode.size node))%Z
  ∧ (8 * Builder.strlen (TableNode.name node) + 16 ≤ Size.width (TableNode.size node))%Z
  ∧ ∀ i col,
      TableNode.columns node !! i = Some col →
      ColumnNode.id col = Builder.colKeyOf (TableNode.name node) (ColumnNode.name col)
      ∧ (ColumnNode.offsetY col = 32 + 24 * Z.of_nat i)%Z
      ∧ (ColumnNode.offsetY col + 24 ≤ Size.height (TableNode.size node) - 8)%Z
      ∧ (8 * textLen col + 16 ≤ Size.width (TableNode.size node))%Z.
Proof.
  intros Hnode. apply buildGraph_builtFrom in Hnode as (table & g & _ & ->).
  destruct (buildTableNode_geometry table
              (Builder.fkColumnsOf (DatabaseSchema.relations schema)))
    as (H1 & H2 & H3 & H4 & H5 & H6).
  cbn [regroup TableNode.id TableNode.name TableNode.position TableNode.size
       TableNode.columns].
  split_and!; [done | done | by rewrite H2 | done | done | done].
Qed.

Lemma buildGraph_node_geometry_witness :
  ∃ node, Graph.nodes (buildGraph Examples.blog) !! 0%nat = Some node
          ∧ (Size.height (TableNode.size node) = 40 + 24 * 2)%Z.
Proof.
  eexists. split; [reflexivity|].
  refine (proj1 (proj2 (proj2 (buildGraph_node_geometry Examples.blog _ _)))).
  apply (list_elem_of_lookup_2 _ 0%nat). reflexivity.
Defined.

(** ** Validator and builder: the edges of a valid schema *)

Section ValidEdges.
Import Builder.

Lemma NoDup_map_inj {A B} (f : A → B) (l : list A) (x y : A) :
  NoDup (map f l) → x ∈ l → y ∈ l → f x = f y → x = y.
Proof.
  induction l as [|a l IH]; intros Hnd Hx Hy Hf; [by apply elem_of_nil in Hx|].
  cbn [map] in Hnd. apply NoDup_cons in Hnd as [Hfresh Hnd].
  apply elem_of_cons in Hx as [->|Hx]; apply elem_of_cons in Hy as [->|Hy];
    [done | | | by apply IH].
  - exfalso. apply Hfresh. rewrite Hf. apply list_elem_of_fmap. by exists y.
  - exfalso. apply Hfresh. rewrite <- Hf. apply list_elem_of_fmap. by exists x.
Qed.

Lemma buildColumnNodes_of (tableName : string) (fk : gset string) (offsetY : Z)
    (cols : list Column.t) (c : Column.t) :
  c ∈ cols →
  ∃ off, buildColumnNode tableName c fk off ∈ buildColumnNodes tableName fk offsetY cols.
Proof.
  revert offsetY. induction cols as [|c0 cols IH]; intros offsetY Hc.
  { by apply elem_of_nil in Hc. }
  apply elem_of_cons in Hc as [->|Hc]; simpl.
  - exists offsetY. by left.
  - destruct (IH (offsetY + NODE_DEFAULTS.columnHeight)%Z Hc) as [off Hoff].
    exists off. by right.
Qed.

(** With distinct table names, [findNode] at a table's name finds the node
    built from that table. *)
Lemma findNode_table (schema : DatabaseSchema.t) (t : Table.t) :
  NoDup (map Table.name (DatabaseSchema.tables schema)) →
  t ∈ DatabaseSchema.tables schema →
  ∃ g, findNode (buildGraph schema) (Table.name t)
       = Some (regroup g (buildTableNode t
                            (fkColumnsOf (DatabaseSchema.relations schema)))).
Proof.
  intros Hnd Ht. unfold findNode.
  destruct (find _ _) as [node|] eqn:E.
  - apply find_some in E as [Hin Hid]. apply String.eqb_eq in Hid.
    apply list_elem_of_In in Hin.
    apply buildGraph_builtFrom in Hin as (t' & g & Ht' & ->).
    cbn in Hid. assert (t' = t) as -> by (by eapply NoDup_map_inj).
    by exists g.
  - exfalso.
    assert (Table.name t ∈ map TableNode.id (Graph.nodes (buildGraph schema))) as Hin.
    { rewrite buildGraph_nodes_names. apply list_elem_of_fmap. by exists t. }
    apply list_elem_of_fmap in Hin as (node & Hid & Hin).
    apply list_elem_of_In in Hin.
    apply (find_none _ _ E) in Hin. rewrite <- Hid, String.eqb_refl in Hin. done.
Qed.

(** The end [e] of an edge resolves in the graph: [findNode] finds its
    node, and the node has the column. *)
Definition resolves (graph : Graph.t) (e : EdgeEndpoint.t) (col : ColumnNode.t) : Prop :=
  ∃ node, findNode graph (EdgeEndpoint.nodeId e) = Some node
          ∧ col ∈ TableNode.columns node
          ∧ ColumnNode.id col = EdgeEndpoint.columnId e.

Lemma declared_resolves (schema : DatabaseSchema.t) (e : Endpoint.t) :
  NoDup (map Table.name (DatabaseSchema.tables schema)) →
  Consistent.declared schema e →
  ∃ col,
    resolves (buildGraph schema)
      (EdgeEndpoint.mk (Endpoint.table e)
         (colKeyOf (Endpoint.table e) (Endpoint.column e)) None) col
    ∧ ColumnNode.name col = Endpoint.column e
    ∧ ColumnNode.isForeignKey col
      = bool_decide (colKeyOf (Endpoint.table e) (Endpoint.column e)
                     ∈ fkColumnsOf (DatabaseSchema.relations schema)).
Proof.
  intros Hnd (t & Ht & Hname & Hcol).
  apply list_elem_of_fmap in Hcol as (c & Hc & Hcin).
  destruct (findNode_table schema t Hnd Ht) as [g Hfind].
  destruct (buildColumnNodes_of (Table.name t)
              (fkColumnsOf (DatabaseSchema.relations schema))
              NODE_DEFAULTS.headerHeight (Table.columns t) c Hcin) as [off Hoff].
  eexists. split; [|split].
  - eexists. cbn [EdgeEndpoint.nodeId EdgeEndpoint.columnId].
    rewrite <- Hname. split; [exact Hfind|]. split; [exact Hoff|].
    cbn. by rewrite Hc.
  - cbn. done.
  - cbn. by rewrite Hname, Hc.
Qed.

Lemma consistent_edges_resolve (schema : DatabaseSchema.t) (edge : Edge.t) :
  Consistent.schema schema →
  edge ∈ Graph.edges (buildGraph schema) →
  ∃ from to,
    resolves (buildGraph schema) (Edge.from edge) from
    ∧ resolves (buildGraph schema) (Edge.to edge) to
    ∧ ColumnNode.isForeignKey from = true.
Proof.
  intros (Hnd & _ & Hrels) Hedge. rewrite buildGraph_edges in Hedge.
  apply list_elem_of_fmap in Hedge as (rel & -> & Hrel).
  apply (proj1 (Forall_forall _ _) Hrels) in Hrel as Hdecl. destruct Hdecl as [Hfrom Hto].
  destruct (declared_resolves schema _ Hnd Hfrom) as (from & Hf1 & _ & Hf3).
  destruct (declared_resolves schema _ Hnd Hto) as (to & Ht1 & _ & _).
  exists from, to. split_and!; [exact Hf1 | exact Ht1 |].
  rewrite Hf3. apply bool_decide_eq_true, fkColumnsOf_elem. by exists rel.
Qed.

End ValidEdges.

(** In the graph built from a schema that [validateSchema] finds valid,
    no edge dangles: [findNode] finds the node of each end of every edge,
    that node has the column the end names, and the column at the [from]
    end is marked as foreign key. *)
Theorem valid_schema_edges_resolve (schema : DatabaseSchema.t) (edge : Edge.t) :
  ValidationResult.valid (validateSchema schema) = true →
  edge ∈ Graph.edges (buildGraph schema) →
  ∃ from to,
    resolves (buildGraph schema) (Edge.from edge) from
    ∧ resolves (buildGraph schema) (Edge.to edge) to
    ∧ ColumnNode.isForeignKey from = true.
Proof.
  intros Hvalid. apply consistent_edges_resolve. by apply valid_consistent.
Qed.

Lemma valid_schema_edges_resolve_witness :
  ∃ from to,
    resolves (buildGraph Examples.blog)
      (EdgeEndpoint.mk "posts" "posts.author_id" None) from
    ∧ resolves (buildGraph Examples.blog) (EdgeEndpoint.mk "users" "users.id" None) to
    ∧ ColumnNode.isForeignKey from = true.
Proof.
  apply (valid_schema_edges_resolve Examples.blog
           (Builder.buildEdge
              (Examples.relation "posts" "author_id" "users" "id" many_to_one))).
  - vm_compute. reflexivity.
  - apply (list_elem_of_lookup_2 _ 0%nat). reflexivity.
Defined.

(** Without validation an edge can dangle. *)
Example dangling_edge_finds_no_node :
  ValidationResult.valid (validateSchema Examples.dangling) = false
  ∧ ∃ edge, edge ∈ Graph.edges (buildGraph Examples.dangling)
            ∧ findNode (buildGraph Examples.dangling) (EdgeEndpoint.nodeId (Edge.from edge))
              = None.
Proof.
  split; [by vm_compute|]. eexists. split; [apply (list_elem_of_lookup_2 _ 0%nat); reflexivity|].
  by vm_compute.
Qed.

(** ** Builder: groups *)

Section BuiltGroups.
Import Builder.
Local Open Scope list_scope.

(** The group made for a table group of the schema. *)
Definition groupOf (tg : IRTableGroup.t) : TableGroup.t :=
  {| TableGroup.id := IRTableGroup.name tg;
     TableGroup.name := IRTableGroup.name tg;
     TableGroup.color := None;
     TableGroup.collapsed := Some false;
     TableGroup.selected := Some false;
     TableGroup.nodeIds := IRTableGroup.tables tg;
     TableGroup.bounds := None |}.

(** The group reference of [n], if any, names a table group that lists
    the name of [n]. *)
Definition groupListed (tgs : list IRTableGroup.t) (n : TableNode.t) : Prop :=
  ∀ g, TableNode.group n = Some g →
       ∃ tg, tg ∈ tgs ∧ IRTableGroup.name tg = g
             ∧ TableNode.name n ∈ IRTableGroup.tables tg.

(** The last table group that lists the name [name]. *)
Definition lastGroupOf (tgs : list IRTableGroup.t) (name : string)
    : option IRTableGroup.t :=
  last (filter (λ tg, name ∈ IRTableGroup.tables tg) tgs).

Lemma buildGroups_groups (tgs : list IRTableGroup.t)
    (st : list TableNode.t * list TableGroup.t) :
  snd (fold_left buildGroup tgs st) = snd st ++ map groupOf tgs.
Proof.
  revert st. induction tgs as [|tg tgs IH]; intros [nodes groups]; simpl.
  - by rewrite app_nil_r.
  - rewrite IH. simpl. by rewrite <- app_assoc.
Qed.

Lemma assignGroup_named (R : TableNode.t → Prop) (g t : string)
    (nodes : list TableNode.t) :
  (∀ n, R n → TableNode.name n = t → R (withGroup g n)) →
  Forall R nodes → Forall R (assignGroup g t nodes).
Proof.
  intros Hg. induction 1 as [|n nodes Hn Hnodes IH]; simpl; [done|].
  destruct (String.eqb_spec (TableNode.name n) t); constructor; auto.
Qed.

Lemma assignGroups_named (R : TableNode.t → Prop) (g : string) (ts : list string)
    (nodes : list TableNode.t) :
  (∀ n, R n → TableNode.name n ∈ ts → R (withGroup g n)) →
  Forall R nodes →
  Forall R (fold_left (λ nodes tableName, assignGroup g tableName nodes) ts nodes).
Proof.
  revert nodes. induction ts as [|t ts IH]; intros nodes Hg H; simpl; [done|].
  apply IH.
  - intros n Hn Hin. apply Hg; [done | by right].
  - apply assignGroup_named; [|done]. intros n Hn <-. apply Hg; [done | by left].
Qed.

Lemma buildGroups_listed (tgs seen : list IRTableGroup.t)
    (st : list TableNode.t * list TableGroup.t) :
  Forall (groupListed seen) (fst st) →
  Forall (groupListed (seen ++ tgs)) (fst (fold_left buildGroup tgs st)).
Proof.
  revert seen st. induction tgs as [|tg tgs IH]; intros seen [nodes groups] H.
  { simpl. by rewrite app_nil_r. }
  cbn [fold_left]. replace (seen ++ tg :: tgs) with ((seen ++ [tg]) ++ tgs)
    by (by rewrite <- app_assoc).
  apply IH. cbn [buildGroup fst]. apply assignGroups_named.
  - intros n _ Hin g [= <-]. exists tg. split_and!; [|done|done].
    apply elem_of_app. right. by left.
  - eapply Forall_impl; [exact H|]. intros n Hn g Hg.
    destruct (Hn g Hg) as (tg' & Hin & Hrest). exists tg'. split; [|done].
    apply elem_of_app. by left.
Qed.

(** With distinct names, [find] and the update in place change the one
    node of that name. *)
Definition assignTo (g : string) (ts : list string) (n : TableNode.t) : TableNode.t :=
  if bool_decide (TableNode.name n ∈ ts) then withGroup g n else n.

Lemma assignTo_name (g : string) (ts : list string) (n : TableNode.t) :
  TableNode.name (assignTo g ts n) = TableNode.name n.
Proof. unfold assignTo. by case_bool_decide. Qed.

Lemma assignGroup_map (g t : string) (nodes : list TableNode.t) :
  NoDup (map TableNode.name nodes) →
  assignGroup g t nodes = map (assignTo g [t]) nodes.
Proof.
  induction nodes as [|n nodes IH]; intros Hnd; [done|].
  cbn [map] in Hnd. apply NoDup_cons in Hnd as [Hfresh Hnd]. cbn [assignGroup map].
  unfold assignTo at 1.
  destruct (String.eqb_spec (TableNode.name n) t) as [E|E].
  - rewrite bool_decide_eq_true_2 by (rewrite E; by left). f_equal.
    symmetry. rewrite <- (map_id nodes) at 2. apply map_ext_in. intros n' Hn'.
    unfold assignTo. rewrite bool_decide_eq_false_2; [done|].
    intros Hin. apply list_elem_of_singleton in Hin. apply Hfresh.
    rewrite E, <- Hin. apply list_elem_of_fmap. exists n'. split; [done|].
    by apply list_elem_of_In.
  - rewrite bool_decide_eq_false_2.
    + f_equal. by apply IH.
    + intros Hin. by apply list_elem_of_singleton in Hin.
Qed.

Lemma assignTo_names (g : string) (ts : list string) (nodes : list TableNode.t) :
  map TableNode.name (map (assignTo g ts) nodes) = map TableNode.name nodes.
Proof. rewrite map_map. apply map_ext. intros n. apply assignTo_name. Qed.

Lemma assignGroups_map (g : string) (ts : list string) (nodes : list TableNode.t) :
  NoDup (map TableNode.name nodes) →
  fold_left (λ nodes tableName, assignGroup g tableName nodes) ts nodes
  = map (assignTo g ts) nodes.
Proof.
  revert nodes. induction ts as [|t ts IH]; intros nodes Hnd; cbn [fold_left].
  { rewrite <- (map_id nodes) at 1. apply map_ext. intros n. unfold assignTo.
    rewrite bool_decide_eq_false_2; [done|]. apply not_elem_of_nil. }
  rewrite assignGroup_map by done. rewrite IH by (by rewrite assignTo_names).
  rewrite map_map. apply map_ext. intros n. unfold assignTo.
  destruct (decide (TableNode.name n = t)) as [E|E].
  - rewrite (bool_decide_eq_true_2 (_ ∈ [t])) by (rewrite E; by left).
    rewrite (bool_decide_eq_true_2 (_ ∈ t :: ts)) by (rewrite E; by left).
    by case_bool_decide.
  - rewrite (bool_decide_eq_false_2 (_ ∈ [t]))
      by (intros Hin; by apply list_elem_of_singleton in Hin).
    assert (TableNode.name n ∈ t :: ts ↔ TableNode.name n ∈ ts) as Hiff
      by (rewrite elem_of_cons; tauto).
    by rewrite (bool_decide_ext _ _ Hiff).
Qed.

(** The group reference of a node of name [name] after the loop over the
    table groups [tgs], from the reference [g0]. *)
Definition groupAfter (tgs : list IRTableGroup.t) (name : string) (g0 : option string)
    : option string :=
  fold_left
    (λ g tg, if bool_decide (name ∈ IRTableGroup.tables tg)
             then Some (IRTableGroup.name tg) else g)
    tgs g0.

Lemma groupAfter_last (tgs : list IRTableGroup.t) (name : string) (g0 : option string) :
  groupAfter tgs name g0
  = match lastGroupOf tgs name with
    | Some tg => Some (IRTableGroup.name tg)
    | None => g0
    end.
Proof.
  unfold groupAfter, lastGroupOf. revert g0.
  induction tgs as [|tg tgs IH]; intros g0; [done|].
  cbn [fold_left]. rewrite IH, filter_cons.
  case_bool_decide as E.
  - rewrite decide_True by done.
    destruct (filter _ tgs) as [|tg' l] eqn:Ef; [done|].
    change (last (tg :: tg' :: l)) with (last (tg' :: l)).
    destruct (last (tg' :: l)) eqn:El; [done|]. by apply last_None in El.
  - by rewrite decide_False by done.
Qed.

Lemma buildGroups_map (tgs : list IRTableGroup.t)
    (nodes : list TableNode.t) (groups : list TableGroup.t) :
  NoDup (map TableNode.name nodes) →
  fst (fold_left buildGroup tgs (nodes, groups))
  = map (λ n, regroup (groupAfter tgs (TableNode.name n) (TableNode.group n)) n) nodes.
Proof.
  revert nodes groups. induction tgs as [|tg tgs IH]; intros nodes groups Hnd.
  { simpl. rewrite <- (map_id nodes) at 1. apply map_ext. by intros []. }
  cbn [fold_left buildGroup]. rewrite assignGroups_map by done.
  rewrite IH by (by rewrite assignTo_names).
  rewrite map_map. apply map_ext. intros n. unfold groupAfter. cbn [fold_left].
  unfold assignTo. case_bool_decide; by destruct n.
Qed.

Lemma buildGraph_groups_of (schema : DatabaseSchema.t) :
  Graph.groups (buildGraph schema) = map groupOf (DatabaseSchema.tableGroups schema).
Proof.
  unfold buildGraph, Builder.buildGraph.
  pose proof (buildGroups_groups (DatabaseSchema.tableGroups schema)
    (map (λ table, buildTableNode table
                     (fkColumnsOf (DatabaseSchema.relations schema)))
       (DatabaseSchema.tables schema), [])) as H.
  destruct (fold_left _ _ _). simpl in *. done.
Qed.

End BuiltGroups.

(** [buildGraph] makes one group per table group of the schema, with the
    listed table names as node ids and without bounds.  A node's group
    reference, when set, names a table group that lists the node's name.
    When no two tables share a name, the reference of a node is the name
    of the last table group that lists the node, and it is unset when no
    table group lists it. *)
Theorem buildGraph_groups (schema : DatabaseSchema.t) :
  Graph.groups (buildGraph schema) = map groupOf (DatabaseSchema.tableGroups schema)
  ∧ Forall (groupListed (DatabaseSchema.tableGroups schema))
      (Graph.nodes (buildGraph schema))
  ∧ (NoDup (map Table.name (DatabaseSchema.tables schema)) →
     Forall (λ n, TableNode.group n
                  = IRTableGroup.name
                      <$> lastGroupOf (DatabaseSchema.tableGroups schema)
                            (TableNode.name n))
       (Graph.nodes (buildGraph schema))).
Proof.
  split; [apply buildGraph_groups_of|]. split.
  - rewrite buildGraph_nodes.
    apply (buildGroups_listed (DatabaseSchema.tableGroups schema) []).
    simpl. apply Forall_forall. intros n Hn.
    apply list_elem_of_fmap in Hn as (table & -> & _). by intros g.
  - intros Hnd. rewrite buildGraph_nodes, buildGroups_map.
    + apply Forall_forall. intros n Hn.
      apply list_elem_of_fmap in Hn as (n0 & -> & Hn0).
      apply list_elem_of_fmap in Hn0 as (table & -> & _).
      cbn. rewrite groupAfter_last. by destruct (lastGroupOf _ _).
    + by rewrite map_map.
Qed.

(** A table listed by two table groups. *)
Definition groupedTwice : DatabaseSchema.t :=
  DatabaseSchema.mk None [Examples.table "posts" []] [] []
    [IRTableGroup.mk "all" ["posts"]; IRTableGroup.mk "content" ["posts"]] None.

Lemma buildGraph_groups_witness :
  Forall (λ n, TableNode.group n
               = IRTableGroup.name
                   <$> lastGroupOf (DatabaseSchema.tableGroups groupedTwice)
                         (TableNode.name n))
    (Graph.nodes (buildGraph groupedTwice)).
Proof.
  apply (proj2 (proj2 (buildGraph_groups groupedTwice))). repeat constructor.
  intros H. by apply elem_of_nil in H.
Defined.

Example buildGraph_groupedTwice :
  map TableNode.group (Graph.nodes (buildGraph groupedTwice)) = [Some "content"].
Proof. reflexivity. Qed.

(** ** Bounds: what the boxes enclose *)

Section Enclosure.
Import Builder.
Local Open Scope Z_scope.













End Enclosure.



(** ** Grid layout: what it changes *)

Section GridLayoutFrame.
Import Layout.

(** [n] moved to the origin: what a node is apart from its position. *)
Definition atOrigin (n : TableNode.t) : TableNode.t := withPosition (Point.mk 0 0) n.

Lemma place_atOrigin (columns : nat) (opts : Options.t) (c : cursor) (n : TableNode.t) :
  place columns opts c (atOrigin n) = place columns opts c n.
Proof. by destruct n. Qed.

Lemma placeAll_atOrigin (columns : nat) (opts : Options.t) (c : cursor)
    (nodes : list TableNode.t) :
  placeAll columns opts c (map atOrigin nodes) = placeAll columns opts c nodes.
Proof.
  revert c. induction nodes as [|n nodes IH]; intros c; [done|].
  cbn [map placeAll]. rewrite place_atOrigin.
  destruct (place columns opts c n) as [n' c']. by rewrite IH.
Qed.

Lemma placeAll_keeps (columns : nat) (opts : Options.t) (c : cursor)
    (nodes : list TableNode.t) :
  map atOrigin (placeAll columns opts c nodes) = map atOrigin nodes.
Proof.
  revert c. induction nodes as [|n nodes IH]; intros c; [done|].
  cbn [map placeAll]. unfold place.
  destruct (columns <=? S (col c)); cbn [map]; by rewrite IH.
Qed.

Lemma placeAll_length (columns : nat) (opts : Options.t) (c : cursor)
    (nodes : list TableNode.t) :
  List.length (placeAll columns opts c nodes) = List.length nodes.
Proof.
  rewrite <- (length_map atOrigin), placeAll_keeps. apply length_map.
Qed.

Lemma gridLayout_nodes (graph : Graph.t) (options : option LayoutOptions.t) :
  Graph.nodes (gridLayout graph options)
  = placeAll (ceilSqrt (List.length (Graph.nodes graph))) (mergeOptions options)
      (mkCursor (Options.padding (mergeOptions options))
         (Options.padding (mergeOptions options)) 0 0)
      (Graph.nodes graph).
Proof. unfold gridLayout, Builder.computeGraphBounds. by destruct (Nat.eqb _ 0). Qed.

Lemma gridLayout_rest (graph : Graph.t) (options : option LayoutOptions.t) :
  Graph.edges (gridLayout graph options) = Graph.edges graph
  ∧ Graph.notes (gridLayout graph options) = Graph.notes graph
  ∧ map (Builder.withBounds None) (Graph.groups (gridLayout graph options))
    = map (Builder.withBounds None) (Graph.groups graph).
Proof.
  unfold gridLayout, Builder.computeGraphBounds.
  assert (∀ nodes pad groups,
             map (Builder.withBounds None) (map (Builder.groupBounds nodes pad) groups)
             = map (Builder.withBounds None) groups) as H.
  { intros nodes pad groups. rewrite map_map. apply map_ext. intros g.
    unfold Builder.groupBounds. by destruct (Nat.eqb _ 0), g. }
  destruct (Nat.eqb _ 0); cbn; unfold Builder.computeGroupBounds; by rewrite H.
Qed.

(** The layout reads neither the positions of the nodes, nor the bounds
    of the graph and of its groups. *)
Lemma gridLayout_reads (g1 g2 : Graph.t) (options : option LayoutOptions.t) :
  map atOrigin (Graph.nodes g1) = map atOrigin (Graph.nodes g2) →
  Graph.edges g1 = Graph.edges g2 →
  Graph.notes g1 = Graph.notes g2 →
  map (Builder.withBounds None) (Graph.groups g1)
  = map (Builder.withBounds None) (Graph.groups g2) →
  gridLayout g1 options = gridLayout g2 options.
Proof.
  intros Hn He Hnotes Hg.
  assert (List.length (Graph.nodes g1) = List.length (Graph.nodes g2)) as Hlen.
  { by rewrite <- (length_map atOrigin), Hn, length_map. }
  unfold gridLayout. rewrite Hlen, He, Hnotes.
  rewrite <- (placeAll_atOrigin _ _ _ (Graph.nodes g1)), Hn, placeAll_atOrigin.
  set (nodes := placeAll _ _ _ _).
  assert (∀ pad, map (Builder.groupBounds nodes pad) (Graph.groups g1)
                 = map (Builder.groupBounds nodes pad) (Graph.groups g2)) as Hgroups.
  { intros pad.
    assert (∀ groups, map (Builder.groupBounds nodes pad) groups
                      = map (Builder.groupBounds nodes pad)
                          (map (Builder.withBounds None) groups)) as H.
    { intros groups. rewrite map_map. apply map_ext. intros g.
      symmetry. apply groupBounds_withBounds. }
    by rewrite (H (Graph.groups g1)), (H (Graph.groups g2)), Hg. }
  unfold Builder.computeGraphBounds, Builder.computeGroupBounds. cbn.
  by rewrite !Hgroups.
Qed.

End GridLayoutFrame.

(** [gridLayout] changes the positions of the nodes and the bounds of the
    graph and of its groups, and nothing else; the result does not depend
    on the positions and bounds it finds; so laying out a laid-out graph
    again, with the same options, changes nothing. *)
Theorem gridLayout_moves_only (options : option LayoutOptions.t) :
  (∀ graph,
      map atOrigin (Graph.nodes (Layout.gridLayout graph options))
      = map atOrigin (Graph.nodes graph)
      ∧ Graph.edges (Layout.gridLayout graph options) = Graph.edges graph
      ∧ Graph.notes (Layout.gridLayout graph options) = Graph.notes graph
      ∧ map (Builder.withBounds None) (Graph.groups (Layout.gridLayout graph options))
        = map (Builder.withBounds None) (Graph.groups graph))
  ∧ (∀ g1 g2,
        map atOrigin (Graph.nodes g1) = map atOrigin (Graph.nodes g2) →
        Graph.edges g1 = Graph.edges g2 →
        Graph.notes g1 = Graph.notes g2 →
        map (Builder.withBounds None) (Graph.groups g1)
        = map (Builder.withBounds None) (Graph.groups g2) →
        Layout.gridLayout g1 options = Layout.gridLayout g2 options)
  ∧ (∀ graph,
        Layout.gridLayout (Layout.gridLayout graph options) options
        = Layout.gridLayout graph options).
Proof.
  assert (∀ graph,
      map atOrigin (Graph.nodes (Layout.gridLayout graph options))
      = map atOrigin (Graph.nodes graph)
      ∧ Graph.edges (Layout.gridLayout graph options) = Graph.edges graph
      ∧ Graph.notes (Layout.gridLayout graph options) = Graph.notes graph
      ∧ map (Builder.withBounds None) (Graph.groups (Layout.gridLayout graph options))
        = map (Builder.withBounds None) (Graph.groups graph)) as Hframe.
  { intros graph. split; [|apply gridLayout_rest].
    rewrite gridLayout_nodes. apply placeAll_keeps. }
  split; [exact Hframe|]. split.
  - intros g1 g2. apply gridLayout_reads.
  - intros graph. destruct (Hframe graph) as (H1 & H2 & H3 & H4).
    by apply gridLayout_reads.
Qed.

(** The nodes of the example, found at other positions. *)
Lemma gridLayout_moves_only_witness :
  Layout.gridLayout
    (Graph.mk (map (Layout.withPosition (Point.mk 7 9)) (Graph.nodes Examples.threeNodes))
       (Graph.edges Examples.threeNodes) (Graph.groups Examples.threeNodes)
       (Graph.notes Examples.threeNodes) None) None
  = Layout.gridLayout Examples.threeNodes None.
Proof.
  apply (proj1 (proj2 (gridLayout_moves_only None))); reflexivity.
Defined.

(** ** Builder and grid layout: the nodes of a schema do not overlap *)





(** ** Schema diff: one entry per name *)

Section DiffEntries.
Import Diff.
Local Open Scope list_scope.

Lemma add_NoDup (k : string) (s : list string) : NoDup s → NoDup (JSSet.add k s).
Proof.
  intros Hs. unfold JSSet.add. case_bool_decide as E; [done|].
  apply NoDup_app. split_and!; [done| |apply NoDup_singleton].
  intros x Hx Hk. apply list_elem_of_singleton in Hk as ->. done.
Qed.

Lemma ofItems_NoDup (items : list string) : NoDup (JSSet.ofItems items).
Proof.
  unfold JSSet.ofItems.
  assert (∀ s, NoDup s → NoDup (fold_left (λ s k, JSSet.add k s) items s)) as H.
  { induction items as [|k items IH]; intros s Hs; [done|].
    cbn [fold_left]. by apply IH, add_NoDup. }
  apply H. constructor.
Qed.

Lemma keys_set {V} (k : string) (v : V) (m : list (string * V)) :
  JSMap.keys (JSMap.set k v m) = JSSet.add k (JSMap.keys m).
Proof.
  unfold JSMap.keys, JSSet.add. induction m as [|[k' v'] m IH]; [done|].
  cbn [JSMap.set map fst].
  destruct (String.eqb_spec k k') as [->|Hne].
  - rewrite bool_decide_eq_true_2 by (by left). done.
  - cbn [map fst]. rewrite IH. case_bool_decide as E.
    + rewrite bool_decide_eq_true_2 by (by right). done.
    + rewrite bool_decide_eq_false_2; [done|].
      intros Hin. apply elem_of_cons in Hin as [?|?]; done.
Qed.

(** The keys of a [Map] depend on the keys of its entries only. *)
Lemma keys_ofEntries {V} (entries : list (string * V)) :
  JSMap.keys (JSMap.ofEntries entries) = JSSet.ofItems (map fst entries).
Proof.
  unfold JSMap.ofEntries, JSSet.ofItems.
  assert (∀ m : list (string * V),
             JSMap.keys (fold_left (λ m kv, JSMap.set (fst kv) (snd kv) m) entries m)
             = fold_left (λ s k, JSSet.add k s) (map fst entries) (JSMap.keys m)) as H.
  { induction entries as [|[k v] entries IH]; intros m; [done|].
    cbn [fold_left map fst snd]. by rewrite IH, keys_set. }
  apply H.
Qed.

Lemma get_None_keys {V} (k : string) (m : list (string * V)) :
  JSMap.get k m = None ↔ k ∉ JSMap.keys m.
Proof.
  rewrite keys_get. split.
  - intros -> [? ?]. done.
  - intros H. destruct (JSMap.get k m); [|done]. exfalso. apply H. by eexists.
Qed.

(** A loop that pushes one entry, named as the key, for every key. *)
Lemma flat_map_names {A} (f : string → list A) (name : A → string)
    (names : list string) :
  (∀ n, n ∈ names → ∃ a, f n = [a] ∧ name a = n) →
  map name (flat_map f names) = names.
Proof.
  induction names as [|n names IH]; intros H; [done|].
  cbn [flat_map]. destruct (H n) as (a & -> & Ha); [by left|].
  cbn [app map]. rewrite Ha, IH; [done|]. intros n' Hn'. apply H. by right.
Qed.

Lemma tableMap_keys (schema : DatabaseSchema.t) (n : string) :
  n ∈ JSMap.keys (tableMap schema) ↔ n ∈ map Table.name (DatabaseSchema.tables schema).
Proof. rewrite keys_get. apply tableMap_present. Qed.

Lemma diffTable_one (oldSchema newSchema : DatabaseSchema.t) (n : string) :
  n ∈ JSMap.keys (tableMap oldSchema) ∨ n ∈ JSMap.keys (tableMap newSchema) →
  ∃ td, diffTable (tableMap oldSchema) (tableMap newSchema) [] n = [td]
        ∧ TableDiff.name td = n
        ∧ (TableDiff.action td = added ↔ n ∉ JSMap.keys (tableMap oldSchema))
        ∧ (TableDiff.action td = removed ↔ n ∉ JSMap.keys (tableMap newSchema)).
Proof.
  intros Hn. unfold diffTable.
  pose proof (get_None_keys n (tableMap oldSchema)) as Ko.
  pose proof (get_None_keys n (tableMap newSchema)) as Kn.
  destruct (JSMap.get n (tableMap oldSchema)) as [ot|],
           (JSMap.get n (tableMap newSchema)) as [nt|].
  - eexists. split; [reflexivity|]. rewrite diffBoth_name. split; [done|].
    rewrite <- Ko, <- Kn.
    unfold diffBoth. destruct (fold_left _ _ _) as [cds []]; simpl; by split.
  - eexists. split; [reflexivity|]. rewrite <- Ko, <- Kn. simpl. by split_and!.
  - eexists. split; [reflexivity|]. rewrite <- Ko, <- Kn. simpl. by split_and!.
  - exfalso. destruct Hn as [Hn|Hn]; [by apply Ko in Hn | by apply Kn in Hn].
Qed.

Lemma diffRelation_fold (oldRels newRels : list (string * Relation.t))
    (ids : list string) (rds : list RelationDiff.t) :
  fold_left (diffRelation oldRels newRels) ids rds
  = rds ++ map (λ id, RelationDiff.mk id
                        match JSMap.get id oldRels, JSMap.get id newRels with
                        | None, Some _ => added
                        | Some _, None => removed
                        | _, _ => unchanged
                        end id) ids.
Proof.
  revert rds. induction ids as [|id ids IH]; intros rds; cbn [fold_left map].
  - by rewrite app_nil_r.
  - rewrite IH. unfold diffRelation. by rewrite <- app_assoc.
Qed.

Lemma relationMap_keys (schema : DatabaseSchema.t) (i : string) :
  i ∈ JSMap.keys (relationMap schema) ↔ i ∈ map relId (DatabaseSchema.relations schema).
Proof.
  unfold relationMap. rewrite keys_ofEntries, ofItems_elem, map_map. done.
Qed.

End DiffEntries.

(** [diffSchemas] lists one entry for every table name that one of the two
    schemas holds, and no other; the entry is tagged [added] exactly when
    the old schema has no table of that name, and [removed] exactly when
    the new schema has none. *)
Theorem diffSchemas_table_entries (oldSchema newSchema : DatabaseSchema.t) :
  NoDup (map TableDiff.name (SchemaDiff.tables (diffSchemas oldSchema newSchema)))
  ∧ (∀ n, n ∈ map TableDiff.name (SchemaDiff.tables (diffSchemas oldSchema newSchema))
          ↔ n ∈ map Table.name (DatabaseSchema.tables oldSchema)
            ∨ n ∈ map Table.name (DatabaseSchema.tables newSchema))
  ∧ Forall
      (λ td,
         (TableDiff.action td = added
          ↔ TableDiff.name td ∉ map Table.name (DatabaseSchema.tables oldSchema))
         ∧ (TableDiff.action td = removed
            ↔ TableDiff.name td ∉ map Table.name (DatabaseSchema.tables newSchema)))
      (SchemaDiff.tables (diffSchemas oldSchema newSchema)).
Proof.
  set (names := JSSet.ofItems (JSMap.keys (Diff.tableMap oldSchema)
                               ++ JSMap.keys (Diff.tableMap newSchema))%list).
  assert (∀ n, n ∈ names ↔ n ∈ map Table.name (DatabaseSchema.tables oldSchema)
                           ∨ n ∈ map Table.name (DatabaseSchema.tables newSchema))
    as Hnames.
  { intros n. unfold names. by rewrite ofItems_elem, elem_of_app, !tableMap_keys. }
  assert (map TableDiff.name (SchemaDiff.tables (diffSchemas oldSchema newSchema))
          = names) as Hmap.
  { unfold diffSchemas, Diff.diffSchemas. cbn [SchemaDiff.tables].
    rewrite diffTables_fold. cbn [app]. apply flat_map_names.
    intros n Hn. apply Hnames in Hn. rewrite <- !tableMap_keys in Hn.
    destruct (diffTable_one oldSchema newSchema n Hn) as (td & Htd & Hname & _).
    by exists td. }
  split; [rewrite Hmap; apply ofItems_NoDup|].
  split; [intros n; by rewrite Hmap|].
  apply Forall_forall. intros td Htd.
  apply diffSchemas_tables in Htd as [Hn Htd].
  destruct (diffTable_one oldSchema newSchema _ Hn) as (td' & Htd' & _ & Ha & Hr).
  rewrite Htd' in Htd. apply list_elem_of_singleton in Htd as ->.
  by rewrite Ha, Hr, !tableMap_keys.
Qed.

(** [diffSchemas] lists one entry for every relation id
    [from.table.from.column->to.table.to.column] that one of the two
    schemas holds, and no other; no entry is tagged [modified]; an entry is
    tagged [added] exactly when the old schema has no relation of that id,
    and [removed] exactly when the new schema has none.  So the type, the
    name and the note of a relation are not compared. *)
Theorem diffSchemas_relation_entries (oldSchema newSchema : DatabaseSchema.t) :
  NoDup (map RelationDiff.id (SchemaDiff.relations (diffSchemas oldSchema newSchema)))
  ∧ (∀ i, i ∈ map RelationDiff.id
                (SchemaDiff.relations (diffSchemas oldSchema newSchema))
          ↔ i ∈ map Diff.relId (DatabaseSchema.relations oldSchema)
            ∨ i ∈ map Diff.relId (DatabaseSchema.relations newSchema))
  ∧ Forall
      (λ rd,
         RelationDiff.description rd = RelationDiff.id rd
         ∧ RelationDiff.action rd ≠ modified
         ∧ (RelationDiff.action rd = added
            ↔ RelationDiff.id rd ∉ map Diff.relId (DatabaseSchema.relations oldSchema))
         ∧ (RelationDiff.action rd = removed
            ↔ RelationDiff.id rd ∉ map Diff.relId (DatabaseSchema.relations newSchema)))
      (SchemaDiff.relations (diffSchemas oldSchema newSchema)).
Proof.
  set (ids := JSSet.ofItems (JSMap.keys (Diff.relationMap oldSchema)
                             ++ JSMap.keys (Diff.relationMap newSchema))%list).
  assert (∀ i, i ∈ ids ↔ i ∈ map Diff.relId (DatabaseSchema.relations oldSchema)
                         ∨ i ∈ map Diff.relId (DatabaseSchema.relations newSchema))
    as Hids.
  { intros i. unfold ids. by rewrite ofItems_elem, elem_of_app, !relationMap_keys. }
  unfold diffSchemas, Diff.diffSchemas. cbn [SchemaDiff.relations].
  rewrite diffRelation_fold. cbn [app]. fold ids.
  split; [rewrite map_map; cbn [RelationDiff.id]; rewrite map_id; apply ofItems_NoDup|].
  split; [intros i; rewrite map_map; cbn [RelationDiff.id]; rewrite map_id; apply Hids|].
  apply Forall_forall. intros rd Hrd.
  apply list_elem_of_fmap in Hrd as (i & -> & Hi). cbn.
  apply Hids in Hi. rewrite <- !relationMap_keys in Hi.
  rewrite <- !relationMap_keys, <- !get_None_keys.
  destruct (JSMap.get i (Diff.relationMap oldSchema)) eqn:Eo,
           (JSMap.get i (Diff.relationMap newSchema)) eqn:En;
    try (by split_and!).
  exfalso. apply get_None_keys in Eo, En. tauto.
Qed.

(** ** Schema diff: what it does not see *)

Section DiffBlind.
Import Diff.
Local Open Scope list_scope.

Lemma not_changed (c : Column.t) : ¬ changed c c.
Proof. unfold changed. tauto. Qed.

Lemma colEntry_same (cols : list (string * Column.t)) (colName : string)
    (cd : ColumnDiff.t) :
  cd ∈ fst (colEntry cols cols colName) → ColumnDiff.action cd = unchanged.
Proof.
  intros Hcd. destruct (JSMap.get colName cols) as [c|] eqn:E.
  - apply (colEntry_modified cols cols colName cd c c Hcd E E), not_changed.
  - unfold colEntry, diffColumn in Hcd. rewrite E in Hcd. by apply elem_of_nil in Hcd.
Qed.

Lemma diffBoth_same (tableName : string) (t : Table.t) :
  TableDiff.action (diffBoth tableName t t) = unchanged.
Proof.
  destruct (TableDiff.action (diffBoth tableName t t)) eqn:E; try done.
  - unfold diffBoth in E. by destruct (fold_left _ _ _) as [cds []].
  - unfold diffBoth in E. by destruct (fold_left _ _ _) as [cds []].
  - apply diffBoth_action in E as (cd & Hcd & Ht).
    apply diffBoth_columns in Hcd as (n & _ & Hcd).
    apply colEntry_same in Hcd. unfold tagged in Ht. rewrite Hcd in Ht.
    repeat (apply elem_of_cons in Ht as [Ht|Ht]; [discriminate Ht|]).
    by apply elem_of_nil in Ht.
Qed.

Lemma existsb_false {A} (f : A → bool) (l : list A) :
  Forall (λ a, f a = false) l → existsb f l = false.
Proof.
  induction 1 as [|a l Ha Hl IH]; [done|]. simpl. by rewrite Ha, IH.
Qed.

Lemma same_tables_unchanged (oldSchema newSchema : DatabaseSchema.t) :
  DatabaseSchema.tables oldSchema = DatabaseSchema.tables newSchema →
  Forall (λ td, TableDiff.action td = unchanged)
    (SchemaDiff.tables (diffSchemas oldSchema newSchema)).
Proof.
  intros Hsame. apply Forall_forall. intros td Htd.
  apply diffSchemas_tables in Htd as [_ Htd].
  assert (tableMap oldSchema = tableMap newSchema) as Hmap
    by (unfold tableMap; by rewrite Hsame).
  rewrite Hmap in Htd. unfold diffTable in Htd.
  destruct (JSMap.get _ _) as [t|].
  - apply list_elem_of_singleton in Htd as ->. apply diffBoth_same.
  - by apply elem_of_nil in Htd.
Qed.

Lemma same_ids_unchanged (oldSchema newSchema : DatabaseSchema.t) :
  map relId (DatabaseSchema.relations oldSchema)
  = map relId (DatabaseSchema.relations newSchema) →
  Forall (λ rd, RelationDiff.action rd = unchanged)
    (SchemaDiff.relations (diffSchemas oldSchema newSchema)).
Proof.
  intros Hsame. unfold diffSchemas, Diff.diffSchemas. cbn [SchemaDiff.relations].
  rewrite diffRelation_fold. cbn [app]. apply Forall_forall. intros rd Hrd.
  apply list_elem_of_fmap in Hrd as (i & -> & Hi). cbn.
  apply ofItems_elem, elem_of_app in Hi.
  rewrite !relationMap_keys, <- Hsame in Hi.
  assert (i ∈ JSMap.keys (relationMap oldSchema)) as Ho
    by (apply relationMap_keys; tauto).
  assert (i ∈ JSMap.keys (relationMap newSchema)) as Hn
    by (apply relationMap_keys; rewrite <- Hsame; tauto).
  apply keys_get in Ho as [? ->], Hn as [? ->]. done.
Qed.

End DiffBlind.

(** Between two schemas with the same tables and the same relation ids,
    [diffSchemas] reports no change: every table entry and every relation
    entry is tagged [unchanged] and [hasChanges] is false.  The two
    schemas may differ in the type, the name or the note of a relation, in
    their enums, table groups, names and notes. *)
Theorem diffSchemas_blind (oldSchema newSchema : DatabaseSchema.t) :
  DatabaseSchema.tables oldSchema = DatabaseSchema.tables newSchema →
  map Diff.relId (DatabaseSchema.relations oldSchema)
  = map Diff.relId (DatabaseSchema.relations newSchema) →
  SchemaDiff.hasChanges (diffSchemas oldSchema newSchema) = false
  ∧ Forall (λ td, TableDiff.action td = unchanged)
      (SchemaDiff.tables (diffSchemas oldSchema newSchema))
  ∧ Forall (λ rd, RelationDiff.action rd = unchanged)
      (SchemaDiff.relations (diffSchemas oldSchema newSchema)).
Proof.
  intros Ht Hr.
  pose proof (same_tables_unchanged oldSchema newSchema Ht) as Htables.
  pose proof (same_ids_unchanged oldSchema newSchema Hr) as Hrels.
  split; [|done].
  change (existsb (λ t, bool_decide (TableDiff.action t ≠ unchanged))
            (SchemaDiff.tables (diffSchemas oldSchema newSchema))
          || existsb (λ r, bool_decide (RelationDiff.action r ≠ unchanged))
               (SchemaDiff.relations (diffSchemas oldSchema newSchema)) = false).
  rewrite !existsb_false; [done| |].
  - eapply Forall_impl; [exact Hrels|]. intros rd ->. done.
  - eapply Forall_impl; [exact Htables|]. intros td ->. done.
Qed.

(** The example with its relation turned from many-to-one to one-to-one. *)
Lemma diffSchemas_blind_witness :
  SchemaDiff.hasChanges
    (diffSchemas Examples.blog
       (DatabaseSchema.mk None (DatabaseSchema.tables Examples.blog)
          [Examples.relation "posts" "author_id" "users" "id" one_to_one]
          [] [] None))
  = false.
Proof.
  refine (proj1 (diffSchemas_blind Examples.blog _ _ _)); reflexivity.
Defined.

(** ** Undo and redo *)

Section HistoryLaws.
Import History.
Context {T : Type}.
Variable stringify : T → option string.
Local Open Scope list_scope.

Local Abbreviation state := (@History.t T).

Lemma sliceInit_snoc (l : list T) (x : T) : sliceInit 1 (l ++ [x]) = l.
Proof.
  unfold sliceInit. rewrite length_app. simpl.
  replace (List.length l + 1 - 1) with (List.length l) by lia.
  by rewrite take_app_length.
Qed.

Lemma undo_snoc (p : list T) (x c : T) (f : list T) :
  undo (mk (p ++ [x]) c f) = mk p x (c :: f).
Proof. unfold undo. cbn [past present future]. by rewrite last_snoc, sliceInit_snoc. Qed.

Lemma undo_nil (c : T) (f : list T) : undo (mk [] c f) = mk [] c f.
Proof. done. Qed.

Lemma redo_cons (p : list T) (c x : T) (f : list T) :
  redo (mk p c (x :: f)) = mk (p ++ [c]) x f.
Proof. done. Qed.

(** [n] undos, where the past ends with the [n] states [mid]. *)
Lemma undo_iter (mid pre : list T) (c : T) (f : list T) :
  Nat.iter (List.length mid) undo (mk (pre ++ mid) c f)
  = match mid with
    | [] => mk pre c f
    | x :: rest => mk pre x (rest ++ c :: f)
    end.
Proof.
  revert c f. induction mid as [|y mid IH] using rev_ind; intros c f.
  { simpl. by rewrite app_nil_r. }
  rewrite length_app. simpl. rewrite Nat.add_1_r, Nat.iter_succ_r.
  rewrite app_assoc, undo_snoc, IH.
  destruct mid as [|x rest]; [done|]. simpl. by rewrite <- app_assoc.
Qed.

Lemma undo_iter_nil (n : nat) (c : T) (f : list T) :
  Nat.iter n undo (mk [] c f) = mk [] c f.
Proof. induction n as [|n IH]; [done|]. simpl. by rewrite IH. Qed.

(** More undos than past states stop at the oldest state. *)
Lemma undo_iter_all (n : nat) (h : state) :
  List.length (past h) ≤ n →
  Nat.iter n undo h = Nat.iter (List.length (past h)) undo h.
Proof.
  intros Hn. replace n with ((n - List.length (past h)) + List.length (past h)) by lia.
  rewrite Nat.iter_add. destruct h as [p c f]. cbn [past].
  pose proof (undo_iter p [] c f) as H. cbn [app] in H. rewrite H.
  destruct p; apply undo_iter_nil.
Qed.

Lemma last_drop_lt (n : nat) (l : list T) :
  n < List.length l → last (drop n l) = last l.
Proof. intros H. rewrite !last_lookup, lookup_drop, length_drop. f_equal. lia. Qed.

Lemma sliceLast_length (n : nat) (l : list T) :
  n ≤ List.length l → List.length (sliceLast n l) = n.
Proof. intros H. unfold sliceLast. rewrite length_drop. lia. Qed.

Lemma slice_app (n : nat) (l : list T) : sliceInit n l ++ sliceLast n l = l.
Proof. apply take_drop. Qed.

Lemma go_back (n : nat) (h : state) :
  go (- Z.of_nat n) h = Nat.iter n undo h.
Proof.
  unfold go. destruct n as [|n]; [done|].
  replace (- Z.of_nat (S n) =? 0)%Z with false by (symmetry; apply Z.eqb_neq; lia).
  replace (- Z.of_nat (S n) <? 0)%Z with true by (symmetry; apply Z.ltb_lt; lia).
  replace (Z.to_nat (Z.abs (- Z.of_nat (S n)))) with (S n) by lia.
  set (steps := Nat.min (S n) (List.length (past h))).
  destruct (Nat.eqb_spec steps 0) as [E|E].
  { assert (past h = []) as Hp by (apply nil_length_inv; lia).
    destruct h as [p c f]. cbn in Hp. subst p. by rewrite undo_iter_nil. }
  assert (Nat.iter (S n) undo h = Nat.iter steps undo h) as ->.
  { destruct (decide (S n ≤ List.length (past h))).
    - by replace steps with (S n) by lia.
    - replace steps with (List.length (past h)) by lia. apply undo_iter_all. lia. }
  destruct h as [p c f]. cbn [past present future] in *.
  assert (List.length (sliceLast steps p) = steps) as Hlen
    by (apply sliceLast_length; lia).
  assert (Nat.iter steps undo (mk p c f)
          = Nat.iter (List.length (sliceLast steps p)) undo
              (mk (sliceInit steps p ++ sliceLast steps p) c f)) as ->
    by (by rewrite slice_app, Hlen).
  rewrite undo_iter. destruct (sliceLast steps p); [|done].
  simpl in Hlen. lia.
Qed.

(** [n] redos, where the future starts with the [n] states [mid]. *)
Lemma redo_iter (mid : list T) (p : list T) (c : T) (post : list T) :
  Nat.iter (List.length mid) redo (mk p c (mid ++ post))
  = match last mid with
    | None => mk p c post
    | Some y => mk (p ++ c :: sliceInit 1 mid) y post
    end.
Proof.
  revert p c. induction mid as [|x mid IH]; intros p c; [done|].
  cbn [List.length]. rewrite Nat.iter_succ_r. cbn [app]. rewrite redo_cons, IH.
  destruct mid as [|x' mid']; [done|].
  change (last (x :: x' :: mid')) with (last (x' :: mid')).
  assert (sliceInit 1 (x :: x' :: mid') = x :: sliceInit 1 (x' :: mid')) as ->.
  { unfold sliceInit. cbn [List.length]. by rewrite !Nat.sub_succ, !Nat.sub_0_r. }
  destruct (last (x' :: mid')) eqn:El; [|by apply last_None in El].
  by rewrite <- app_assoc.
Qed.

Lemma redo_iter_nil (n : nat) (p : list T) (c : T) :
  Nat.iter n redo (mk p c []) = mk p c [].
Proof. induction n as [|n IH]; [done|]. simpl. by rewrite IH. Qed.

Lemma redo_iter_all (n : nat) (h : state) :
  List.length (future h) ≤ n →
  Nat.iter n redo h = Nat.iter (List.length (future h)) redo h.
Proof.
  intros Hn. replace n with ((n - List.length (future h)) + List.length (future h)) by lia.
  rewrite Nat.iter_add. destruct h as [p c f]. cbn [future].
  pose proof (redo_iter f p c []) as H. rewrite app_nil_r in H. rewrite H.
  destruct (last f); apply redo_iter_nil.
Qed.

Lemma go_forward (n : nat) (h : state) :
  go (Z.of_nat n) h = Nat.iter n redo h.
Proof.
  unfold go. destruct n as [|n]; [done|].
  replace (Z.of_nat (S n) =? 0)%Z with false by (symmetry; apply Z.eqb_neq; lia).
  replace (Z.of_nat (S n) <? 0)%Z with false by (symmetry; apply Z.ltb_ge; lia).
  rewrite Nat2Z.id.
  set (steps := Nat.min (S n) (List.length (future h))).
  destruct (Nat.eqb_spec steps 0) as [E|E].
  { assert (future h = []) as Hf by (apply nil_length_inv; lia).
    destruct h as [p c f]. cbn in Hf. subst f. by rewrite redo_iter_nil. }
  assert (Nat.iter (S n) redo h = Nat.iter steps redo h) as ->.
  { destruct (decide (S n ≤ List.length (future h))).
    - by replace steps with (S n) by lia.
    - replace steps with (List.length (future h)) by lia. apply redo_iter_all. lia. }
  destruct h as [p c f]. cbn [past present future] in *.
  assert (List.length (take steps f) = steps) as Hlen by (rewrite length_take; lia).
  assert (Nat.iter steps redo (mk p c f)
          = Nat.iter (List.length (take steps f)) redo
              (mk p c (take steps f ++ drop steps f))) as ->
    by (by rewrite take_drop, Hlen).
  rewrite redo_iter.
  destruct (last (take steps f)) eqn:El; [done|].
  apply last_None in El. rewrite El in Hlen. simpl in Hlen. lia.
Qed.

(** *** The timeline and the size of the history *)

Lemma undo_timeline (h : state) : timeline (undo h) = timeline h.
Proof.
  destruct h as [p c f]. destruct p as [|x p] using rev_ind; [done|].
  rewrite undo_snoc. unfold timeline. simpl. by rewrite <- app_assoc.
Qed.

Lemma redo_timeline (h : state) : timeline (redo h) = timeline h.
Proof.
  destruct h as [p c [|x f]]; [done|]. unfold timeline. simpl. by rewrite <- app_assoc.
Qed.

Lemma iter_timeline (f : state → state) (n : nat) (h : state) :
  (∀ h, timeline (f h) = timeline h) → timeline (Nat.iter n f h) = timeline h.
Proof. intros Hf. induction n as [|n IH]; [done|]. simpl. by rewrite Hf. Qed.

Lemma go_iter (index : Z) (h : state) :
  go index h = Nat.iter (Z.to_nat (Z.abs index))
                 (if (index <? 0)%Z then undo else redo) h.
Proof.
  destruct (Z.ltb_spec index 0).
  - rewrite <- go_back. f_equal. lia.
  - rewrite <- go_forward. f_equal. lia.
Qed.

Lemma go_timeline (index : Z) (h : state) : timeline (go index h) = timeline h.
Proof.
  rewrite go_iter. apply iter_timeline.
  destruct (index <? 0)%Z; [apply undo_timeline | apply redo_timeline].
Qed.

(** The number of states a history holds beside the present one. *)
Definition size (h : state) : nat := List.length (past h) + List.length (future h).

Lemma timeline_size (h : state) : List.length (timeline h) = S (size h).
Proof. unfold timeline, size. rewrite length_app. simpl. lia. Qed.

Lemma set_size (x : T) (h : state) :
  size h ≤ MAX_HISTORY_SIZE → size (set stringify x h) ≤ MAX_HISTORY_SIZE.
Proof.
  intros H. unfold set. destruct (decide _); [done|].
  unfold size, sliceLast. cbn [past future]. rewrite length_drop. simpl. lia.
Qed.

Lemma step_size (h : state) (a : Action) :
  size h ≤ MAX_HISTORY_SIZE → size (step stringify h a) ≤ MAX_HISTORY_SIZE.
Proof.
  intros H. destruct a as [x| | | |i]; cbn [step].
  - by apply set_size.
  - assert (S (size (undo h)) = S (size h)) as E
      by (by rewrite <- !timeline_size, undo_timeline). lia.
  - assert (S (size (redo h)) = S (size h)) as E
      by (by rewrite <- !timeline_size, redo_timeline). lia.
  - unfold size, clear. simpl. lia.
  - assert (S (size (go i h)) = S (size h)) as E
      by (by rewrite <- !timeline_size, go_timeline). lia.
Qed.

Lemma run_size (actions : list Action) (h : state) :
  size h ≤ MAX_HISTORY_SIZE →
  size (fold_left (step stringify) actions h) ≤ MAX_HISTORY_SIZE.
Proof.
  revert h. induction actions as [|a actions IH]; intros h H; [done|].
  cbn [fold_left]. by apply IH, step_size.
Qed.

End HistoryLaws.

(** An undo that has something to undo is taken back by a redo, and a
    redo by an undo; both, and [go], only move the present along the
    sequence of states the history holds; [set] with a new state drops the
    future, and with the present state (by [JSON.stringify]) changes
    nothing. *)
Theorem history_undo_redo {T : Type} (stringify : T → option string) (h : History.t) :
  (History.past h ≠ [] → History.redo (History.undo h) = h)
  ∧ (History.future h ≠ [] → History.undo (History.redo h) = h)
  ∧ History.timeline (History.undo h) = History.timeline h
  ∧ History.timeline (History.redo h) = History.timeline h
  ∧ (∀ index, History.timeline (History.go index h) = History.timeline h)
  ∧ (∀ x, stringify (History.present h) = stringify x →
          History.set stringify x h = h)
  ∧ (∀ x, stringify (History.present h) ≠ stringify x →
          History.present (History.set stringify x h) = x
          ∧ History.future (History.set stringify x h) = []
          ∧ History.undo (History.set stringify x h)
            = History.mk
                (History.sliceInit 1
                   (History.sliceLast History.MAX_HISTORY_SIZE
                      (History.past h ++ [History.present h])))
                (History.present h) [x]).
Proof.
  split_and!.
  - destruct h as [p c f]. cbn. destruct p as [|x p _] using rev_ind; [done|].
    intros _. by rewrite undo_snoc.
  - destruct h as [p c [|x f]]; [done|]. intros _. cbn [History.redo History.future
      History.past History.present]. by rewrite undo_snoc.
  - apply undo_timeline.
  - apply redo_timeline.
  - intros index. apply go_timeline.
  - intros x E. unfold History.set. by rewrite decide_True.
  - intros x E. unfold History.set. rewrite decide_False by done.
    split_and!; [done..|]. unfold History.undo. cbn [History.past History.present
      History.future].
    assert (last (History.sliceLast History.MAX_HISTORY_SIZE
                    (History.past h ++ [History.present h]))
            = Some (History.present h)) as ->; [|done].
    unfold History.sliceLast. rewrite last_drop_lt, last_snoc; [done|].
    rewrite length_app. simpl. unfold History.MAX_HISTORY_SIZE. lia.
Qed.

Lemma history_undo_redo_witness :
  History.redo (History.undo (History.mk [1; 2] 3 [4])) = History.mk [1; 2] 3 [4].
Proof.
  apply (proj1 (history_undo_redo (λ n : nat, Some (String (ascii_of_nat n) EmptyString))
                  (History.mk [1; 2] 3 [4]))).
  discriminate.
Defined.

(** [go(-n)] is [n] undos and [go(n)] is [n] redos, for every [n]: going
    further than the history reaches stops at its end. *)
Theorem history_go_is_repeated {T : Type} (n : nat) (h : @History.t T) :
  History.go (- Z.of_nat n) h = Nat.iter n History.undo h
  ∧ History.go (Z.of_nat n) h = Nat.iter n History.redo h.
Proof. split; [apply go_back | apply go_forward]. Qed.

(** Whatever the calls made, the history never holds more than
    [MAX_HISTORY_SIZE] states beside the present one: past and future
    together stay within 100. *)
Theorem history_is_bounded {T : Type} (stringify : T → option string)
    (actions : list History.Action) (initialState : T) :
  List.length (History.past (History.run stringify actions initialState))
  + List.length (History.future (History.run stringify actions initialState))
  ≤ History.MAX_HISTORY_SIZE.
Proof.
  apply (run_size stringify actions (History.init initialState)).
  unfold size, History.init, History.MAX_HISTORY_SIZE. simpl. lia.
Qed.
